(** * Forex chart: viewport, momentum, range calculator, render passes, loader

    A shallow embedding of the chart core of the repository
    ([Viewport], [Chart], [Renderer], [DataLoader]) and the properties its
    specification states about it.

    Numbers.  A JavaScript [number] is modelled as an extended rational:
    [NaN], the two infinities, or a finite value kept exactly.  Rounding of
    finite values is not modelled (the specification's "within
    floating-point tolerance" becomes rational equality [==]) and zero has
    one sign, the positive one.  The arithmetic of the special values
    follows ECMAScript: [NaN] is absorbing, comparisons with [NaN] are
    false, [Math.max] and [Math.min] return [NaN] as soon as one argument is
    [NaN].

    The exception is [calculatePriceRange]: its padding is an absolute
    [1e-6] on a flat window, which binary64 absorbs at large prices, so its
    subtraction, product and sums are rounded to the nearest double
    ([round64]) as the code computes them. *)

From Stdlib Require Import QArith Qround Qpower Lqa Lia ZArith List Bool String.
From Stdlib Require Import Sorted Permutation DecimalString.
Import ListNotations.
Open Scope Q_scope.

(* ================================================================== *)
(** ** JavaScript numbers *)
(* ================================================================== *)

Inductive num : Type :=
| NaN : num
| PInf : num
| NInf : num
| Fin : Q -> num.

(** Strict comparison of rationals as a boolean. *)
Definition Qlt_bool (a b : Q) : bool := negb (Qle_bool b a).

(** The infinity with the sign of [q], [NaN] for zero. *)
Definition inf_of_sign (q : Q) : num :=
  if Qeq_bool q 0 then NaN else if Qlt_bool 0 q then PInf else NInf.

Definition nneg (a : num) : num :=
  match a with
  | NaN => NaN
  | PInf => NInf
  | NInf => PInf
  | Fin x => Fin (- x)
  end.

(** [a + b] *)
Definition nadd (a b : num) : num :=
  match a, b with
  | NaN, _ | _, NaN => NaN
  | PInf, NInf | NInf, PInf => NaN
  | PInf, _ | _, PInf => PInf
  | NInf, _ | _, NInf => NInf
  | Fin x, Fin y => Fin (x + y)
  end.

(** [a - b] *)
Definition nsub (a b : num) : num :=
  match a, b with
  | NaN, _ | _, NaN => NaN
  | PInf, PInf | NInf, NInf => NaN
  | PInf, _ | _, NInf => PInf
  | NInf, _ | _, PInf => NInf
  | Fin x, Fin y => Fin (x - y)
  end.

(** [a * b] *)
Definition nmul (a b : num) : num :=
  match a, b with
  | NaN, _ | _, NaN => NaN
  | PInf, PInf | NInf, NInf => PInf
  | PInf, NInf | NInf, PInf => NInf
  | PInf, Fin y | Fin y, PInf => inf_of_sign y
  | NInf, Fin y | Fin y, NInf => inf_of_sign (- y)
  | Fin x, Fin y => Fin (x * y)
  end.

(** [a / b]; a finite value over zero is an infinity (or [NaN] for 0/0). *)
Definition ndiv (a b : num) : num :=
  match a, b with
  | NaN, _ | _, NaN => NaN
  | PInf, PInf | PInf, NInf | NInf, PInf | NInf, NInf => NaN
  | Fin _, PInf | Fin _, NInf => Fin 0
  | PInf, Fin y => if Qlt_bool y 0 then NInf else PInf
  | NInf, Fin y => if Qlt_bool y 0 then PInf else NInf
  | Fin x, Fin y => if Qeq_bool y 0 then inf_of_sign x else Fin (x / y)
  end.

(** [Math.max(a, b)] *)
Definition nmax (a b : num) : num :=
  match a, b with
  | NaN, _ | _, NaN => NaN
  | PInf, _ | _, PInf => PInf
  | NInf, c | c, NInf => c
  | Fin x, Fin y => if Qle_bool x y then Fin y else Fin x
  end.

(** [Math.min(a, b)] *)
Definition nmin (a b : num) : num :=
  match a, b with
  | NaN, _ | _, NaN => NaN
  | NInf, _ | _, NInf => NInf
  | PInf, c | c, PInf => c
  | Fin x, Fin y => if Qle_bool x y then Fin x else Fin y
  end.

(** [Math.abs(a)] *)
Definition nabs (a : num) : num :=
  match a with
  | NaN => NaN
  | PInf | NInf => PInf
  | Fin x => if Qle_bool 0 x then Fin x else Fin (- x)
  end.

(** [Math.floor(a)] *)
Definition nfloor (a : num) : num :=
  match a with
  | Fin x => Fin (inject_Z (Qfloor x))
  | _ => a
  end.

(** [a < b] *)
Definition nlt (a b : num) : bool :=
  match a, b with
  | NaN, _ | _, NaN => false
  | _, NInf | PInf, _ => false
  | NInf, _ | _, PInf => true
  | Fin x, Fin y => Qlt_bool x y
  end.

(** [a <= b] *)
Definition nle (a b : num) : bool :=
  match a, b with
  | NaN, _ | _, NaN => false
  | NInf, _ | _, PInf => true
  | _, NInf | PInf, _ => false
  | Fin x, Fin y => Qle_bool x y
  end.

(** [a > b] and [a >= b] *)
Definition ngt (a b : num) : bool := nlt b a.
Definition nge (a b : num) : bool := nle b a.

(** [isFinite(a)] *)
Definition isFinite (a : num) : bool :=
  match a with Fin _ => true | _ => false end.

(** Truthiness of a number: [0] and [NaN] are falsy. *)
Definition truthy (a : num) : bool :=
  match a with
  | NaN => false
  | Fin x => negb (Qeq_bool x 0)
  | _ => true
  end.

(** [a || b] on numbers. *)
Definition nor (a b : num) : num := if truthy a then a else b.

(** A natural number (a loop counter, an array length) as a number. *)
Definition of_nat (n : nat) : num := Fin (inject_Z (Z.of_nat n)).

(** The same number: rational equality on finite values. *)
Definition neqv (a b : num) : Prop :=
  match a, b with
  | NaN, NaN | PInf, PInf | NInf, NInf => True
  | Fin x, Fin y => x == y
  | _, _ => False
  end.

(** [a[i]] on an array: [undefined] ([None]) unless [i] is a non-negative
    integer below the length. *)
Definition index {A : Type} (a : list A) (i : num) : option A :=
  match i with
  | Fin x =>
      if Qeq_bool (inject_Z (Qfloor x)) x && (0 <=? Qfloor x)%Z
      then nth_error a (Z.to_nat (Qfloor x))
      else None
  | _ => None
  end.

(** [a.length] *)
Definition length_num {A : Type} (a : list A) : num := of_nat (List.length a).

(* ================================================================== *)
(** ** Rounding to binary64 *)
(* ================================================================== *)

(** [2^e] *)
Definition pow2 (e : Z) : Q := 2 ^ e.

(** The binade of a positive rational: the [e] with [2^e <= x < 2^(e+1)].
    The difference of the two logarithms is [e] or [e + 1]. *)
Definition binade (x : Q) : Z :=
  let e0 := (Z.log2 (Qnum x) - Z.log2 (Z.pos (Qden x)))%Z in
  if Qle_bool (pow2 e0) x then e0 else (e0 - 1)%Z.

(** The nearest integer, ties to the even one. *)
Definition rne (m : Q) : Z :=
  let f := Qfloor m in
  let r := m - inject_Z f in
  if Qlt_bool r (1 # 2) then f
  else if Qlt_bool (1 # 2) r then (f + 1)%Z
  else if Z.even f then f else (f + 1)%Z.

(** The spacing of the doubles around a positive [x]: 53 significant bits
    in the binade of [x], and the spacing [2^-1074] of the subnormal range
    below [2^-1022]. *)
Definition quantum (x : Q) : Q := pow2 (Z.max (binade x) (-1022) - 52).

(** A positive rational rounded to the nearest multiple of its quantum. *)
Definition nearest (x : Q) : Q := inject_Z (rne (x / quantum x)) * quantum x.

(** The double nearest to a rational (round to nearest, ties to even);
    what rounds to [2^1024] or above is an infinity. *)
Definition round_pos (x : Q) : num :=
  if Qle_bool (pow2 1024) (nearest x) then PInf else Fin (nearest x).

Definition round64 (x : Q) : num :=
  if Qeq_bool x 0 then Fin 0
  else if Qlt_bool 0 x then round_pos x
  else nneg (round_pos (- x)).

(** The result of an operation, rounded when it is finite. *)
Definition rounded (a : num) : num :=
  match a with
  | Fin x => round64 x
  | _ => a
  end.

(** [a + b], [a - b] and [a * b] as binary64 computes them on doubles: the
    exact result, rounded. *)
Definition fadd (a b : num) : num := rounded (nadd a b).
Definition fsub (a b : num) : num := rounded (nsub a b).
Definition fmul (a b : num) : num := rounded (nmul a b).

(* ================================================================== *)
(** ** types.ts *)
(* ================================================================== *)

Record Bar : Type := mkBar {
  Time : num;
  Open : num;
  High : num;
  Low : num;
  Close : num;
  TickVolume : num
}.

(* ================================================================== *)
(** ** Viewport *)
(* ================================================================== *)

Record Viewport : Type := mkViewport {
  offsetIndex : num;
  barWidth : num;
  spacing : num;
  maxBarWidth : num;
  visibleCount : num
}.

(** [new Viewport(visibleCount)] *)
Definition new_Viewport (vc : num) : Viewport :=
  {| offsetIndex := Fin 0;
     barWidth := Fin 6;
     spacing := Fin 1;
     maxBarWidth := Fin 20;
     visibleCount := vc |}.

(** The logical bar index under pixel [p]: [offsetIndex + p / (barWidth +
    spacing)], the [centerIndexFloat] of [zoomAt]. *)
Definition index_at (v : Viewport) (p : num) : num :=
  nadd (offsetIndex v) (ndiv p (nadd (barWidth v) (spacing v))).

(** [newBarWidth] of [zoomAt]. *)
Definition zoom_newBarWidth (v : Viewport) (zoomFactor : num) : num :=
  nmax (Fin 1) (nmin (maxBarWidth v) (nmul (barWidth v) zoomFactor)).

(** [newOffset] of [zoomAt], before the clamp at 0. *)
Definition zoom_newOffset (v : Viewport) (mouseX zoomFactor : num) : num :=
  nsub (index_at v mouseX)
       (ndiv mouseX (nadd (zoom_newBarWidth v zoomFactor) (spacing v))).

(** The early return of [zoomAt]: the width changes by less than 0.01. *)
Definition zoom_noop (v : Viewport) (zoomFactor : num) : bool :=
  nlt (nabs (nsub (zoom_newBarWidth v zoomFactor) (barWidth v))) (Fin 0.01).

Definition zoomAt (v : Viewport) (mouseX zoomFactor : num) : Viewport :=
  let centerIndexFloat := index_at v mouseX in
  let newBarWidth := zoom_newBarWidth v zoomFactor in
  if nlt (nabs (nsub newBarWidth (barWidth v))) (Fin 0.01) then v
  else
    let newOffset :=
      nsub centerIndexFloat (ndiv mouseX (nadd newBarWidth (spacing v))) in
    {| offsetIndex := nmax (Fin 0) newOffset;
       barWidth := newBarWidth;
       spacing := spacing v;
       maxBarWidth := maxBarWidth v;
       visibleCount := visibleCount v |}.

(** The offset [panBy] computes before the clamp at 0. *)
Definition pan_target (v : Viewport) (deltaPx : num) : num :=
  let panSensitivity := Fin 1 in
  let deltaIndex :=
    ndiv (nmul deltaPx panSensitivity) (nadd (barWidth v) (spacing v)) in
  nsub (offsetIndex v) deltaIndex.

Definition panBy (v : Viewport) (deltaPx : num) : Viewport :=
  let panSensitivity := Fin 1 in
  let deltaIndex :=
    ndiv (nmul deltaPx panSensitivity) (nadd (barWidth v) (spacing v)) in
  {| offsetIndex := nmax (Fin 0) (nsub (offsetIndex v) deltaIndex);
     barWidth := barWidth v;
     spacing := spacing v;
     maxBarWidth := maxBarWidth v;
     visibleCount := visibleCount v |}.

(* ================================================================== *)
(** ** Thrown values and the drawing surface *)
(* ================================================================== *)

(** What a [throw] (or a rejected promise) carries. *)
Inductive error : Type :=
| Error (message : string)   (* [new Error(message)] *)
| TypeError                  (* a property read on [undefined] or [null] *)
| SyntaxError                (* [res.json()] on a body that is not JSON *)
| NetworkError.              (* the value [fetch] rejected with *)

Inductive result (A : Type) : Type :=
| Ok (a : A)
| Throw (e : error).
Arguments Ok {A} a.
Arguments Throw {A} e.

(** The calls made on the 2D context, in order. *)
Inductive cmd : Type :=
| Save
| Restore
| ClearRect (x y w h : num)
| FillRect (x y w h : num)
| BeginPath
| MoveTo (x y : num)
| LineTo (x y : num)
| QuadraticCurveTo (cpx cpy x y : num)
| Stroke
| SetFillStyle (color : string)
| SetStrokeStyle (color : string)
| SetLineWidth (w : num)
(* the passes that do not walk the bar array, one entry each *)
| LoadingIndicator (progress : num) (message : string)
| PriceScale (right top bottom min max : num)
| VolumeScale (right max : num)
| DateLabels (bottom left width visibleStart visibleCount : num).

(** A pass: the calls it made, and the value it threw if it did. *)
Definition draw : Type := (list cmd * option error)%type.

Definition emit (cs : list cmd) : draw := (cs, None).

Definition throw (e : error) : draw := ([], Some e).

(** Sequencing: nothing runs after a throw. *)
Definition and_then (d1 d2 : draw) : draw :=
  match d1 with
  | (cs, Some e) => (cs, Some e)
  | (cs, None) => (cs ++ fst d2, snd d2)
  end.

Notation "d1 ;; d2" := (and_then d1 d2) (at level 61, right associativity).

(** [withSaveRestore(fn)]: no [finally], so a throw skips [restore]. *)
Definition withSaveRestore (fn : draw) : draw :=
  emit [Save] ;; fn ;; emit [Restore].

Record Canvas : Type := mkCanvas {
  clientWidth : num;
  clientHeight : num;
  width : num;
  height : num;
  devicePixelRatio : num
}.

Module COLORS.
Definition background : string := "#181a20".
Definition bull : string := "#2ebd85".
Definition bear : string := "#f6465d".
Definition panelBorder : string := "#404552".
End COLORS.

(* ================================================================== *)
(** ** Loops over the visible window *)
(* ================================================================== *)

Section ForWindow.
Context {X A : Type}.
(** What the loop reads at [idx]; [None] is the [break]. *)
Variable fetch : num -> option X.
Variable body : nat -> X -> A -> A.
Variables startIndex visibleCount : num.

(** [for (let i = 0; i < visibleCount; i++) {
       const idx = Math.floor(startIndex + i);
       ... if (!bar) break; body }], from counter [i] on. *)
Fixpoint for_window (fuel i : nat) (acc : A) : A :=
  match fuel with
  | O => acc
  | S fuel' =>
      if nlt (of_nat i) visibleCount then
        match fetch (nfloor (nadd startIndex (of_nat i))) with
        | None => acc
        | Some x => for_window fuel' (S i) (body i x acc)
        end
      else acc
  end.
End ForWindow.

(** The loop header shared by [drawBars], [drawTickVolumes],
    [calculatePriceRange] and [calculateVolumeMax]: [bar = bars[idx]].  One
    more turn than there are bars always reaches the [break]. *)
Definition for_bars {A : Type} (bars : list Bar) (startIndex visibleCount : num)
    (body : nat -> Bar -> A -> A) (acc : A) : A :=
  for_window (index bars) body startIndex visibleCount
             (S (List.length bars)) 0%nat acc.

(* ================================================================== *)
(** ** Renderer *)
(* ================================================================== *)

Section Renderer.
Variable canvas : Canvas.

Definition clear : draw :=
  emit [ClearRect (Fin 0) (Fin 0) (width canvas) (height canvas)].

Definition drawBackground : draw :=
  emit [SetFillStyle COLORS.background;
        FillRect (Fin 0) (Fin 0) (width canvas) (height canvas)].

Definition priceToY (top bottom minPrice maxPrice p : num) : num :=
  nadd top (nmul (ndiv (nsub maxPrice p) (nsub maxPrice minPrice))
                 (nsub bottom top)).

(** One turn of the loop of [drawBars]. *)
Definition drawBars_body (left top bottom minPrice maxPrice barWidth spacing : num)
    (i : nat) (bar : Bar) : list cmd :=
  let bull := nge (Close bar) (Open bar) in
  let color := if bull then COLORS.bull else COLORS.bear in
  let x := nadd left (nmul (of_nat i) (nadd barWidth spacing)) in
  let o := priceToY top bottom minPrice maxPrice (Open bar) in
  let h := priceToY top bottom minPrice maxPrice (High bar) in
  let l := priceToY top bottom minPrice maxPrice (Low bar) in
  let c := priceToY top bottom minPrice maxPrice (Close bar) in
  let bodyTop := nmin o c in
  let bodyBottom := nmax o c in
  [BeginPath;
   MoveTo (nadd x (ndiv barWidth (Fin 2))) h;
   LineTo (nadd x (ndiv barWidth (Fin 2))) l;
   SetLineWidth (nmax (Fin 1) (nfloor (ndiv barWidth (Fin 8))));
   SetStrokeStyle color;
   Stroke;
   SetFillStyle color;
   FillRect x bodyTop barWidth (nmax (Fin 1) (nsub bodyBottom bodyTop))].

Definition drawBars (left top bottom : num) (bars : list Bar)
    (startIndex visibleCount minPrice maxPrice barWidth spacing : num) : draw :=
  withSaveRestore
    (emit (for_bars bars startIndex visibleCount
             (fun i bar acc =>
                acc ++ drawBars_body left top bottom minPrice maxPrice
                                     barWidth spacing i bar)
             [])).

(** What the loop of [drawGraph] reads: [bar] and [nextBar], both needed. *)
Definition graph_fetch (bars : list Bar) (idx : num) : option (Bar * Bar) :=
  match index bars idx, index bars (nadd idx (Fin 1)) with
  | Some bar, Some nextBar => Some (bar, nextBar)
  | _, _ => None
  end.

(** One turn of the loop of [drawGraph]. *)
Definition drawGraph_body (left top bottom minPrice maxPrice barWidth spacing : num)
    (i : nat) (bar nextBar : Bar) : list cmd :=
  let x := nadd left (nmul (of_nat i) (nadd barWidth spacing)) in
  let nextX := nadd left (nmul (nadd (of_nat i) (Fin 1)) (nadd barWidth spacing)) in
  let close := priceToY top bottom minPrice maxPrice (Close bar) in
  let nextClose := priceToY top bottom minPrice maxPrice (Close nextBar) in
  let xc := ndiv (nadd (nadd x nextX) barWidth) (Fin 2) in
  let yc := ndiv (nadd close nextClose) (Fin 2) in
  [QuadraticCurveTo (nadd x (ndiv barWidth (Fin 2))) close xc yc].

Definition drawGraph (left top bottom : num) (bars : list Bar)
    (startIndex visibleCount minPrice maxPrice barWidth spacing : num) : draw :=
  withSaveRestore
    (match index bars (nadd startIndex (Fin 0)) with
     | None => throw TypeError            (* [startBar.Close] on [undefined] *)
     | Some startBar =>
         let startClose := priceToY top bottom minPrice maxPrice (Close startBar) in
         emit [BeginPath; MoveTo (nadd left (ndiv barWidth (Fin 2))) startClose] ;;
         emit (for_window (graph_fetch bars)
                 (fun i '(bar, nextBar) acc =>
                    acc ++ drawGraph_body left top bottom minPrice maxPrice
                                          barWidth spacing i bar nextBar)
                 startIndex visibleCount (S (List.length bars)) 0%nat []) ;;
         emit [SetLineWidth (nmax (Fin 1) (nfloor (ndiv barWidth (Fin 8))));
               SetStrokeStyle COLORS.panelBorder;
               Stroke]
     end).

(** One turn of the loop of [drawTickVolumes]. *)
Definition drawTickVolumes_body (left maxVolume barWidth spacing : num)
    (i : nat) (bar : Bar) : list cmd :=
  let normalizeVolume := fun v => nmul (ndiv v maxVolume) (Fin 50) in
  let bull := nge (Close bar) (Open bar) in
  let color := if bull then COLORS.bull else COLORS.bear in
  let x := nadd left (nmul (of_nat i) (nadd barWidth spacing)) in
  [SetFillStyle color;
   FillRect x (clientHeight canvas) barWidth
            (nneg (normalizeVolume (TickVolume bar)))].

Definition drawTickVolumes (left : num) (bars : list Bar)
    (startIndex visibleCount maxVolume barWidth spacing : num) : draw :=
  withSaveRestore
    (emit (for_bars bars startIndex visibleCount
             (fun i bar acc =>
                acc ++ drawTickVolumes_body left maxVolume barWidth spacing i bar)
             [])).

Definition drawLoadingIndicator (progress : num) (message : string) : draw :=
  withSaveRestore (emit [LoadingIndicator progress message]).

Definition drawPriceScale (right top bottom min max : num) : draw :=
  withSaveRestore (emit [PriceScale right top bottom min max]).

Definition drawVolumeScale (right max : num) : draw :=
  withSaveRestore (emit [VolumeScale right max]).

Definition drawDateLabels (bottom left width visibleStart visibleCount : num) : draw :=
  withSaveRestore (emit [DateLabels bottom left width visibleStart visibleCount]).
End Renderer.

(* ================================================================== *)
(** ** DataLoader *)
(* ================================================================== *)

(** An entry of a legacy chunk: [Time] relative to the chunk, the four
    prices optional ([Open ?? 0]: [None] is a price that is absent or
    [null]).  [cTime] and [cTickVolume] are the properties read as
    numbers. *)
Record ChunkBar : Type := mkChunkBar {
  cTime : num;
  cOpen : option num;
  cHigh : option num;
  cLow : option num;
  cClose : option num;
  cTickVolume : num
}.

Record BarChunk : Type := mkBarChunk {
  ChunkStart : num;
  Bars : list ChunkBar
}.

(** The decoded body of the response, as far as the loader looks into it.
    The payload carries numbers: a property that is present holds a number
    or [null].  Read as a number, a property that is absent ([undefined])
    is [NaN] and [null] is 0; under [??] both give the default.

    An element of [chunk.Bars]: [null], on which the destructuring throws,
    or a value whose properties are read.  A number, a string or a boolean
    has none of the six properties and is an entry with every one of them
    absent. *)
Inductive jentry : Type :=
| EntryNull
| EntryObj (entry : ChunkBar).

(** The [Bars] property of a chunk: an array (a string iterates as its
    characters, entries without properties), or a value that [for ... of]
    cannot iterate: [undefined], [null], a number, a boolean, an object. *)
Inductive jbars : Type :=
| NotIterable
| Entries (entries : list jentry).

(** An element of the top-level array that is not [null]: an object, or a
    number, string or boolean, which has no property.  [oTime] is [None]
    when there is no [Time] key (['Time' in json[0]] is false, and so it is
    for what is not an object); the other properties are read as numbers.
    An element the flat branch returns is kept as the bar of its
    properties. *)
Record jobject : Type := mkObject {
  oTime : option num;
  oOpen : num;
  oHigh : num;
  oLow : num;
  oClose : num;
  oTickVolume : num;
  oChunkStart : num;
  oBars : jbars
}.

Inductive jelem : Type :=
| ElemNull
| ElemObj (o : jobject).

Inductive json : Type :=
| JArray (elems : list jelem)
| JOther.                      (* not an array *)

(** A bar object and a legacy chunk as they arrive. *)
Definition elem_of_bar (b : Bar) : jelem :=
  ElemObj (mkObject (Some (Time b)) (Open b) (High b) (Low b) (Close b)
                    (TickVolume b) NaN NotIterable).

Definition elem_of_chunk (chunk : BarChunk) : jelem :=
  ElemObj (mkObject None NaN NaN NaN NaN NaN (ChunkStart chunk)
                    (Entries (map EntryObj (Bars chunk)))).

(** An array of bar objects, and an array of chunks. *)
Definition JBars (bars : list Bar) : json := JArray (map elem_of_bar bars).
Definition JChunks (chunks : list BarChunk) : json :=
  JArray (map elem_of_chunk chunks).

(** What [fetch] and [res.json()] deliver. *)
Inductive response : Type :=
| FetchRejected
| Response (ok : bool) (statusText : string) (body : option json).

(** [a ?? b] *)
Definition nullish (a : option num) (b : num) : num :=
  match a with Some x => x | None => b end.

(** The comparator [(a, b) => a.Time - b.Time]. *)
Definition byTime (a b : Bar) : num := nsub (Time a) (Time b).

(** [Array.prototype.sort] with a comparator: a stable sort; [b] goes
    before [a] only when the comparator is positive on [(a, b)]. *)
Fixpoint sort_insert (cmp : Bar -> Bar -> num) (x : Bar) (l : list Bar) : list Bar :=
  match l with
  | [] => [x]
  | y :: l' => if ngt (cmp x y) (Fin 0) then y :: sort_insert cmp x l' else x :: l
  end.

Definition sort (cmp : Bar -> Bar -> num) (l : list Bar) : list Bar :=
  fold_right (sort_insert cmp) [] l.

(** The bar pushed for [entry] of a chunk starting at [start]. *)
Definition expand_entry (start : num) (entry : ChunkBar) : Bar :=
  {| Time := nadd (cTime entry) start;
     Open := nullish (cOpen entry) (Fin 0);
     High := nullish (cHigh entry) (Fin 0);
     Low := nullish (cLow entry) (Fin 0);
     Close := nullish (cClose entry) (Fin 0);
     TickVolume := cTickVolume entry |}.

(** The two nested loops of the chunked branch: every [bars.push]. *)
Definition expand_chunks (chunks : list BarChunk) : list Bar :=
  flat_map (fun chunk => map (expand_entry (ChunkStart chunk)) (Bars chunk)) chunks.

Definition string_of_nat (n : nat) : string :=
  NilZero.string_of_uint (Nat.to_uint n).

(** The [onProgress] call made after chunk [i] of [totalChunks]. *)
Definition chunk_progress (totalChunks i : nat) : num * string :=
  (nadd (Fin 70) (nmul (ndiv (of_nat i) (of_nat totalChunks)) (Fin 20)),
   ("Processing chunk " ++ string_of_nat (i + 1) ++ "/"
      ++ string_of_nat totalChunks ++ "...")%string).

(** An element of the array read as a bar, which is what the flat branch
    returns it as. *)
Definition bar_of_object (o : jobject) : Bar :=
  {| Time := match oTime o with Some t => t | None => NaN end;
     Open := oOpen o;
     High := oHigh o;
     Low := oLow o;
     Close := oClose o;
     TickVolume := oTickVolume o |}.

(** The elements of the flat branch as bars; [None] when one of them is
    [null], on which the comparator's [a.Time] throws: with two elements or
    more the sort compares every element at least once (and a [null] that
    is not the first element has one before it). *)
Fixpoint flat_bars (elems : list jelem) : option (list Bar) :=
  match elems with
  | [] => Some []
  | ElemNull :: _ => None
  | ElemObj o :: rest =>
      match flat_bars rest with
      | Some bars => Some (bar_of_object o :: bars)
      | None => None
      end
  end.

(** [for (const entry of chunk.Bars) { const {...} = entry; bars.push(...) }]:
    the bars pushed, or the [TypeError] of destructuring [null]. *)
Fixpoint expand_entries (start : num) (entries : list jentry)
    : result (list Bar) :=
  match entries with
  | [] => Ok []
  | EntryNull :: _ => Throw TypeError
  | EntryObj entry :: rest =>
      match expand_entries start rest with
      | Ok bars => Ok (expand_entry start entry :: bars)
      | Throw e => Throw e
      end
  end.

(** One turn of the loop over the chunks, up to its [onProgress] call:
    [chunk.ChunkStart] throws on [null], [for ... of] on a [Bars] that is
    not iterable. *)
Definition expand_chunk (chunk : jelem) : result (list Bar) :=
  match chunk with
  | ElemNull => Throw TypeError
  | ElemObj o =>
      match oBars o with
      | NotIterable => Throw TypeError
      | Entries entries => expand_entries (oChunkStart o) entries
      end
  end.

(** The loop over the chunks from chunk [i] on: the [onProgress] calls it
    makes and the bars it pushes, or what it throws. *)
Fixpoint process_chunks (totalChunks i : nat) (chunks : list jelem)
    : list (num * string) * result (list Bar) :=
  match chunks with
  | [] => ([], Ok [])
  | chunk :: rest =>
      match expand_chunk chunk with
      | Throw e => ([], Throw e)
      | Ok pushed =>
          let '(reports, outcome) := process_chunks totalChunks (S i) rest in
          (chunk_progress totalChunks i :: reports,
           match outcome with
           | Ok bars => Ok (pushed ++ bars)
           | Throw e => Throw e
           end)
      end
  end.

(** [json.length > 0 && typeof json[0] === 'object' && 'Time' in json[0]]:
    [None] when the test throws (['Time' in null]). *)
Definition is_flat (elems : list jelem) : option bool :=
  match elems with
  | [] => Some false
  | ElemNull :: _ => None
  | ElemObj o :: _ => Some (match oTime o with Some _ => true | None => false end)
  end.

(** [loadForexTesterChunk]: the [onProgress] calls made, in order, and the
    outcome. *)
Definition loadForexTesterChunk (res : response)
    : list (num * string) * result (list Bar) :=
  let p10 := (Fin 10, "Connecting to server..."%string) in
  match res with
  | FetchRejected => ([p10], Throw NetworkError)
  | Response false statusText _ =>
      ([p10], Throw (Error ("Failed to fetch data: " ++ statusText)))
  | Response true _ body =>
      let p50 := (Fin 50, "Processing data..."%string) in
      match body with
      | None => ([p10; p50], Throw SyntaxError)
      | Some JOther => ([p10; p50], Throw (Error "Unexpected data format"))
      | Some (JArray elems) =>
          match is_flat elems with
          | None => ([p10; p50], Throw TypeError)
          | Some true =>
              let p80 := (Fin 80, "Sorting data..."%string) in
              match flat_bars elems with
              | None => ([p10; p50; p80], Throw TypeError)
              | Some bars =>
                  ([p10; p50; p80;
                    (Fin 100, "Data loaded successfully!"%string)],
                   Ok (sort byTime bars))
              end
          | Some false =>
              let p70 := (Fin 70, "Processing chunks..."%string) in
              let '(reports, outcome) :=
                process_chunks (List.length elems) 0 elems in
              match outcome with
              | Throw e => ([p10; p50; p70] ++ reports, Throw e)
              | Ok bars =>
                  ([p10; p50; p70] ++ reports
                     ++ [(Fin 95, "Sorting data..."%string);
                         (Fin 100, "Data loaded successfully!"%string)],
                   Ok (sort byTime bars))
              end
          end
      end
  end.

(* ================================================================== *)
(** ** Chart *)
(* ================================================================== *)

Record Chart : Type := mkChart {
  bars : list Bar;
  viewport : Viewport;
  animHandle : bool;            (* a frame is requested *)
  dragging : bool;
  lastDragX : num;
  lastMouseMoveTime : num;
  lastPanTime : num;
  panVelocity : num;
  isPanning : bool;
  isLoading : bool;
  loadingProgress : num;
  loadingMessage : string;
  lastTouchX : num;             (* the [let] captured by the touch handlers *)
  showVolume : bool             (* [config.showVolume] *)
}.

Definition mouseMoveThrottle : num := Fin 16.

Definition set_bars (c : Chart) (x : list Bar) : Chart :=
  mkChart x (viewport c) (animHandle c) (dragging c) (lastDragX c)
    (lastMouseMoveTime c) (lastPanTime c) (panVelocity c) (isPanning c)
    (isLoading c) (loadingProgress c) (loadingMessage c) (lastTouchX c)
    (showVolume c).

Definition set_viewport (c : Chart) (x : Viewport) : Chart :=
  mkChart (bars c) x (animHandle c) (dragging c) (lastDragX c)
    (lastMouseMoveTime c) (lastPanTime c) (panVelocity c) (isPanning c)
    (isLoading c) (loadingProgress c) (loadingMessage c) (lastTouchX c)
    (showVolume c).

Definition set_animHandle (c : Chart) (x : bool) : Chart :=
  mkChart (bars c) (viewport c) x (dragging c) (lastDragX c)
    (lastMouseMoveTime c) (lastPanTime c) (panVelocity c) (isPanning c)
    (isLoading c) (loadingProgress c) (loadingMessage c) (lastTouchX c)
    (showVolume c).

Definition set_dragging (c : Chart) (x : bool) : Chart :=
  mkChart (bars c) (viewport c) (animHandle c) x (lastDragX c)
    (lastMouseMoveTime c) (lastPanTime c) (panVelocity c) (isPanning c)
    (isLoading c) (loadingProgress c) (loadingMessage c) (lastTouchX c)
    (showVolume c).

Definition set_lastDragX (c : Chart) (x : num) : Chart :=
  mkChart (bars c) (viewport c) (animHandle c) (dragging c) x
    (lastMouseMoveTime c) (lastPanTime c) (panVelocity c) (isPanning c)
    (isLoading c) (loadingProgress c) (loadingMessage c) (lastTouchX c)
    (showVolume c).

Definition set_lastMouseMoveTime (c : Chart) (x : num) : Chart :=
  mkChart (bars c) (viewport c) (animHandle c) (dragging c) (lastDragX c)
    x (lastPanTime c) (panVelocity c) (isPanning c)
    (isLoading c) (loadingProgress c) (loadingMessage c) (lastTouchX c)
    (showVolume c).

Definition set_lastPanTime (c : Chart) (x : num) : Chart :=
  mkChart (bars c) (viewport c) (animHandle c) (dragging c) (lastDragX c)
    (lastMouseMoveTime c) x (panVelocity c) (isPanning c)
    (isLoading c) (loadingProgress c) (loadingMessage c) (lastTouchX c)
    (showVolume c).

Definition set_panVelocity (c : Chart) (x : num) : Chart :=
  mkChart (bars c) (viewport c) (animHandle c) (dragging c) (lastDragX c)
    (lastMouseMoveTime c) (lastPanTime c) x (isPanning c)
    (isLoading c) (loadingProgress c) (loadingMessage c) (lastTouchX c)
    (showVolume c).

Definition set_isPanning (c : Chart) (x : bool) : Chart :=
  mkChart (bars c) (viewport c) (animHandle c) (dragging c) (lastDragX c)
    (lastMouseMoveTime c) (lastPanTime c) (panVelocity c) x
    (isLoading c) (loadingProgress c) (loadingMessage c) (lastTouchX c)
    (showVolume c).

Definition set_loading (c : Chart) (l : bool) (p : num) (m : string) : Chart :=
  mkChart (bars c) (viewport c) (animHandle c) (dragging c) (lastDragX c)
    (lastMouseMoveTime c) (lastPanTime c) (panVelocity c) (isPanning c)
    l p m (lastTouchX c) (showVolume c).

Definition set_lastTouchX (c : Chart) (x : num) : Chart :=
  mkChart (bars c) (viewport c) (animHandle c) (dragging c) (lastDragX c)
    (lastMouseMoveTime c) (lastPanTime c) (panVelocity c) (isPanning c)
    (isLoading c) (loadingProgress c) (loadingMessage c) x
    (showVolume c).

(** [this.viewport.offsetIndex = x] and [this.viewport.barWidth = x] *)
Definition set_offsetIndex (v : Viewport) (x : num) : Viewport :=
  mkViewport x (barWidth v) (spacing v) (maxBarWidth v) (visibleCount v).

Definition set_barWidth (v : Viewport) (x : num) : Viewport :=
  mkViewport (offsetIndex v) x (spacing v) (maxBarWidth v) (visibleCount v).

(** [scheduleRender]: requests a frame unless one is requested already. *)
Definition scheduleRender (c : Chart) : Chart :=
  if animHandle c then c else set_animHandle c true.

(** The chart once its constructor has run (with [config]). *)
Definition new_Chart (config_showVolume : bool) : Chart :=
  scheduleRender
    {| bars := [];
       viewport := new_Viewport (Fin 200);
       animHandle := false;
       dragging := false;
       lastDragX := Fin 0;
       lastMouseMoveTime := Fin 0;
       lastPanTime := Fin 0;
       panVelocity := Fin 0;
       isPanning := false;
       isLoading := false;
       loadingProgress := Fin 0;
       loadingMessage := "Loading data...";
       lastTouchX := Fin 0;
       showVolume := config_showVolume |}.

Definition setInitialData (c : Chart) (newBars : list Bar) : Chart :=
  let c := set_bars c newBars in
  let c :=
    set_viewport c
      (set_offsetIndex (viewport c)
         (nmax (Fin 0) (nsub (length_num (bars c)) (visibleCount (viewport c))))) in
  scheduleRender c.

Definition setLoading (c : Chart) (loading : bool) (progress : num)
    (message : string) : Chart :=
  scheduleRender
    (set_loading c loading (nmax (Fin 0) (nmin (Fin 100) progress)) message).

(** [setLoading(false)]: the default arguments. *)
Definition setLoading_false (c : Chart) : Chart :=
  setLoading c false (Fin 0) "Loading data...".

(** [loadData]: the chart afterwards and the error it rethrows, if any.
    The response is the outcome of the loader's [fetch]. *)
Definition loadData (c : Chart) (res : response) : Chart * option error :=
  let c := setLoading c true (Fin 0) "Starting data load..." in
  let '(progress, outcome) := loadForexTesterChunk res in
  let c := fold_left (fun c pm => setLoading c true (fst pm) (snd pm)) progress c in
  match outcome with
  | Ok newBars => (setLoading_false (setInitialData c newBars), None)
  | Throw e => (setLoading_false c, Some e)
  end.

(** [getVisibleRange]: [(visibleCount, startIndex)]. *)
Definition getVisibleRange (canvas : Canvas) (c : Chart) : num * num :=
  let canvasWidth := nor (clientWidth canvas) (width canvas) in
  let totalBarSpan := nadd (barWidth (viewport c)) (spacing (viewport c)) in
  let visibleCount := nfloor (ndiv canvasWidth totalBarSpan) in
  (visibleCount, nfloor (offsetIndex (viewport c))).

Definition calculatePriceRange (c : Chart) (startIndex visibleCount : num)
    : num * num :=
  let '(min, max) :=
    for_bars (bars c) startIndex visibleCount
      (fun _ bar mm => (nmin (fst mm) (Low bar), nmax (snd mm) (High bar)))
      (PInf, NInf) in
  let '(min, max) :=
    if negb (isFinite min) || negb (isFinite max) then (Fin 0, Fin 1)
    else (min, max) in
  let pad := nor (fmul (fsub max min) (round64 0.05)) (round64 0.000001) in
  (fsub min pad, fadd max pad).

Definition calculateVolumeMax (c : Chart) (startIndex visibleCount : num) : num :=
  let max :=
    for_bars (bars c) startIndex visibleCount
      (fun _ bar max => nmax max (TickVolume bar)) NInf in
  let max := if negb (isFinite max) then Fin 1 else max in
  let pad := nor (nmul max (Fin 0.05)) (Fin 0.000001) in
  nadd max pad.

(** The clamp at the head of [render]. *)
Definition render_clamp (c : Chart) (visibleCount : num) : Chart :=
  let additionalOffset := Fin 50 in
  if ngt (nadd (offsetIndex (viewport c)) visibleCount)
         (nadd (length_num (bars c)) additionalOffset)
  then set_viewport c
         (set_offsetIndex (viewport c)
            (nmax (Fin 0)
               (nadd (nsub (length_num (bars c)) visibleCount) additionalOffset)))
  else c.

(** [render], run by the frame callback: the chart afterwards and the
    passes drawn.  The range is read before the clamp, as in the source. *)
Definition render (canvas : Canvas) (c : Chart) : Chart * draw :=
  let '(visibleCount, startIndex) := getVisibleRange canvas c in
  let c := render_clamp c visibleCount in
  let dpr := nor (devicePixelRatio canvas) (Fin 1) in
  let left := Fin 10 in
  let right := nsub (ndiv (width canvas) dpr) (Fin 90) in
  let top := Fin 10 in
  let bottom := nsub (ndiv (height canvas) dpr) (Fin 90) in
  let head := clear canvas ;; drawBackground canvas in
  if isLoading c then
    (c, head ;; drawLoadingIndicator (loadingProgress c) (loadingMessage c))
  else
    let '(minPrice, maxPrice) := calculatePriceRange c startIndex visibleCount in
    let maxVolume := calculateVolumeMax c startIndex visibleCount in
    (c,
     head ;;
     drawGraph left top bottom (bars c) startIndex visibleCount minPrice maxPrice
               (barWidth (viewport c)) (spacing (viewport c)) ;;
     drawBars left top bottom (bars c) startIndex visibleCount minPrice maxPrice
              (barWidth (viewport c)) (spacing (viewport c)) ;;
     (if showVolume c then
        drawTickVolumes canvas left (bars c) startIndex visibleCount maxVolume
                        (barWidth (viewport c)) (spacing (viewport c))
      else emit []) ;;
     drawPriceScale (ndiv (width canvas) dpr) top bottom minPrice maxPrice ;;
     drawVolumeScale (ndiv (width canvas) dpr) maxVolume ;;
     drawDateLabels bottom left (nsub right left) startIndex visibleCount).

(** The callback [scheduleRender] hands to [requestAnimationFrame]. *)
Definition frame (canvas : Canvas) (c : Chart) : Chart * draw :=
  render canvas (set_animHandle c false).

(** [updateMomentum] at time [now]: the chart afterwards, and whether it
    requested another call of itself for the next frame. *)
Definition updateMomentum (now : num) (c : Chart) : Chart * bool :=
  if negb (isPanning c) then (c, false)
  else
    let c := set_lastPanTime c now in
    if ngt (nabs (panVelocity c)) (Fin 0.1) then
      let c := set_viewport c (panBy (viewport c) (panVelocity c)) in
      let c := set_panVelocity c (nmul (panVelocity c) (Fin 0.97)) in
      (scheduleRender c, true)
    else (c, false).

(** *** The listeners of [setupInteraction]

    Event fields and [performance.now()] readings are the arguments. *)

Definition on_wheel (c : Chart) (clientX rectLeft deltaY : num) : Chart :=
  let mouseX := nsub clientX rectLeft in
  let zoomSpeed := Fin 0.02 in
  let delta :=
    if ngt deltaY (Fin 0) then nsub (Fin 1) zoomSpeed else nadd (Fin 1) zoomSpeed in
  scheduleRender (set_viewport c (zoomAt (viewport c) mouseX delta)).

Definition on_mousedown (c : Chart) (clientX now : num) : Chart :=
  let c := set_dragging c true in
  let c := set_isPanning c false in
  let c := set_panVelocity c (Fin 0) in
  let c := set_lastDragX c clientX in
  set_lastPanTime c now.

Definition on_mousemove (c : Chart) (clientX now : num) : Chart :=
  if negb (dragging c) then c
  else if nlt (nsub now (lastMouseMoveTime c)) mouseMoveThrottle then c
  else
    let c := set_lastMouseMoveTime c now in
    let dx := nsub clientX (lastDragX c) in
    let c := set_lastDragX c clientX in
    let deltaTime := nsub now (lastPanTime c) in
    let c :=
      if ngt deltaTime (Fin 0)
      then set_panVelocity c (nmul (ndiv dx deltaTime) (Fin 16))
      else c in
    let c := set_lastPanTime c now in
    scheduleRender (set_viewport c (panBy (viewport c) dx)).

Definition on_mouseup (c : Chart) (now : num) : Chart :=
  let c := set_dragging c false in
  let c := set_isPanning c true in
  fst (updateMomentum now c).

Definition on_dblclick (c : Chart) : Chart :=
  let c := set_isPanning c false in
  let c := set_panVelocity c (Fin 0) in
  let c := set_viewport c (set_barWidth (viewport c) (Fin 6)) in
  let c :=
    set_viewport c
      (set_offsetIndex (viewport c)
         (nmax (Fin 0) (nsub (length_num (bars c)) (Fin 200)))) in
  scheduleRender c.

Definition on_touchstart (c : Chart) (clientX : num) : Chart :=
  let c := set_lastTouchX c clientX in
  let c := set_isPanning c false in
  set_panVelocity c (Fin 0).

Definition on_touchmove (c : Chart) (clientX now : num) : Chart :=
  if nlt (nsub now (lastMouseMoveTime c)) mouseMoveThrottle then c
  else
    let c := set_lastMouseMoveTime c now in
    let dx := nsub clientX (lastTouchX c) in
    let c := set_lastTouchX c clientX in
    let deltaTime := nsub now (lastPanTime c) in
    let c :=
      if ngt deltaTime (Fin 0)
      then set_panVelocity c (nmul (ndiv dx deltaTime) (Fin 16))
      else c in
    let c := set_lastPanTime c now in
    scheduleRender (set_viewport c (panBy (viewport c) dx)).

Definition on_touchend (c : Chart) (now : num) : Chart :=
  let c := set_isPanning c true in
  fst (updateMomentum now c).

(** Everything that can mutate the chart between two loads. *)
Inductive event : Type :=
| Wheel (clientX rectLeft deltaY : num)
| MouseDown (clientX now : num)
| MouseMove (clientX now : num)
| MouseUp (now : num)
| DblClick
| TouchStart (clientX : num)
| TouchMove (clientX now : num)
| TouchEnd (now : num)
| MomentumFrame (now : num)       (* the callback [updateMomentum] requested *)
| RenderFrame (canvas : Canvas).  (* the callback [scheduleRender] requested *)

Definition handle (c : Chart) (e : event) : Chart :=
  match e with
  | Wheel clientX rectLeft deltaY => on_wheel c clientX rectLeft deltaY
  | MouseDown clientX now => on_mousedown c clientX now
  | MouseMove clientX now => on_mousemove c clientX now
  | MouseUp now => on_mouseup c now
  | DblClick => on_dblclick c
  | TouchStart clientX => on_touchstart c clientX
  | TouchMove clientX now => on_touchmove c clientX now
  | TouchEnd now => on_touchend c now
  | MomentumFrame now => fst (updateMomentum now c)
  | RenderFrame canvas => fst (frame canvas c)
  end.

(** The momentum callbacks after a release, one per frame at the times
    [clock 0], [clock 1], ...: [updateMomentum] runs again only when the
    previous run requested it.  Returns the chart and how many runs panned. *)
Fixpoint momentum (clock : nat -> num) (fuel k : nat) (c : Chart) : Chart * nat :=
  match fuel with
  | O => (c, k)
  | S fuel' =>
      let '(c', again) := updateMomentum (clock k) c in
      if again then momentum clock fuel' (S k) c' else (c', k)
  end.

(* ================================================================== *)
(** ** Renderer: what the scale and overlay passes compute *)
(* ================================================================== *)

(** [gridLines] of [drawPriceScale]. *)
Definition gridLines : nat := 10.

(** Turn [i] of the loop of [drawPriceScale]: the height [y] of the grid
    line and the [price] written beside it. *)
Definition priceScale_line (top bottom min max : num) (i : nat) : num * num :=
  let y := nadd top (nmul (ndiv (of_nat i) (of_nat gridLines)) (nsub bottom top)) in
  let price := nsub max (nmul (ndiv (of_nat i) (of_nat gridLines)) (nsub max min)) in
  (y, price).

(** The lines of [for (let i = 0; i <= gridLines; i++)], in order. *)
Definition priceScale_lines (top bottom min max : num) : list (num * num) :=
  map (priceScale_line top bottom min max) (List.seq 0 (S gridLines)).

(** [fillWidth] of [drawLoadingIndicator]: [(pb.w * progress) / 100] with
    [pb.w = container.w - 40] and [container.w = 300]. *)
Definition loading_fillWidth (progress : num) : num :=
  ndiv (nmul (nsub (Fin 300) (Fin 40)) progress) (Fin 100).

(** The width of the track the fill is drawn over, [pb.w]. *)
Definition loading_trackWidth : num := nsub (Fin 300) (Fin 40).

(** [indicesToTimes]: [bar ? bar.Time : 0]. *)
Definition indicesToTimes (c : Chart) (i : num) : num :=
  match index (bars c) (nfloor i) with
  | Some bar => Time bar
  | None => Fin 0
  end.

(** [labelEvery] of [drawDateLabels]:
    [Math.max(1, Math.floor(visibleCount / 5))]. *)
Definition labelEvery (visibleCount : num) : num :=
  nmax (Fin 1) (nfloor (ndiv visibleCount (Fin 5))).

(** The loop of [drawDateLabels] from the position [i] on,
    [for (...; i < visibleCount - labelEvery / 2; i += labelEvery)]: the
    labels drawn, each with the abscissa [x] of its line and text and the
    time [t] it shows; a position whose time is falsy is skipped
    ([if (!t) continue]).  [i] need not be an integer, so the loop runs on
    fuel. *)
Fixpoint dateLabels_from (fuel : nat) (indicesToTimes : num -> num)
    (left width visibleStart visibleCount i : num) : list (num * num) :=
  match fuel with
  | O => []
  | S fuel' =>
      if nlt i (nsub visibleCount (ndiv (labelEvery visibleCount) (Fin 2))) then
        let idx := nfloor (nadd visibleStart i) in
        let x := nadd left (ndiv (nmul i width) visibleCount) in
        let t := indicesToTimes idx in
        let rest :=
          dateLabels_from fuel' indicesToTimes left width visibleStart
            visibleCount (nadd i (labelEvery visibleCount)) in
        if truthy t then (x, t) :: rest else rest
      else []
  end.

(** The labels of [drawDateLabels], from [i = labelEvery / 2]. *)
Definition dateLabels (fuel : nat) (indicesToTimes : num -> num)
    (left width visibleStart visibleCount : num) : list (num * num) :=
  dateLabels_from fuel indicesToTimes left width visibleStart visibleCount
    (ndiv (labelEvery visibleCount) (Fin 2)).

(* ================================================================== *)
(** * Predicates of the specification *)
(* ================================================================== *)

Definition is_nan (a : num) : bool :=
  match a with NaN => true | _ => false end.

(** [barWidth] is a finite value of [[1, maxBarWidth]]. *)
Definition width_in_range (v : Viewport) : bool :=
  match barWidth v, maxBarWidth v with
  | Fin w, Fin m => Qle_bool 1 w && Qle_bool w m
  | _, _ => false
  end.

(** A run of [zoomAt] calls, each a pivot and a factor. *)
Definition zoom_all (calls : list (num * num)) (v : Viewport) : Viewport :=
  fold_left (fun v pf => zoomAt v (fst pf) (snd pf)) calls v.

(** A run of [panBy] calls. *)
Definition pan_all (deltas : list num) (v : Viewport) : Viewport :=
  fold_left panBy deltas v.

(** The viewport invariant of the data model, the upper bound on the offset
    apart: all fields finite, [offsetIndex >= 0], [barWidth] in
    [[1, maxBarWidth]], [spacing >= 0]. *)
Definition viewport_ok (v : Viewport) : bool :=
  match offsetIndex v, barWidth v, spacing v, maxBarWidth v with
  | Fin o, Fin w, Fin s, Fin m =>
      Qle_bool 0 o && Qle_bool 1 w && Qle_bool w m && Qle_bool 0 s
  | _, _, _, _ => false
  end.

(** The claim of pivot invariance: the logical index under [p] is the same
    number before and after [zoomAt v p f]. *)
Definition pivot_invariant (v : Viewport) (p f : num) : Prop :=
  neqv (index_at (zoomAt v p f) p) (index_at v p).

(** An operator ignored its input: offset and width are what they were. *)
Definition unchanged (v v' : Viewport) : Prop :=
  offsetIndex v' = offsetIndex v /\ barWidth v' = barWidth v.

(** The chart after [n] runs of the momentum callback, at the times
    [clock 0], ..., [clock (n - 1)]. *)
Fixpoint after_runs (clock : nat -> num) (n : nat) (c : Chart) : Chart :=
  match n with
  | O => c
  | S n' => fst (updateMomentum (clock n') (after_runs clock n' c))
  end.

(** [v0 * 0.97^n] *)
Definition decayed (v0 : Q) (n : nat) : Q := v0 * 0.97 ^ Z.of_nat n.

(** The test of [updateMomentum]: [Math.abs(v) > 0.1]. *)
Definition moving (v : num) : bool := ngt (nabs v) (Fin 0.1).

(** The upper end of the offset range of the data model:
    [max(0, totalBars - visibleCount + slack)]. *)
Definition offset_bound (totalBars visibleCount slack : num) : num :=
  nmax (Fin 0) (nadd (nsub totalBars visibleCount) slack).

(** [offsetIndex] lies in [[0, max(0, totalBars - visibleCount + slack)]]. *)
Definition offset_in_range (c : Chart) (visibleCount slack : num) : bool :=
  nle (Fin 0) (offsetIndex (viewport c))
  && nle (offsetIndex (viewport c))
         (offset_bound (length_num (bars c)) visibleCount slack).

(** The state the listeners maintain: a viewport within its invariant whose
    [maxBarWidth] admits the default width 6, and finite gesture fields. *)
Definition chart_ok (c : Chart) : bool :=
  viewport_ok (viewport c)
  && nle (Fin 6) (maxBarWidth (viewport c))
  && isFinite (visibleCount (viewport c))
  && isFinite (panVelocity c)
  && isFinite (lastDragX c)
  && isFinite (lastTouchX c)
  && isFinite (lastPanTime c)
  && isFinite (lastMouseMoveTime c).

(** Events as the browser delivers them: finite coordinates, time stamps
    and canvas sizes (the wheel delta is only compared with 0). *)
Definition event_ok (e : event) : bool :=
  match e with
  | Wheel clientX rectLeft _ => isFinite clientX && isFinite rectLeft
  | MouseDown clientX now | MouseMove clientX now | TouchMove clientX now =>
      isFinite clientX && isFinite now
  | MouseUp now | TouchEnd now | MomentumFrame now => isFinite now
  | DblClick => true
  | TouchStart clientX => isFinite clientX
  | RenderFrame canvas => isFinite (clientWidth canvas) && isFinite (width canvas)
  end.

(** The chart after a run of events. *)
Definition handle_all (es : list event) (c : Chart) : Chart :=
  fold_left handle es c.

(** The bars a window of [n] bars from index [s] holds. *)
Definition window (l : list Bar) (s n : nat) : list Bar :=
  firstn n (skipn s l).

(** [x] is a double: rounding leaves it as it is. *)
Definition is_double (x : Q) : Prop := neqv (round64 x) (Fin x).

(** The padding of the price range for the extrema [mn] and [mx]:
    [(max - min) * 0.05 || 1e-6] as binary64 computes it, with [1e-6]
    written [0.000001]. *)
Definition padding (mn mx : Q) : num :=
  nor (fmul (fsub (Fin mx) (Fin mn)) (round64 0.05)) (round64 0.000001).

(** [mn] is the least [Low] of [w], [mx] its greatest [High]. *)
Definition least_low (w : list Bar) (mn : Q) : Prop :=
  (exists b, In b w /\ Low b = Fin mn)
  /\ forall b, In b w -> nle (Fin mn) (Low b) = true.

Definition greatest_high (w : list Bar) (mx : Q) : Prop :=
  (exists b, In b w /\ High b = Fin mx)
  /\ forall b, In b w -> nle (High b) (Fin mx) = true.

(** Every bar of [w] has finite [Low] and [High]. *)
Definition finite_prices (w : list Bar) : Prop :=
  forall b, In b w -> isFinite (Low b) = true /\ isFinite (High b) = true.

(** The [Low] and [High] of every bar of [w] are doubles, as every number
    decoded from JSON is. *)
Definition double_prices (w : list Bar) : Prop :=
  forall b x, In b w -> Low b = Fin x \/ High b = Fin x -> is_double x.

(** Ascending by time: [a.Time <= b.Time]. *)
Definition time_le (a b : Bar) : Prop := nle (Time a) (Time b) = true.

(** Every bar of a chunked payload gets a time that is a number: no
    [cTime + ChunkStart] is [NaN]. *)
Definition times_are_numbers (chunks : list BarChunk) : bool :=
  forallb (fun chunk =>
             forallb (fun entry =>
                        negb (is_nan (nadd (cTime entry) (ChunkStart chunk))))
                     (Bars chunk))
          chunks.

(** [null] among the elements or the entries. *)
Definition null_elem (e : jelem) : bool :=
  match e with ElemNull => true | ElemObj _ => false end.

Definition null_entry (e : jentry) : bool :=
  match e with EntryNull => true | EntryObj _ => false end.

(** A chunk the loop cannot expand: [null], a chunk whose [Bars] cannot be
    iterated, a chunk with a [null] entry. *)
Definition bad_chunk (e : jelem) : bool :=
  match e with
  | ElemNull => true
  | ElemObj o =>
      match oBars o with
      | NotIterable => true
      | Entries entries => existsb null_entry entries
      end
  end.

(** An array the loader cannot read: its first element is [null]; or it is
    taken for an array of bars and has a [null] element; or it is taken for
    an array of chunks and one of them cannot be expanded. *)
Definition malformed (elems : list jelem) : bool :=
  match is_flat elems with
  | None => true
  | Some true => existsb null_elem elems
  | Some false => existsb bad_chunk elems
  end.

(** The responses on which the load fails: a rejected fetch, a status that
    is not OK, a body that does not decode, a body that is not an array, a
    malformed array. *)
Definition load_fails (res : response) : bool :=
  match res with
  | FetchRejected => true
  | Response false _ _ => true
  | Response true _ None => true
  | Response true _ (Some JOther) => true
  | Response true _ (Some (JArray elems)) => malformed elems
  end.
(* ================================================================== *)
(** * Further predicates *)
(* ================================================================== *)

(** What no listener and no frame writes: the bars, the loading state, the
    configuration, and the viewport's spacing, width limit and
    [visibleCount] field. *)
Definition same_data (c c' : Chart) : Prop :=
  bars c' = bars c
  /\ isLoading c' = isLoading c
  /\ loadingProgress c' = loadingProgress c
  /\ loadingMessage c' = loadingMessage c
  /\ showVolume c' = showVolume c
  /\ spacing (viewport c') = spacing (viewport c)
  /\ maxBarWidth (viewport c') = maxBarWidth (viewport c)
  /\ visibleCount (viewport c') = visibleCount (viewport c).

(** The events that are not a frame. *)
Definition is_input (e : event) : bool :=
  match e with RenderFrame _ => false | _ => true end.

(** The events that start a drag or reset the view. *)
Definition cancels_momentum (e : event) : bool :=
  match e with MouseDown _ _ | TouchStart _ | DblClick => true | _ => false end.

(** [mx] is the greatest value of the field [f] over the bars of [w]. *)
Definition greatest_of (f : Bar -> num) (w : list Bar) (mx : Q) : Prop :=
  (exists b, In b w /\ f b = Fin mx)
  /\ forall b, In b w -> nle (f b) (Fin mx) = true.

(** Every bar of [w] has a finite tick volume that is not negative. *)
Definition volumes_ok (w : list Bar) : Prop :=
  forall b, In b w -> exists t, TickVolume b = Fin t /\ 0 <= t.

(** The padding of the volume maximum: [max * 0.05 || 1e-6]. *)
Definition volume_padding (mx : Q) : Q :=
  if Qeq_bool (mx * 0.05) 0 then 0.000001 else mx * 0.05.

(** The progress values the loader reports, in order. *)
Definition progress_values (res : response) : list num :=
  map fst (fst (loadForexTesterChunk res)).

(** The response is OK and its body decodes to an array. *)
Definition array_body (res : response) : bool :=
  match res with
  | Response true _ (Some (JArray _)) => true
  | _ => false
  end.

(** [a <= b] on numbers, as a relation. *)
Definition num_le (a b : num) : Prop := nle a b = true.


(** How far the momentum has carried the view: from the velocity [v0] and
    the offset [o0] to the velocity [vn] and the offset [on], with [D] the
    pixels per bar.  Towards the first bar ([v0 >= 0]) the view has moved by
    at most [(v0 - vn) / (0.03 * D)] bars, less when the clamp at 0 stopped
    it; away from it ([v0 <= 0]) by exactly [(vn - v0) / (0.03 * D)]. *)
Definition glide (v0 vn o0 on D : Q) : Prop :=
  (0 <= v0 -> (0 <= vn <= v0) /\ (0 <= (o0 - on) * (0.03 * D) <= v0 - vn))
  /\ (v0 <= 0 -> (v0 <= vn <= 0) /\ (on - o0) * (0.03 * D) == vn - v0).
(* ================================================================== *)
(** * Properties *)
(* ================================================================== *)

(** ** Numbers *)

Lemma Qle_bool_false (a b : Q) : Qle_bool a b = false <-> b < a.
Proof.
  split; intro H.
  - apply Qnot_le_lt. intro L. apply Qle_bool_iff in L. congruence.
  - destruct (Qle_bool a b) eqn:E; trivial.
    apply Qle_bool_iff in E. lra.
Qed.

Lemma Qeq_bool_false (a b : Q) : Qeq_bool a b = false <-> ~ a == b.
Proof.
  split; intro H.
  - now apply Qeq_bool_neq.
  - destruct (Qeq_bool a b) eqn:E; trivial.
    apply Qeq_bool_iff in E. contradiction.
Qed.

(** Replaces one boolean test on rationals by the two cases of its
    proposition. *)
Ltac qtest a b test yes no :=
  let E := fresh "E" in
  destruct (test a b) eqn:E;
  rewrite ?E in *;
  [apply yes in E | apply no in E].

Ltac qbool_step :=
  match goal with
  | |- context [Qle_bool ?a ?b] => qtest a b Qle_bool Qle_bool_iff Qle_bool_false
  | H : context [Qle_bool ?a ?b] |- _ => qtest a b Qle_bool Qle_bool_iff Qle_bool_false
  | |- context [Qeq_bool ?a ?b] => qtest a b Qeq_bool Qeq_bool_iff Qeq_bool_false
  | H : context [Qeq_bool ?a ?b] |- _ => qtest a b Qeq_bool Qeq_bool_iff Qeq_bool_false
  end.

(** Case analysis on every rational test in sight; the cases that are
    contradictory as they stand are closed. *)
Ltac qbool :=
  unfold inf_of_sign, Qlt_bool in *; cbn [negb andb orb] in *;
  repeat (qbool_step; cbn [negb andb orb] in *);
  try discriminate; try contradiction; try tauto.

Ltac num_ops :=
  unfold ngt, nge, nor, truthy, nlt, nle, nabs, nmax, nmin, nadd, nsub,
    nmul, ndiv, nneg, isFinite, neqv in *.

(** ** Rounding to binary64 *)

Lemma pow2_pos (e : Z) : 0 < pow2 e.
Proof. apply Qpower_0_lt. reflexivity. Qed.

Lemma pow2_le (a b : Z) : (a <= b)%Z -> pow2 a <= pow2 b.
Proof. intro H. apply Qpower_le_compat_l; [exact H | discriminate]. Qed.

Lemma pow2_lt (a b : Z) : (a < b)%Z -> pow2 a < pow2 b.
Proof. intro H. apply Qpower_lt_compat_l; [exact H | reflexivity]. Qed.

Lemma pow2_lt_inv (a b : Z) : pow2 a < pow2 b -> (a < b)%Z.
Proof. intro H. apply (Qpower_lt_compat_l_inv 2); [exact H | reflexivity]. Qed.

Lemma pow2_plus (a b : Z) : pow2 (a + b) == pow2 a * pow2 b.
Proof. apply Qpower_plus. discriminate. Qed.

Lemma pow2_nonneg (e : Z) : (0 <= e)%Z -> pow2 e == inject_Z (2 ^ e).
Proof. intro H. unfold pow2. now rewrite Zpower_Qpower. Qed.

(** The binade of a positive rational holds it. *)
Lemma binade_spec (x : Q) :
  0 < x -> pow2 (binade x) <= x < pow2 (binade x + 1).
Proof.
  intro Hx. destruct x as [n d]. unfold binade. cbn [Qnum Qden].
  assert (Hn : (0 < n)%Z) by (unfold Qlt in Hx; cbn in Hx; lia).
  destruct (Z.log2_spec n Hn) as [Hn1 Hn2].
  destruct (Z.log2_spec (Z.pos d) (Pos2Z.is_pos d)) as [Hd1 Hd2].
  set (a := Z.log2 n) in *. set (b := Z.log2 (Z.pos d)) in *.
  assert (Ha : (0 <= a)%Z) by apply Z.log2_nonneg.
  assert (Hb : (0 <= b)%Z) by apply Z.log2_nonneg.
  assert (Hx' : n # d == inject_Z n / inject_Z (Z.pos d))
    by (rewrite Qmake_Qdiv; reflexivity).
  assert (Hdq : 0 < inject_Z (Z.pos d)) by reflexivity.
  assert (Qa1 : pow2 a <= inject_Z n)
    by (rewrite pow2_nonneg by trivial; now rewrite <- Zle_Qle).
  assert (Qa2 : inject_Z n < pow2 (a + 1))
    by (rewrite pow2_nonneg by lia; rewrite <- Zlt_Qlt; now rewrite <- Z.add_1_r in Hn2).
  assert (Qb1 : pow2 b <= inject_Z (Z.pos d))
    by (rewrite pow2_nonneg by trivial; now rewrite <- Zle_Qle).
  assert (Qb2 : inject_Z (Z.pos d) < pow2 (b + 1))
    by (rewrite pow2_nonneg by lia; rewrite <- Zlt_Qlt; now rewrite <- Z.add_1_r in Hd2).
  pose proof (pow2_pos b) as Pb. pose proof (pow2_pos (a - b)) as Pab.
  assert (E1 : pow2 (a + 1) == pow2 (a - b + 1) * pow2 b)
    by (rewrite <- pow2_plus; now replace (a - b + 1 + b)%Z with (a + 1)%Z by lia).
  assert (E2 : pow2 a == pow2 (a - b - 1) * pow2 (b + 1))
    by (rewrite <- pow2_plus; now replace (a - b - 1 + (b + 1))%Z with a by lia).
  assert (Hup : n # d < pow2 (a - b + 1)).
  { rewrite Hx'. apply Qlt_shift_div_r; [exact Hdq |].
    pose proof (pow2_pos (a - b + 1)). nra. }
  assert (Hlo : pow2 (a - b - 1) < n # d).
  { rewrite Hx'. apply Qlt_shift_div_l; [exact Hdq |].
    pose proof (pow2_pos (a - b - 1)). nra. }
  destruct (Qle_bool (pow2 (a - b)) (n # d)) eqn:E.
  - apply Qle_bool_iff in E. split; trivial.
  - apply Qle_bool_false in E.
    replace (a - b - 1 + 1)%Z with (a - b)%Z by lia.
    split; lra.
Qed.

Lemma rne_bounds (m : Q) : (Qfloor m <= rne m <= Qfloor m + 1)%Z.
Proof.
  unfold rne.
  destruct (Qlt_bool _ _); [lia |].
  destruct (Qlt_bool _ _); [lia |].
  destruct (Z.even _); lia.
Qed.

Lemma rne_Z (z : Z) : rne (inject_Z z) = z.
Proof.
  unfold rne. rewrite Qfloor_Z.
  assert (H : inject_Z z - inject_Z z == 0) by ring.
  unfold Qlt_bool.
  destruct (Qle_bool (1 # 2) (inject_Z z - inject_Z z)) eqn:E; [| reflexivity].
  apply Qle_bool_iff in E. lra.
Qed.

Lemma rne_monotone (a b : Q) : a <= b -> (rne a <= rne b)%Z.
Proof.
  intro Hab.
  pose proof (Qfloor_resp_le a b Hab) as Hf.
  destruct (Z.eq_dec (Qfloor a) (Qfloor b)) as [E | N].
  - unfold rne. rewrite E.
    set (f := Qfloor b) in *.
    assert (Hr : a - inject_Z f <= b - inject_Z f) by lra.
    unfold Qlt_bool.
    destruct (Qle_bool (1 # 2) (a - inject_Z f)) eqn:A1;
      destruct (Qle_bool (1 # 2) (b - inject_Z f)) eqn:B1; cbn [negb];
      try (apply Qle_bool_iff in A1); try (apply Qle_bool_false in A1);
      try (apply Qle_bool_iff in B1); try (apply Qle_bool_false in B1);
      try lia; try lra.
    + destruct (Qle_bool (a - inject_Z f) (1 # 2)) eqn:A2;
        destruct (Qle_bool (b - inject_Z f) (1 # 2)) eqn:B2; cbn [negb];
        try (apply Qle_bool_iff in A2); try (apply Qle_bool_false in A2);
        try (apply Qle_bool_iff in B2); try (apply Qle_bool_false in B2);
        try lia; try lra; destruct (Z.even f); lia.
    + destruct (Qle_bool (b - inject_Z f) (1 # 2)); cbn [negb];
        [destruct (Z.even f) |]; lia.
  - pose proof (rne_bounds a). pose proof (rne_bounds b). lia.
Qed.

Lemma rne_le_Z (m : Q) (z : Z) : m <= inject_Z z -> (rne m <= z)%Z.
Proof. intro H. rewrite <- (rne_Z z). now apply rne_monotone. Qed.

Lemma rne_ge_Z (m : Q) (z : Z) : inject_Z z <= m -> (z <= rne m)%Z.
Proof. intro H. rewrite <- (rne_Z z). now apply rne_monotone. Qed.

Lemma quantum_pos (x : Q) : 0 < quantum x.
Proof. apply pow2_pos. Qed.

Lemma quantum_scale (x : Q) (j : Z) :
  pow2 (Z.max (binade x) (-1022) - 52 + j) == pow2 j * quantum x.
Proof. unfold quantum. rewrite <- pow2_plus. now rewrite Z.add_comm. Qed.

Lemma nearest_nonneg (x : Q) : 0 < x -> 0 <= nearest x.
Proof.
  intro Hx. pose proof (quantum_pos x) as Hq. unfold nearest.
  assert (H : (0 <= rne (x / quantum x))%Z).
  { apply rne_ge_Z. apply Qle_shift_div_l; [exact Hq |].
    change (inject_Z 0) with 0. lra. }
  rewrite Zle_Qle in H. change (inject_Z 0) with 0 in H. nra.
Qed.

Lemma nearest_upper (x : Q) :
  0 < x -> nearest x <= pow2 (Z.max (binade x) (-1022) + 1).
Proof.
  intro Hx. pose proof (quantum_pos x) as Hq.
  destruct (binade_spec x Hx) as [_ Hup].
  set (k := Z.max (binade x) (-1022)) in *.
  assert (Hk : pow2 (binade x + 1) <= pow2 (k + 1)) by (apply pow2_le; lia).
  assert (E : pow2 (k + 1) == inject_Z (2 ^ 53) * quantum x).
  { rewrite <- pow2_nonneg by lia. rewrite <- quantum_scale. fold k.
    now replace (k - 52 + 53)%Z with (k + 1)%Z by lia. }
  assert (H : (rne (x / quantum x) <= 2 ^ 53)%Z).
  { apply rne_le_Z. apply Qle_shift_div_r; [exact Hq | lra]. }
  rewrite Zle_Qle in H. unfold nearest. rewrite E.
  apply Qmult_le_compat_r; [exact H | lra].
Qed.

Lemma nearest_lower (x : Q) :
  0 < x -> (-1022 <= binade x)%Z -> pow2 (binade x) <= nearest x.
Proof.
  intros Hx He. pose proof (quantum_pos x) as Hq.
  destruct (binade_spec x Hx) as [Hlo _].
  assert (E : pow2 (binade x) == inject_Z (2 ^ 52) * quantum x).
  { rewrite <- pow2_nonneg by lia. rewrite <- quantum_scale.
    rewrite Z.max_l by lia.
    now replace (binade x - 52 + 52)%Z with (binade x) by lia. }
  assert (H : (2 ^ 52 <= rne (x / quantum x))%Z).
  { apply rne_ge_Z. apply Qle_shift_div_l; [exact Hq | lra]. }
  rewrite Zle_Qle in H. unfold nearest. rewrite E.
  apply Qmult_le_compat_r; [exact H | lra].
Qed.

Lemma binade_monotone (x y : Q) :
  0 < x -> x <= y -> (binade x <= binade y)%Z.
Proof.
  intros Hx Hxy.
  destruct (binade_spec x Hx) as [Hlo _].
  destruct (binade_spec y) as [_ Hup]; [lra |].
  assert (H : pow2 (binade x) < pow2 (binade y + 1)) by lra.
  apply pow2_lt_inv in H. lia.
Qed.

(** Rounding keeps the order of positive rationals. *)
Lemma nearest_monotone (x y : Q) :
  0 < x -> x <= y -> nearest x <= nearest y.
Proof.
  intros Hx Hxy. assert (Hy : 0 < y) by lra.
  pose proof (binade_monotone x y Hx Hxy) as He.
  destruct (Z.eq_dec (Z.max (binade x) (-1022)) (Z.max (binade y) (-1022)))
    as [E | N].
  - assert (Eq : quantum y = quantum x) by (unfold quantum; now rewrite E).
    unfold nearest. rewrite Eq.
    pose proof (quantum_pos x) as Hq.
    assert (H : (rne (x / quantum x) <= rne (y / quantum x))%Z).
    { apply rne_monotone. apply Qmult_le_compat_r; [exact Hxy |].
      apply Qlt_le_weak. now apply Qinv_lt_0_compat. }
    rewrite Zle_Qle in H. apply Qmult_le_compat_r; [exact H | lra].
  - pose proof (nearest_upper x Hx) as Hu.
    assert (Hey : (-1022 <= binade y)%Z) by lia.
    pose proof (nearest_lower y Hy Hey) as Hl.
    assert (Hk : pow2 (Z.max (binade x) (-1022) + 1) <= pow2 (binade y))
      by (apply pow2_le; lia).
    lra.
Qed.

Lemma round_pos_cases (x : Q) :
  (round_pos x = PInf /\ pow2 1024 <= nearest x)
  \/ (round_pos x = Fin (nearest x) /\ nearest x < pow2 1024).
Proof.
  unfold round_pos. destruct (Qle_bool (pow2 1024) (nearest x)) eqn:E.
  - left. split; [reflexivity | now apply Qle_bool_iff].
  - right. split; [reflexivity | now apply Qle_bool_false].
Qed.

Lemma round_pos_monotone (x y : Q) :
  0 < x -> x <= y -> nle (round_pos x) (round_pos y) = true.
Proof.
  intros Hx Hxy. pose proof (nearest_monotone x y Hx Hxy) as H.
  destruct (round_pos_cases x) as [[-> Hx'] | [-> Hx']];
    destruct (round_pos_cases y) as [[-> Hy'] | [-> Hy']]; cbn; trivial.
  - lra.
  - now apply Qle_bool_iff.
Qed.

Lemma round_pos_nonneg (x : Q) : 0 < x -> nle (Fin 0) (round_pos x) = true.
Proof.
  intro Hx. pose proof (nearest_nonneg x Hx) as H.
  destruct (round_pos_cases x) as [[-> _] | [-> _]]; cbn; trivial.
  now apply Qle_bool_iff.
Qed.

Lemma nle_nneg (a b : num) : nle a b = true -> nle (nneg b) (nneg a) = true.
Proof.
  destruct a as [| | |x], b as [| | |y]; cbn; trivial.
  intro H. apply Qle_bool_iff in H. apply Qle_bool_iff. lra.
Qed.

Lemma nle_trans (a b c : num) :
  nle a b = true -> nle b c = true -> nle a c = true.
Proof.
  destruct a as [| | |x], b as [| | |y], c as [| | |z]; cbn; trivial;
    try discriminate.
  intros H1 H2. apply Qle_bool_iff in H1, H2. apply Qle_bool_iff. lra.
Qed.

Lemma round64_cases (x : Q) :
  (x == 0 /\ round64 x = Fin 0)
  \/ (0 < x /\ round64 x = round_pos x)
  \/ (x < 0 /\ round64 x = nneg (round_pos (- x))).
Proof.
  unfold round64, Qlt_bool.
  destruct (Qeq_bool x 0) eqn:E0.
  - left. split; [now apply Qeq_bool_iff | reflexivity].
  - apply Qeq_bool_false in E0.
    destruct (Qle_bool x 0) eqn:E1; cbn [negb].
    + apply Qle_bool_iff in E1. right. right. split; [lra | reflexivity].
    + apply Qle_bool_false in E1. right. left. split; [lra | reflexivity].
Qed.

(** Rounding keeps the order: [x <= y] gives [round64 x <= round64 y]. *)
Lemma round64_monotone (x y : Q) :
  x <= y -> nle (round64 x) (round64 y) = true.
Proof.
  intro Hxy.
  destruct (round64_cases x) as [[Hx ->] | [[Hx ->] | [Hx ->]]];
    destruct (round64_cases y) as [[Hy ->] | [[Hy ->] | [Hy ->]]];
    try lra.
  - reflexivity.
  - now apply round_pos_nonneg.
  - now apply round_pos_monotone.
  - apply (nle_nneg (Fin 0)). apply round_pos_nonneg. lra.
  - apply (nle_trans _ (Fin 0)).
    + apply (nle_nneg (Fin 0)). apply round_pos_nonneg. lra.
    + now apply round_pos_nonneg.
  - apply nle_nneg. apply round_pos_monotone; lra.
Qed.

Lemma round64_not_nan (x : Q) : is_nan (round64 x) = false.
Proof.
  destruct (round64_cases x) as [[_ ->] | [[_ ->] | [_ ->]]]; trivial.
  - now destruct (round_pos_cases x) as [[-> _] | [-> _]].
  - now destruct (round_pos_cases (- x)) as [[-> _] | [-> _]].
Qed.

Lemma rounded_monotone (a b : num) :
  nle a b = true -> nle (rounded a) (rounded b) = true.
Proof.
  destruct a as [| | |x], b as [| | |y]; cbn [rounded]; trivial;
    try discriminate.
  - intros _. pose proof (round64_not_nan y). now destruct (round64 y).
  - intros _. pose proof (round64_not_nan x). now destruct (round64 x).
  - cbn. intro H. apply Qle_bool_iff in H. now apply round64_monotone.
Qed.
(** ** Viewport: the width clamp *)

Lemma zoomAt_barWidth (v : Viewport) (p f : num) :
  barWidth (zoomAt v p f) =
  if zoom_noop v f then barWidth v else zoom_newBarWidth v f.
Proof. unfold zoomAt, zoom_noop. now destruct (nlt _ _). Qed.

Lemma zoomAt_offsetIndex (v : Viewport) (p f : num) :
  offsetIndex (zoomAt v p f) =
  if zoom_noop v f then offsetIndex v else nmax (Fin 0) (zoom_newOffset v p f).
Proof. unfold zoomAt, zoom_noop. now destruct (nlt _ _). Qed.

Lemma zoomAt_spacing (v : Viewport) (p f : num) :
  spacing (zoomAt v p f) = spacing v.
Proof. unfold zoomAt. now destruct (nlt _ _). Qed.

Lemma zoomAt_maxBarWidth (v : Viewport) (p f : num) :
  maxBarWidth (zoomAt v p f) = maxBarWidth v.
Proof. unfold zoomAt. now destruct (nlt _ _). Qed.

Lemma zoomAt_visibleCount (v : Viewport) (p f : num) :
  visibleCount (zoomAt v p f) = visibleCount v.
Proof. unfold zoomAt. now destruct (nlt _ _). Qed.

(** The clamped width is finite and in range for every factor but [NaN]. *)
Lemma zoom_newBarWidth_range (v : Viewport) (f : num) (w m : Q) :
  barWidth v = Fin w -> maxBarWidth v = Fin m -> 1 <= m -> ~ w == 0 ->
  is_nan f = false ->
  exists w', zoom_newBarWidth v f = Fin w' /\ 1 <= w' <= m.
Proof.
  unfold zoom_newBarWidth. intros -> -> Hm Hw Hf.
  destruct f as [| | |f]; try discriminate; num_ops; qbool;
    try (exfalso; lra); eexists; (split; [reflexivity | lra]).
Qed.

Lemma zoomAt_width_in_range (v : Viewport) (p f : num) :
  width_in_range v = true -> is_nan f = false ->
  width_in_range (zoomAt v p f) = true.
Proof.
  unfold width_in_range at 2.
  rewrite zoomAt_barWidth, zoomAt_maxBarWidth.
  intros Hr Hf. destruct (zoom_noop v f); [exact Hr |].
  unfold width_in_range in Hr.
  destruct (barWidth v) as [| | |w] eqn:Hw; try discriminate.
  destruct (maxBarWidth v) as [| | |m] eqn:Hm; try discriminate.
  qbool.
  destruct (zoom_newBarWidth_range v f w m Hw Hm) as (w' & -> & H1 & H2);
    trivial; try lra.
  qbool; lra.
Qed.
(** C9, as the code has it.  From a state with [barWidth] in
    [[1, maxBarWidth]], after every call of any run of [zoomAt] calls with
    arbitrary pivots and arbitrary factors other than [NaN] (finite of any
    size, or infinite), [barWidth] is in [[1, maxBarWidth]]. *)
Theorem zoomAt_keeps_barWidth_in_range (v : Viewport)
    (calls : list (num * num)) (n : nat) :
  width_in_range v = true ->
  forallb (fun pf => negb (is_nan (snd pf))) calls = true ->
  width_in_range (zoom_all (firstn n calls) v) = true.
Proof.
  revert v n. induction calls as [|[p f] calls IH]; intros v n Hv Hc.
  - now rewrite firstn_nil.
  - destruct n as [|n]; [exact Hv |].
    cbn in Hc. apply andb_true_iff in Hc as [Hf Hc].
    cbn. apply IH; trivial.
    apply zoomAt_width_in_range; trivial.
    now destruct (is_nan f).
Qed.

Lemma zoomAt_keeps_barWidth_in_range_witness :
  width_in_range
    (zoom_all (firstn 3 [(Fin 100, Fin 1000000); (NaN, NInf); (Fin 3, PInf)])
              (new_Viewport (Fin 200))) = true.
Proof. apply zoomAt_keeps_barWidth_in_range; reflexivity. Defined.

(** C9 as stated fails: one [zoomAt] with the factor [NaN] leaves
    [barWidth = NaN]. *)
Lemma zoomAt_barWidth_range_fails :
  width_in_range (new_Viewport (Fin 200)) = true
  /\ barWidth (zoom_all [(Fin 0, NaN)] (new_Viewport (Fin 200))) = NaN
  /\ width_in_range (zoom_all [(Fin 0, NaN)] (new_Viewport (Fin 200))) = false.
Proof. repeat split. Qed.

(** ** Viewport: pan *)

Lemma panBy_offsetIndex (v : Viewport) (d : num) :
  offsetIndex (panBy v d) = nmax (Fin 0) (pan_target v d).
Proof. reflexivity. Qed.

Lemma panBy_round_trip (v : Viewport) (d : num) :
  nle (Fin 0) (pan_target v d) = true ->
  nle (Fin 0) (pan_target (panBy v d) (nneg d)) = true ->
  neqv (offsetIndex (panBy (panBy v d) (nneg d))) (offsetIndex v).
Proof.
  rewrite !panBy_offsetIndex. unfold pan_target.
  cbn [barWidth spacing panBy offsetIndex].
  destruct v as [o w s m vc]; cbn [barWidth spacing offsetIndex].
  destruct (nadd w s) as [| | |t]; destruct d as [| | |d]; destruct o as [| | |o];
    cbn; try discriminate; trivial.
  all: qbool.
  all: cbn; try discriminate; trivial.
  all: qbool. all: cbn in *; qbool.
  all: intros _ _; first [unfold Qdiv; ring | exfalso; lra].
Qed.

Lemma nmax_0_not_negative (x : num) : nlt (nmax (Fin 0) x) (Fin 0) = false.
Proof. destruct x; cbn; trivial; qbool; cbn; qbool; lra. Qed.

Lemma pan_all_not_negative (ds : list num) (v : Viewport) :
  nlt (offsetIndex v) (Fin 0) = false ->
  nlt (offsetIndex (pan_all ds v)) (Fin 0) = false.
Proof.
  revert v. induction ds as [|d ds IH]; intros v Hv; [exact Hv |].
  cbn. apply IH. rewrite panBy_offsetIndex. apply nmax_0_not_negative.
Qed.

(** C10.  [panBy(d)] then [panBy(-d)] gives back the offset whenever neither
    call clamps (the value computed before [Math.max(0, _)] is [>= 0] in
    both), for every viewport state and every delta; and after any run of
    [panBy] calls, whatever the deltas, the offset is not negative. *)
Theorem panBy_round_trip_and_not_negative (v : Viewport) :
  (forall d : num,
      nle (Fin 0) (pan_target v d) = true ->
      nle (Fin 0) (pan_target (panBy v d) (nneg d)) = true ->
      neqv (offsetIndex (panBy (panBy v d) (nneg d))) (offsetIndex v))
  /\ (forall ds : list num,
         nlt (offsetIndex v) (Fin 0) = false ->
         nlt (offsetIndex (pan_all ds v)) (Fin 0) = false)
  /\ (forall (d : num) (ds : list num),
         nlt (offsetIndex (pan_all (d :: ds) v)) (Fin 0) = false).
Proof.
  split; [| split].
  - intro d. apply panBy_round_trip.
  - intro ds. apply pan_all_not_negative.
  - intros d ds. cbn. apply pan_all_not_negative.
    rewrite panBy_offsetIndex. apply nmax_0_not_negative.
Qed.

Lemma panBy_round_trip_and_not_negative_witness :
  neqv (offsetIndex (panBy (panBy (new_Viewport (Fin 200)) (Fin (-70))) (nneg (Fin (-70)))))
       (offsetIndex (new_Viewport (Fin 200)))
  /\ nlt (offsetIndex (pan_all [Fin 35; Fin (-14); NaN; PInf]
                               (new_Viewport (Fin 200)))) (Fin 0) = false.
Proof.
  destruct (panBy_round_trip_and_not_negative (new_Viewport (Fin 200)))
    as (Hrt & Hnn & _).
  split.
  - apply Hrt; reflexivity.
  - apply Hnn. reflexivity.
Defined.

(** ** Viewport: zoom *)

Lemma neqv_refl (a : num) : neqv a a.
Proof. destruct a; cbn; trivial. reflexivity. Qed.

Lemma viewport_ok_inv (v : Viewport) :
  viewport_ok v = true ->
  exists o w s m,
    offsetIndex v = Fin o /\ barWidth v = Fin w /\ spacing v = Fin s /\
    maxBarWidth v = Fin m /\ 0 <= o /\ 1 <= w /\ w <= m /\ 0 <= s.
Proof.
  unfold viewport_ok.
  destruct (offsetIndex v) as [| | |o]; try discriminate.
  destruct (barWidth v) as [| | |w]; try discriminate.
  destruct (spacing v) as [| | |s]; try discriminate.
  destruct (maxBarWidth v) as [| | |m]; try discriminate.
  intro H. exists o, w, s, m. qbool; repeat split; trivial.
Qed.

(** The amended pivot invariance, on one call. *)
Lemma zoomAt_pivot (v : Viewport) (p f : num) :
  viewport_ok v = true ->
  zoom_noop v f = true \/ nle (Fin 0) (zoom_newOffset v p f) = true ->
  pivot_invariant v p f.
Proof.
  intros Hok H. unfold pivot_invariant.
  unfold index_at at 1.
  rewrite zoomAt_offsetIndex, zoomAt_barWidth, zoomAt_spacing.
  destruct (zoom_noop v f) eqn:Hn; [apply neqv_refl |].
  destruct H as [H | H]; [discriminate |].
  revert H. unfold zoom_newOffset, index_at.
  destruct (viewport_ok_inv v Hok) as (o & w & s & m & Ho & Hw & Hs & Hm & I).
  destruct (is_nan f) eqn:Hf.
  - destruct f; try discriminate.
    unfold zoom_newBarWidth. rewrite Hw, Hm, Ho, Hs.
    destruct p; cbn; qbool.
  - destruct (zoom_newBarWidth_range v f w m Hw Hm) as (w' & -> & H1 & H2);
      trivial; try lra.
    rewrite Ho, Hw, Hs.
    destruct p as [| | |p]; cbn; qbool; cbn; qbool; try lra.
    all: cbn; intros _; unfold Qdiv; ring.
Qed.

(** When the clamp engages, the offset is 0 and the logical index under
    the pivot is larger than it was. *)
Lemma zoomAt_clamped (v : Viewport) (p f : num) :
  viewport_ok v = true ->
  zoom_noop v f = false -> nlt (zoom_newOffset v p f) (Fin 0) = true ->
  offsetIndex (zoomAt v p f) = Fin 0
  /\ nlt (index_at v p) (index_at (zoomAt v p f) p) = true.
Proof.
  intros Hok Hn. unfold index_at at 2.
  rewrite zoomAt_offsetIndex, zoomAt_barWidth, zoomAt_spacing, Hn.
  unfold zoom_newOffset, index_at.
  destruct (viewport_ok_inv v Hok) as (o & w & s & m & Ho & Hw & Hs & Hm & I).
  destruct (is_nan f) eqn:Hf.
  - destruct f; try discriminate.
    unfold zoom_newBarWidth. rewrite Hw, Hm, Ho, Hs.
    destruct p; cbn; qbool.
  - destruct (zoom_newBarWidth_range v f w m Hw Hm) as (w' & -> & H1 & H2);
      trivial; try lra.
    rewrite Ho, Hw, Hs.
    destruct p as [| | |p]; cbn; qbool; cbn; qbool; try lra.
    all: intros _; split; [reflexivity |]; cbn; qbool; lra.
Qed.

(** C1, as the code has it.  For a viewport within its invariant, every
    pivot [p] and every factor [f]: when [zoomAt] returns early (width
    change below 0.01) or the offset it recomputes is not clamped at 0, the
    logical index under [p] is the same before and after; when the clamp
    engages (the recomputed offset is below 0), the offset becomes 0 and
    the logical index under [p] moves: it is larger than before. *)
Theorem zoomAt_pivot_invariance (v : Viewport) (p f : num) :
  viewport_ok v = true ->
  (zoom_noop v f = true \/ nle (Fin 0) (zoom_newOffset v p f) = true ->
   pivot_invariant v p f)
  /\ (zoom_noop v f = false -> nlt (zoom_newOffset v p f) (Fin 0) = true ->
      offsetIndex (zoomAt v p f) = Fin 0
      /\ nlt (index_at v p) (index_at (zoomAt v p f) p) = true).
Proof.
  intro Hok. split.
  - now apply zoomAt_pivot.
  - now apply zoomAt_clamped.
Qed.

Lemma zoomAt_pivot_invariance_witness :
  pivot_invariant (set_offsetIndex (new_Viewport (Fin 200)) (Fin 40))
                  (Fin 100) (Fin 0.98)
  /\ offsetIndex (zoomAt (new_Viewport (Fin 200)) (Fin 100) (Fin 0.98)) = Fin 0
  /\ nlt (index_at (new_Viewport (Fin 200)) (Fin 100))
         (index_at (zoomAt (new_Viewport (Fin 200)) (Fin 100) (Fin 0.98))
                   (Fin 100)) = true.
Proof.
  split.
  - apply (zoomAt_pivot_invariance
             (set_offsetIndex (new_Viewport (Fin 200)) (Fin 40))
             (Fin 100) (Fin 0.98) eq_refl).
    right. reflexivity.
  - apply (zoomAt_pivot_invariance (new_Viewport (Fin 200)) (Fin 100) (Fin 0.98)
             eq_refl); reflexivity.
Defined.

(** C1 as stated fails: on the initial viewport (offset 0), a wheel step
    out ([f = 0.98]) at pixel 100 clamps the offset at 0 and moves the
    index under the pivot from 100/7 to 100/6.88. *)
Lemma zoomAt_pivot_invariance_fails :
  ~ pivot_invariant (new_Viewport (Fin 200)) (Fin 100) (Fin 0.98)
  /\ neqv (index_at (new_Viewport (Fin 200)) (Fin 100)) (Fin (100 / 7))
  /\ neqv (index_at (zoomAt (new_Viewport (Fin 200)) (Fin 100) (Fin 0.98))
                    (Fin 100))
          (Fin (100 / 6.88)).
Proof. split; [cbv; discriminate | split; reflexivity]. Qed.

(** ** Viewport: finite and non-finite inputs *)

Lemma panBy_ok (v : Viewport) (d : num) :
  viewport_ok v = true -> isFinite d = true -> viewport_ok (panBy v d) = true.
Proof.
  intros Hok Hd.
  destruct (viewport_ok_inv v Hok) as (o & w & s & m & Ho & Hw & Hs & Hm & I).
  destruct d as [| | |d]; try discriminate.
  unfold viewport_ok, panBy. cbn [offsetIndex barWidth spacing maxBarWidth].
  rewrite Ho, Hw, Hs, Hm. cbn. qbool; cbn; qbool; lra.
Qed.

Lemma zoomAt_ok (v : Viewport) (p f : num) :
  viewport_ok v = true -> isFinite p = true -> is_nan f = false ->
  viewport_ok (zoomAt v p f) = true.
Proof.
  intros Hok Hp Hf.
  destruct (viewport_ok_inv v Hok) as (o & w & s & m & Ho & Hw & Hs & Hm & I).
  destruct p as [| | |p]; try discriminate.
  unfold viewport_ok.
  rewrite zoomAt_offsetIndex, zoomAt_barWidth, zoomAt_spacing, zoomAt_maxBarWidth.
  destruct (zoom_noop v f); [exact Hok |].
  unfold zoom_newOffset, index_at.
  destruct (zoom_newBarWidth_range v f w m Hw Hm) as (w' & -> & H1 & H2);
    trivial; try lra.
  rewrite Ho, Hw, Hs, Hm. cbn. qbool; cbn; qbool; lra.
Qed.

(** C3, as the code has it.  The operators are total (nothing throws) and
    on finite inputs they keep a viewport within its invariant, so offset
    and width stay finite; an infinite zoom factor is clamped like any
    other.  They do not test their inputs: [panBy(NaN)] stores [NaN] in
    [offsetIndex], [panBy(+Infinity)] clamps it to 0, [panBy(-Infinity)]
    stores [+Infinity]; [zoomAt] with the factor [NaN] stores [NaN] in both
    fields, and with a non-finite pivot it stores [NaN] in [offsetIndex]
    unless it returns early. *)
Theorem viewport_non_finite_inputs (v : Viewport) :
  viewport_ok v = true ->
  (forall d, isFinite d = true -> viewport_ok (panBy v d) = true)
  /\ (forall p f, isFinite p = true -> is_nan f = false ->
                  viewport_ok (zoomAt v p f) = true)
  /\ offsetIndex (panBy v NaN) = NaN
  /\ offsetIndex (panBy v PInf) = Fin 0
  /\ offsetIndex (panBy v NInf) = PInf
  /\ (forall p, barWidth (zoomAt v p NaN) = NaN
                /\ offsetIndex (zoomAt v p NaN) = NaN)
  /\ (forall p f, isFinite p = false -> zoom_noop v f = false ->
                  offsetIndex (zoomAt v p f) = NaN).
Proof.
  intro Hok.
  destruct (viewport_ok_inv v Hok) as (o & w & s & m & Ho & Hw & Hs & Hm & I).
  split; [intros; now apply panBy_ok |].
  split; [intros; now apply zoomAt_ok |].
  assert (Hnan : forall p, zoom_newBarWidth v NaN = NaN
                           /\ zoom_noop v NaN = false
                           /\ zoom_newOffset v p NaN = NaN).
  { intro p. unfold zoom_noop, zoom_newOffset, index_at, zoom_newBarWidth.
    rewrite Ho, Hw, Hs, Hm. destruct p; repeat split; cbn; qbool. }
  repeat split.
  - rewrite panBy_offsetIndex. unfold pan_target. now rewrite Ho, Hw, Hs.
  - rewrite panBy_offsetIndex. unfold pan_target. rewrite Ho, Hw, Hs.
    cbn. qbool; cbn; qbool; lra.
  - rewrite panBy_offsetIndex. unfold pan_target. rewrite Ho, Hw, Hs.
    cbn. qbool; cbn; qbool; lra.
  - rewrite zoomAt_barWidth. destruct (Hnan p) as (-> & -> & _). reflexivity.
  - rewrite zoomAt_offsetIndex. destruct (Hnan p) as (_ & -> & ->). reflexivity.
  - intros p f Hp Hn. rewrite zoomAt_offsetIndex, Hn.
    unfold zoom_newOffset, index_at.
    destruct (is_nan f) eqn:Hf.
    + destruct f; try discriminate.
      unfold zoom_newBarWidth. rewrite Ho, Hw, Hs, Hm.
      destruct p; try discriminate; cbn; qbool.
    + destruct (zoom_newBarWidth_range v f w m Hw Hm) as (w' & -> & H1 & H2);
        trivial; try lra.
      rewrite Ho, Hw, Hs.
      destruct p; try discriminate; cbn; qbool; lra.
Qed.

Lemma viewport_non_finite_inputs_witness :
  viewport_ok (panBy (new_Viewport (Fin 200)) (Fin 21)) = true
  /\ offsetIndex (panBy (new_Viewport (Fin 200)) NaN) = NaN.
Proof.
  destruct (viewport_non_finite_inputs (new_Viewport (Fin 200)) eq_refl)
    as (Hpan & _ & Hnan & _).
  split; [apply Hpan; reflexivity | exact Hnan].
Defined.

(** C3 as stated fails: [panBy(NaN)] is not ignored, the offset becomes
    [NaN]; so does [barWidth] after [zoomAt(0, NaN)]. *)
Lemma non_finite_input_not_rejected :
  ~ unchanged (new_Viewport (Fin 200)) (panBy (new_Viewport (Fin 200)) NaN)
  /\ isFinite (offsetIndex (panBy (new_Viewport (Fin 200)) NaN)) = false
  /\ isFinite (barWidth (zoomAt (new_Viewport (Fin 200)) (Fin 0) NaN)) = false.
Proof.
  repeat split. intros [H _]. discriminate H.
Qed.

(** ** Momentum *)

Lemma friction_pow_S (n : nat) :
  0.97 ^ Z.of_nat (S n) == 0.97 ^ Z.of_nat n * 0.97.
Proof.
  rewrite Nat2Z.inj_succ. unfold Z.succ.
  rewrite Qpower_plus by (intro H; discriminate H).
  reflexivity.
Qed.

Lemma decayed_S (v0 : Q) (n : nat) : decayed v0 (S n) == decayed v0 n * 0.97.
Proof. unfold decayed. rewrite friction_pow_S. ring. Qed.

Lemma friction_pow_pos (n : nat) : 0 < 0.97 ^ Z.of_nat n.
Proof. apply Qpower_0_lt. reflexivity. Qed.

Lemma friction_pow_le_1 (n : nat) : 0.97 ^ Z.of_nat n <= 1.
Proof.
  induction n as [|n IH]; [discriminate |].
  rewrite friction_pow_S. pose proof (friction_pow_pos n). nra.
Qed.

(** [0.97^n <= 1 / (1 + 0.03 n)]: the decay beats every bound. *)
Lemma friction_pow_bound (n : nat) :
  0.97 ^ Z.of_nat n * (1 + 0.03 * inject_Z (Z.of_nat n)) <= 1.
Proof.
  induction n as [|n IH]; [discriminate |].
  rewrite friction_pow_S, Nat2Z.inj_succ. unfold Z.succ.
  rewrite inject_Z_plus.
  pose proof (friction_pow_pos n). pose proof (friction_pow_le_1 n).
  change (inject_Z 1) with 1.
  nra.
Qed.

Lemma moving_true (v : Q) : moving (Fin v) = true <-> v < -0.1 \/ 0.1 < v.
Proof. unfold moving. num_ops. qbool; cbn; split; intro; qbool; lra. Qed.

Lemma moving_false (v : Q) : moving (Fin v) = false <-> -0.1 <= v <= 0.1.
Proof. unfold moving. num_ops. qbool; cbn; split; intro; qbool; lra. Qed.

(** Some power of the friction brings any finite velocity to rest. *)
Lemma decay_reaches_rest (v0 : Q) : exists M : nat, moving (Fin (decayed v0 M)) = false.
Proof.
  set (a := if Qle_bool 0 v0 then v0 else - v0).
  assert (Ha : 0 <= a /\ - a <= v0 <= a) by (subst a; qbool; lra).
  exists (Z.to_nat (Qceiling (1000 * a))).
  apply moving_false. unfold decayed.
  set (M := Z.to_nat (Qceiling (1000 * a))).
  assert (HM : 1000 * a <= inject_Z (Z.of_nat M)).
  { subst M. rewrite Z2Nat.id.
    - apply Qle_ceiling.
    - change 0%Z with (Qceiling 0). apply Qceiling_resp_le. lra. }
  pose proof (friction_pow_bound M) as Hb.
  pose proof (friction_pow_pos M) as Hp.
  split; nra.
Qed.

(** The least index at which a test fails, below one where it does. *)
Lemma first_false (P : nat -> bool) (M : nat) :
  P M = false ->
  exists N : nat, (forall n, (n < N)%nat -> P n = true) /\ P N = false.
Proof.
  intro HM.
  assert (H : forall k,
             (forall n, (n < k)%nat -> P n = true)
             \/ exists N, (forall n, (n < N)%nat -> P n = true) /\ P N = false).
  { induction k as [|k [Hall | Hex]].
    - left. lia.
    - destruct (P k) eqn:Ek.
      + left. intros n Hn.
        destruct (Nat.eq_dec n k) as [-> |]; [exact Ek | apply Hall; lia].
      + right. now exists k.
    - now right. }
  destruct (H (S M)) as [Hall | Hex]; trivial.
  rewrite Hall in HM by lia. discriminate.
Qed.

(** The first run at which the velocity is at rest. *)
Lemma first_rest (v0 : Q) :
  exists N : nat,
    (forall n, (n < N)%nat -> moving (Fin (decayed v0 n)) = true)
    /\ moving (Fin (decayed v0 N)) = false.
Proof.
  destruct (decay_reaches_rest v0) as [M HM].
  exact (first_false (fun n => moving (Fin (decayed v0 n))) M HM).
Qed.

Lemma moving_eqv (a b : Q) : a == b -> moving (Fin a) = moving (Fin b).
Proof.
  intro H. destruct (moving (Fin b)) eqn:E.
  - apply moving_true. apply moving_true in E. lra.
  - apply moving_false. apply moving_false in E. lra.
Qed.

(** A run while the velocity is above the threshold: pan, decay, request
    the next run. *)
Lemma updateMomentum_moving (now : num) (c : Chart) :
  isPanning c = true -> moving (panVelocity c) = true ->
  exists c',
    updateMomentum now c = (c', true)
    /\ isPanning c' = true
    /\ panVelocity c' = nmul (panVelocity c) (Fin 0.97)
    /\ viewport c' = panBy (viewport c) (panVelocity c)
    /\ bars c' = bars c.
Proof.
  intros Hp Hm. unfold updateMomentum. rewrite Hp. cbn [negb].
  unfold moving in Hm. cbn [panVelocity set_lastPanTime]. rewrite Hm.
  eexists. split; [reflexivity |].
  unfold scheduleRender. cbn. destruct (animHandle c); cbn; auto.
Qed.

(** A run at or below the threshold: nothing but the time stamp changes and
    no further run is requested. *)
Lemma updateMomentum_rest (now : num) (c : Chart) :
  isPanning c = true -> moving (panVelocity c) = false ->
  updateMomentum now c = (set_lastPanTime c now, false).
Proof.
  intros Hp Hm. unfold updateMomentum. rewrite Hp. cbn [negb].
  unfold moving in Hm. cbn [panVelocity set_lastPanTime]. now rewrite Hm.
Qed.

Section Momentum.
Variable clock : nat -> num.
Variable c : Chart.
Variable v0 : Q.
Hypothesis Hpanning : isPanning c = true.
Hypothesis Hvelocity : panVelocity c = Fin v0.
Variable N : nat.
Hypothesis Hmoving : forall n, (n < N)%nat -> moving (Fin (decayed v0 n)) = true.
Hypothesis Hrest : moving (Fin (decayed v0 N)) = false.

Lemma after_runs_state (n : nat) :
  (n <= N)%nat ->
  isPanning (after_runs clock n c) = true
  /\ exists v, panVelocity (after_runs clock n c) = Fin v /\ v == decayed v0 n.
Proof.
  induction n as [|n IH]; intro Hn.
  - split; trivial. exists v0. split; trivial.
    unfold decayed. cbn. ring.
  - destruct IH as (Hp & v & Hv & Hd); [lia |].
    cbn [after_runs].
    destruct (updateMomentum_moving (clock n) (after_runs clock n c) Hp)
      as (c' & -> & Hp' & Hv' & _).
    { rewrite Hv, (moving_eqv _ _ Hd). apply Hmoving. lia. }
    cbn [fst]. split; trivial.
    rewrite Hv', Hv. cbn. eexists. split; [reflexivity |].
    rewrite decayed_S, Hd. reflexivity.
Qed.

Lemma after_runs_moving (n : nat) :
  (n < N)%nat -> moving (panVelocity (after_runs clock n c)) = true.
Proof.
  intro Hn. destruct (after_runs_state n) as (_ & v & -> & Hd); [lia |].
  rewrite (moving_eqv _ _ Hd). now apply Hmoving.
Qed.

Lemma after_runs_rest : moving (panVelocity (after_runs clock N c)) = false.
Proof.
  destruct (after_runs_state N) as (_ & v & -> & Hd); [lia |].
  now rewrite (moving_eqv _ _ Hd).
Qed.

Lemma after_runs_step (n : nat) :
  (n < N)%nat ->
  updateMomentum (clock n) (after_runs clock n c)
  = (after_runs clock (S n) c, true).
Proof.
  intro Hn. destruct (after_runs_state n) as (Hp & _); [lia |].
  cbn [after_runs].
  destruct (updateMomentum_moving (clock n) (after_runs clock n c) Hp)
    as (c' & -> & _).
  - now apply after_runs_moving.
  - reflexivity.
Qed.

Lemma momentum_from (fuel j : nat) :
  (j <= N)%nat -> (N - j < fuel)%nat ->
  momentum clock fuel j (after_runs clock j c)
  = (set_lastPanTime (after_runs clock N c) (clock N), N).
Proof.
  revert j. induction fuel as [|fuel IH]; intros j Hj Hf; [lia |].
  cbn [momentum].
  destruct (Nat.eq_dec j N) as [-> | Hne].
  - destruct (after_runs_state N) as (Hp & _); [lia |].
    now rewrite (updateMomentum_rest _ _ Hp after_runs_rest).
  - rewrite after_runs_step by lia. apply IH; lia.
Qed.
End Momentum.

(** C7.  From a release with the finite velocity [v0], some number [N] of
    momentum runs pan: before run [n < N] the velocity is [v0 * 0.97^n],
    above the threshold in absolute value, the run applies [panBy] with it
    and requests the next run; at run [N] the velocity [v0 * 0.97^N] is at
    or below 0.1 in absolute value, the run changes neither viewport nor
    velocity and requests nothing, so the chain of callbacks ends there. *)
Theorem momentum_decay (clock : nat -> num) (c : Chart) (v0 : Q) :
  isPanning c = true -> panVelocity c = Fin v0 ->
  exists N : nat,
    (forall n, (n < N)%nat ->
       let cn := after_runs clock n c in
       neqv (panVelocity cn) (Fin (decayed v0 n))
       /\ moving (panVelocity cn) = true
       /\ snd (updateMomentum (clock n) cn) = true
       /\ viewport (after_runs clock (S n) c)
          = panBy (viewport cn) (panVelocity cn))
    /\ (let cN := after_runs clock N c in
        neqv (panVelocity cN) (Fin (decayed v0 N))
        /\ moving (panVelocity cN) = false
        /\ updateMomentum (clock N) cN = (set_lastPanTime cN (clock N), false))
    /\ (forall fuel, (N < fuel)%nat ->
          momentum clock fuel 0 c
          = (set_lastPanTime (after_runs clock N c) (clock N), N)).
Proof.
  intros Hp Hv. destruct (first_rest v0) as (N & Hm & Hr).
  exists N. split; [| split].
  - intros n Hn cn. subst cn.
    destruct (after_runs_state clock c v0 Hp Hv N Hm n) as (Hpn & v & Hvn & Hd);
      [lia |].
    pose proof (after_runs_moving clock c v0 Hp Hv N Hm n Hn) as Hmv.
    repeat split.
    + rewrite Hvn. exact Hd.
    + exact Hmv.
    + now rewrite (after_runs_step clock c v0 Hp Hv N Hm n Hn).
    + cbn [after_runs].
      destruct (updateMomentum_moving (clock n) (after_runs clock n c) Hpn Hmv)
        as (c' & -> & _ & _ & Hvp & _).
      exact Hvp.
  - intro cN. subst cN.
    destruct (after_runs_state clock c v0 Hp Hv N Hm N) as (HpN & v & HvN & Hd);
      [lia |].
    pose proof (after_runs_rest clock c v0 Hp Hv N Hm Hr) as Hrs.
    repeat split.
    + rewrite HvN. exact Hd.
    + exact Hrs.
    + now apply updateMomentum_rest.
  - intros fuel Hf.
    apply (momentum_from clock c v0 Hp Hv N Hm Hr fuel 0%nat); lia.
Qed.

Lemma momentum_decay_witness :
  let c := set_panVelocity (set_isPanning (new_Chart false) true) (Fin 0.11) in
  exists N : nat,
    forall fuel, (N < fuel)%nat ->
      momentum (fun _ => Fin 0) fuel 0 c
      = (set_lastPanTime (after_runs (fun _ => Fin 0) N c) (Fin 0), N).
Proof.
  intro c.
  destruct (momentum_decay (fun _ => Fin 0) c 0.11 eq_refl eq_refl)
    as (N & _ & _ & H).
  exists N. exact H.
Defined.

Example momentum_from_0_11 :
  let c := set_panVelocity (set_isPanning (new_Chart false) true) (Fin 0.11) in
  snd (momentum (fun _ => Fin 0) 50 0 c) = 4%nat
  /\ neqv (panVelocity (fst (momentum (fun _ => Fin 0) 50 0 c)))
          (Fin (decayed 0.11 4))
  /\ neqv (offsetIndex (viewport (fst (momentum (fun _ => Fin 0) 50 0 c))))
          (Fin 0).
Proof. repeat split. Qed.

(** ** Chart: the offset range *)

Lemma chart_ok_iff (c : Chart) :
  chart_ok c = true <->
  viewport_ok (viewport c) = true
  /\ nle (Fin 6) (maxBarWidth (viewport c)) = true
  /\ isFinite (visibleCount (viewport c)) = true
  /\ isFinite (panVelocity c) = true
  /\ isFinite (lastDragX c) = true
  /\ isFinite (lastTouchX c) = true
  /\ isFinite (lastPanTime c) = true
  /\ isFinite (lastMouseMoveTime c) = true.
Proof. unfold chart_ok. rewrite !andb_true_iff. tauto. Qed.

Lemma chart_ok_scheduleRender (c : Chart) :
  chart_ok (scheduleRender c) = chart_ok c.
Proof. unfold scheduleRender. now destruct (animHandle c). Qed.

Lemma isFinite_nsub (a b : num) :
  isFinite a = true -> isFinite b = true -> isFinite (nsub a b) = true.
Proof. now destruct a, b. Qed.

Lemma isFinite_velocity (dx dt : num) :
  isFinite dx = true -> ngt dt (Fin 0) = true ->
  isFinite (nmul (ndiv dx dt) (Fin 16)) = true.
Proof.
  destruct dx as [| | |x]; try discriminate.
  destruct dt as [| | |t]; try discriminate; cbn; trivial.
  intros _. qbool; lra.
Qed.

Ltac chart_ok_start H :=
  apply chart_ok_iff in H;
  destruct H as (Hv & Hm & Hc & Hvel & Hdx & Htx & Hpt & Hmt).

Lemma on_wheel_ok (c : Chart) (clientX rectLeft deltaY : num) :
  chart_ok c = true -> isFinite clientX && isFinite rectLeft = true ->
  chart_ok (on_wheel c clientX rectLeft deltaY) = true.
Proof.
  intros H He. apply andb_true_iff in He as [Hx Hr].
  unfold on_wheel. rewrite chart_ok_scheduleRender.
  chart_ok_start H. apply chart_ok_iff. cbn.
  rewrite zoomAt_maxBarWidth, zoomAt_visibleCount.
  repeat split; trivial.
  apply zoomAt_ok; trivial.
  - now apply isFinite_nsub.
  - destruct deltaY as [| | |y]; trivial. now destruct (Qlt_bool 0 y).
Qed.

Lemma on_mousedown_ok (c : Chart) (clientX now : num) :
  chart_ok c = true -> isFinite clientX && isFinite now = true ->
  chart_ok (on_mousedown c clientX now) = true.
Proof.
  intros H He. apply andb_true_iff in He as [Hx Hn].
  chart_ok_start H. apply chart_ok_iff. cbn. repeat split; trivial.
Qed.

(** The body shared by the mouse and touch move listeners. *)
Lemma drag_step_ok (c : Chart) (dx now : num) :
  chart_ok c = true -> isFinite dx = true -> isFinite now = true ->
  chart_ok
    (let c1 :=
       if ngt (nsub now (lastPanTime c)) (Fin 0)
       then set_panVelocity c (nmul (ndiv dx (nsub now (lastPanTime c))) (Fin 16))
       else c in
     let c2 := set_lastPanTime c1 now in
     scheduleRender (set_viewport c2 (panBy (viewport c2) dx))) = true.
Proof.
  intros H Hdx' Hn. cbv zeta. rewrite chart_ok_scheduleRender.
  chart_ok_start H. apply chart_ok_iff.
  destruct (ngt (nsub now (lastPanTime c)) (Fin 0)) eqn:Hdt; cbn;
    repeat split; trivial; try (now apply panBy_ok).
  now apply isFinite_velocity.
Qed.

Lemma on_mousemove_ok (c : Chart) (clientX now : num) :
  chart_ok c = true -> isFinite clientX && isFinite now = true ->
  chart_ok (on_mousemove c clientX now) = true.
Proof.
  intros H He. apply andb_true_iff in He as [Hx Hn].
  unfold on_mousemove.
  destruct (negb (dragging c)); trivial.
  destruct (nlt _ mouseMoveThrottle); trivial.
  pose proof H as H'. chart_ok_start H'.
  apply (drag_step_ok
           (set_lastDragX (set_lastMouseMoveTime c now) clientX)
           (nsub clientX (lastDragX c)) now); trivial.
  - apply chart_ok_iff. cbn. repeat split; trivial.
  - now apply isFinite_nsub.
Qed.

Lemma on_touchmove_ok (c : Chart) (clientX now : num) :
  chart_ok c = true -> isFinite clientX && isFinite now = true ->
  chart_ok (on_touchmove c clientX now) = true.
Proof.
  intros H He. apply andb_true_iff in He as [Hx Hn].
  unfold on_touchmove.
  destruct (nlt _ mouseMoveThrottle); trivial.
  pose proof H as H'. chart_ok_start H'.
  apply (drag_step_ok
           (set_lastTouchX (set_lastMouseMoveTime c now) clientX)
           (nsub clientX (lastTouchX c)) now); trivial.
  - apply chart_ok_iff. cbn. repeat split; trivial.
  - now apply isFinite_nsub.
Qed.

Lemma updateMomentum_ok (now : num) (c : Chart) :
  chart_ok c = true -> isFinite now = true ->
  chart_ok (fst (updateMomentum now c)) = true.
Proof.
  intros H Hn. unfold updateMomentum.
  destruct (negb (isPanning c)); trivial.
  cbn [panVelocity set_lastPanTime].
  pose proof H as H'. chart_ok_start H'.
  destruct (ngt (nabs (panVelocity c)) (Fin 0.1)); cbn [fst].
  - rewrite chart_ok_scheduleRender. apply chart_ok_iff. cbn.
    repeat split; trivial.
    + now apply panBy_ok.
    + destruct (panVelocity c); try discriminate. reflexivity.
  - apply chart_ok_iff. cbn. repeat split; trivial.
Qed.

Lemma on_mouseup_ok (c : Chart) (now : num) :
  chart_ok c = true -> isFinite now = true ->
  chart_ok (on_mouseup c now) = true.
Proof.
  intros H Hn. unfold on_mouseup. apply updateMomentum_ok; trivial.
Qed.

Lemma on_touchend_ok (c : Chart) (now : num) :
  chart_ok c = true -> isFinite now = true ->
  chart_ok (on_touchend c now) = true.
Proof.
  intros H Hn. unfold on_touchend. apply updateMomentum_ok; trivial.
Qed.

Lemma on_touchstart_ok (c : Chart) (clientX : num) :
  chart_ok c = true -> isFinite clientX = true ->
  chart_ok (on_touchstart c clientX) = true.
Proof.
  intros H Hx. chart_ok_start H. apply chart_ok_iff. cbn.
  repeat split; trivial.
Qed.

(** Storing a clamped finite value in [offsetIndex] keeps the invariant. *)
Lemma set_offsetIndex_ok (v : Viewport) (x : num) :
  viewport_ok v = true -> isFinite x = true ->
  viewport_ok (set_offsetIndex v (nmax (Fin 0) x)) = true.
Proof.
  intros Hok Hx.
  destruct (viewport_ok_inv v Hok) as (o & w & s & m & Ho & Hw & Hs & Hm & I).
  destruct x as [| | |x]; try discriminate.
  unfold viewport_ok. cbn. rewrite Hw, Hs, Hm. qbool; cbn; qbool; lra.
Qed.

Lemma on_dblclick_ok (c : Chart) :
  chart_ok c = true -> chart_ok (on_dblclick c) = true.
Proof.
  intros H. unfold on_dblclick. rewrite chart_ok_scheduleRender.
  chart_ok_start H. apply chart_ok_iff. cbn. repeat split; trivial.
  destruct (viewport_ok_inv _ Hv) as (o & w & s & m & Ho & Hw & Hs & Hm' & I).
  unfold viewport_ok. cbn. rewrite Hs, Hm'. rewrite Hm' in Hm. cbn in Hm.
  qbool; cbn; qbool; lra.
Qed.

Lemma fst_render (canvas : Canvas) (c : Chart) :
  fst (render canvas c) = render_clamp c (fst (getVisibleRange canvas c)).
Proof.
  unfold render. destruct (getVisibleRange canvas c) as [vc si]. cbn [fst].
  destruct (isLoading (render_clamp c vc)); trivial.
  now destruct (calculatePriceRange _ _ _).
Qed.

Lemma isFinite_visibleCount (canvas : Canvas) (c : Chart) :
  viewport_ok (viewport c) = true ->
  isFinite (clientWidth canvas) && isFinite (width canvas) = true ->
  isFinite (fst (getVisibleRange canvas c)) = true.
Proof.
  intros Hok Hcv. apply andb_true_iff in Hcv as [Hcw Hw'].
  destruct (viewport_ok_inv _ Hok) as (o & w & s & m & Ho & Hw & Hs & Hm & I).
  unfold getVisibleRange. cbn [fst]. rewrite Hw, Hs.
  destruct (clientWidth canvas) as [| | |cw]; try discriminate.
  destruct (width canvas) as [| | |wd]; try discriminate.
  unfold nor, truthy. cbn. qbool; cbn; qbool; lra.
Qed.

Lemma render_clamp_ok (c : Chart) (vc : num) :
  chart_ok c = true -> isFinite vc = true ->
  chart_ok (render_clamp c vc) = true.
Proof.
  intros H Hvc. unfold render_clamp.
  destruct (ngt _ _); trivial.
  chart_ok_start H. apply chart_ok_iff. cbn. repeat split; trivial.
  apply set_offsetIndex_ok; trivial.
  destruct vc; try discriminate. reflexivity.
Qed.

Lemma frame_ok (canvas : Canvas) (c : Chart) :
  chart_ok c = true ->
  isFinite (clientWidth canvas) && isFinite (width canvas) = true ->
  chart_ok (fst (frame canvas c)) = true.
Proof.
  intros H Hcv. unfold frame. rewrite fst_render.
  assert (H' : chart_ok (set_animHandle c false) = true) by exact H.
  apply render_clamp_ok; trivial.
  apply isFinite_visibleCount; trivial.
  apply chart_ok_iff in H'. tauto.
Qed.

Lemma handle_ok (c : Chart) (e : event) :
  chart_ok c = true -> event_ok e = true -> chart_ok (handle c e) = true.
Proof.
  intros H He. destruct e; cbn [handle event_ok] in *.
  - now apply on_wheel_ok.
  - now apply on_mousedown_ok.
  - now apply on_mousemove_ok.
  - now apply on_mouseup_ok.
  - now apply on_dblclick_ok.
  - now apply on_touchstart_ok.
  - now apply on_touchmove_ok.
  - now apply on_touchend_ok.
  - now apply updateMomentum_ok.
  - now apply frame_ok.
Qed.

Lemma handle_all_ok (es : list event) (c : Chart) :
  chart_ok c = true -> forallb event_ok es = true ->
  chart_ok (handle_all es c) = true.
Proof.
  revert c. induction es as [|e es IH]; intros c H Hes; [exact H |].
  cbn in Hes. apply andb_true_iff in Hes as [He Hes].
  cbn. apply IH; trivial. now apply handle_ok.
Qed.

(** In particular the velocity a release starts from is finite. *)
Lemma release_velocity_finite (es : list event) (c : Chart) :
  chart_ok c = true -> forallb event_ok es = true ->
  exists v0 : Q, panVelocity (handle_all es c) = Fin v0.
Proof.
  intros H Hes. pose proof (handle_all_ok es c H Hes) as Hok.
  apply chart_ok_iff in Hok. destruct Hok as (_ & _ & _ & Hv & _).
  destruct (panVelocity (handle_all es c)) as [| | |v0]; try discriminate.
  now exists v0.
Qed.

(** After the clamp of [render] the offset is within the range, for the
    window size the same [render] computed. *)
Lemma render_clamp_in_range (c : Chart) (vc : num) :
  chart_ok c = true -> isFinite vc = true ->
  offset_in_range (render_clamp c vc) vc (Fin 50) = true.
Proof.
  intros H Hvc. chart_ok_start H.
  destruct (viewport_ok_inv _ Hv) as (o & w & s & m & Ho & Hw & Hs & Hm' & I).
  destruct vc as [| | |n]; try discriminate.
  unfold offset_in_range, offset_bound, render_clamp, length_num, of_nat.
  rewrite Ho. cbn [nadd nsub ngt nlt].
  qbool; cbn; qbool; cbn; qbool; try lra.
  all: rewrite ?Ho; cbn; qbool; lra.
Qed.

Lemma getVisibleRange_render_clamp (canvas : Canvas) (c : Chart) (vc : num) :
  fst (getVisibleRange canvas (render_clamp c vc))
  = fst (getVisibleRange canvas c).
Proof. unfold render_clamp. now destruct (ngt _ _). Qed.

(** C2, as the code has it.  From a chart within its invariant and under
    any run of events with finite fields (wheel zooms, drags, momentum
    runs, double-click resets, frames), [offsetIndex] is finite and
    [>= 0] after every event; the upper end
    [max(0, totalBars - visibleCount + 50)] is enforced by [render] only:
    it holds after every frame, for the window size that frame computed. *)
Theorem offset_range_by_render (c : Chart) (es : list event) :
  chart_ok c = true -> forallb event_ok es = true ->
  nle (Fin 0) (offsetIndex (viewport (handle_all es c))) = true
  /\ isFinite (offsetIndex (viewport (handle_all es c))) = true
  /\ forall canvas : Canvas,
       event_ok (RenderFrame canvas) = true ->
       let c' := handle (handle_all es c) (RenderFrame canvas) in
       offset_in_range c' (fst (getVisibleRange canvas c')) (Fin 50) = true.
Proof.
  intros H Hes.
  pose proof (handle_all_ok es c H Hes) as Hok.
  set (c1 := handle_all es c) in *.
  split; [| split].
  - apply chart_ok_iff in Hok. destruct Hok as (Hv & _).
    destruct (viewport_ok_inv _ Hv) as (o & w & s & m & -> & _ & _ & _ & Ho & _).
    cbn. now apply Qle_bool_iff.
  - apply chart_ok_iff in Hok. destruct Hok as (Hv & _).
    now destruct (viewport_ok_inv _ Hv) as (o & w & s & m & -> & _).
  - intros canvas Hcv c'. subst c'. cbn [handle]. unfold frame.
    rewrite fst_render, getVisibleRange_render_clamp.
    assert (Hok' : chart_ok (set_animHandle c1 false) = true) by exact Hok.
    apply render_clamp_in_range; trivial.
    apply isFinite_visibleCount; trivial.
    apply chart_ok_iff in Hok'. tauto.
Qed.

Lemma offset_range_by_render_witness :
  let canvas := mkCanvas (Fin 700) (Fin 400) (Fin 700) (Fin 400) (Fin 1) in
  let es := [MouseDown (Fin 0) (Fin 0); MouseMove (Fin (-70)) (Fin 16);
             Wheel (Fin 100) (Fin 0) (Fin 1); MouseUp (Fin 32); DblClick] in
  let c' := handle (handle_all es (new_Chart false)) (RenderFrame canvas) in
  offset_in_range c' (fst (getVisibleRange canvas c')) (Fin 50) = true.
Proof.
  intros canvas es.
  destruct (offset_range_by_render (new_Chart false) es eq_refl eq_refl)
    as (_ & _ & H).
  apply H. reflexivity.
Defined.

(** C2 as stated fails: on the chart as constructed (no bars), a drag of
    70 pixels to the left leaves [offsetIndex = 10], above
    [max(0, 0 - visibleCount + 50) = 0], whether [visibleCount] is the
    viewport's 200 or the 100 bars of a 700-pixel canvas; the offset is
    back in range only after the next frame. *)
Lemma offset_range_fails_between_frames :
  let canvas := mkCanvas (Fin 700) (Fin 400) (Fin 700) (Fin 400) (Fin 1) in
  let c := handle_all [MouseDown (Fin 0) (Fin 0); MouseMove (Fin (-70)) (Fin 16)]
                      (new_Chart false) in
  neqv (offsetIndex (viewport c)) (Fin 10)
  /\ offset_in_range c (visibleCount (viewport c)) (Fin 50) = false
  /\ offset_in_range c (fst (getVisibleRange canvas c)) (Fin 50) = false
  /\ neqv (offsetIndex (panBy (new_Viewport (Fin 200)) (Fin (-70)))) (Fin 10).
Proof. repeat split. Qed.

(** ** Loops over a window given by natural numbers *)

Lemma index_of_nat {A : Type} (l : list A) (s i : nat) :
  index l (nfloor (nadd (of_nat s) (of_nat i))) = nth_error l (s + i).
Proof.
  unfold of_nat, nadd, nfloor, index.
  rewrite Qfloor_Z.
  assert (E : Qfloor (inject_Z (Z.of_nat s) + inject_Z (Z.of_nat i))
              = Z.of_nat (s + i)).
  { rewrite (Qfloor_comp _ (inject_Z (Z.of_nat (s + i)))).
    - apply Qfloor_Z.
    - rewrite <- inject_Z_plus, Nat2Z.inj_add. reflexivity. }
  rewrite E, Qeq_bool_refl. cbn [andb].
  destruct (0 <=? Z.of_nat (s + i))%Z eqn:Hz; [| apply Z.leb_gt in Hz; lia].
  now rewrite Nat2Z.id.
Qed.

Lemma nlt_of_nat (i n : nat) : nlt (of_nat i) (of_nat n) = (i <? n)%nat.
Proof.
  unfold of_nat, nlt, Qlt_bool.
  destruct (i <? n)%nat eqn:E.
  - apply Nat.ltb_lt in E. apply negb_true_iff, Qle_bool_false.
    rewrite <- Zlt_Qlt. lia.
  - apply Nat.ltb_ge in E. apply negb_false_iff, Qle_bool_iff.
    rewrite <- Zle_Qle. lia.
Qed.

Lemma skipn_nth_error_Some {A : Type} (l : list A) (k : nat) (x : A) :
  nth_error l k = Some x -> skipn k l = x :: skipn (S k) l.
Proof.
  revert k. induction l as [|a l IH]; intros [|k] H; try discriminate.
  - now inversion H.
  - cbn in H. apply IH in H. exact H.
Qed.

Lemma skipn_nth_error_None {A : Type} (l : list A) (k : nat) :
  nth_error l k = None -> skipn k l = [].
Proof. intro H. apply skipn_all2. now apply nth_error_None. Qed.

(** The loop over the bars, on a natural window, is a fold over the bars
    the window holds; any fuel above the number of bars left is enough. *)
Lemma for_window_fold {A : Type} (l : list Bar) (f : Bar -> A -> A)
    (s n fuel i : nat) (acc : A) :
  (List.length l - (s + i) < fuel)%nat ->
  for_window (index l) (fun _ bar a => f bar a) (of_nat s) (of_nat n) fuel i acc
  = fold_left (fun a bar => f bar a) (firstn (n - i) (skipn (s + i) l)) acc.
Proof.
  revert i acc. induction fuel as [|fuel IH]; intros i acc Hf; [lia |].
  cbn [for_window]. rewrite nlt_of_nat, index_of_nat.
  destruct (i <? n)%nat eqn:E.
  - apply Nat.ltb_lt in E.
    destruct (nth_error l (s + i)) as [b|] eqn:Hb.
    + rewrite (skipn_nth_error_Some _ _ _ Hb).
      replace (n - i)%nat with (S (n - S i)) by lia.
      cbn [firstn fold_left].
      replace (S (s + i)) with (s + S i)%nat by lia.
      apply IH.
      assert (s + i < List.length l)%nat
        by (apply nth_error_Some; congruence).
      lia.
    + rewrite (skipn_nth_error_None _ _ Hb). now rewrite firstn_nil.
  - apply Nat.ltb_ge in E. replace (n - i)%nat with 0%nat by lia. reflexivity.
Qed.

Lemma for_bars_fold {A : Type} (l : list Bar) (f : Bar -> A -> A)
    (s n : nat) (acc : A) :
  for_bars l (of_nat s) (of_nat n) (fun _ bar a => f bar a) acc
  = fold_left (fun a bar => f bar a) (window l s n) acc.
Proof.
  unfold for_bars, window. rewrite for_window_fold by lia.
  now rewrite Nat.sub_0_r, Nat.add_0_r.
Qed.

(** ** The fuel of the window loops is enough *)

Lemma Qfloor_unique (x : Q) (m : Z) :
  inject_Z m <= x -> x < inject_Z (m + 1) -> Qfloor x = m.
Proof.
  intros Hle Hlt.
  pose proof (Qfloor_resp_le _ _ Hle) as H1. rewrite Qfloor_Z in H1.
  pose proof (Qfloor_le x) as H2.
  assert (H3 : inject_Z (Qfloor x) < inject_Z (m + 1)) by lra.
  rewrite <- Zlt_Qlt in H3. lia.
Qed.

Lemma Qfloor_add_Z (q : Q) (k : Z) : Qfloor (q + inject_Z k) = (Qfloor q + k)%Z.
Proof.
  apply Qfloor_unique.
  - rewrite inject_Z_plus. pose proof (Qfloor_le q). lra.
  - replace (Qfloor q + k + 1)%Z with ((Qfloor q + 1) + k)%Z by lia.
    rewrite inject_Z_plus. pose proof (Qlt_floor q). lra.
Qed.

(** A bar read at counter [i] lies below the length. *)
Lemma index_window_bound {A : Type} (l : list A) (q : Q) (i : nat) :
  index l (nfloor (nadd (Fin q) (of_nat i))) <> None ->
  (0 <= Qfloor q + Z.of_nat i < Z.of_nat (List.length l))%Z.
Proof.
  unfold of_nat, nadd, nfloor, index. rewrite Qfloor_Z, Qfloor_add_Z.
  destruct (Qeq_bool _ _); cbn [andb]; [| congruence].
  destruct (0 <=? Qfloor q + Z.of_nat i)%Z eqn:E; [| congruence].
  apply Z.leb_le in E. intro H. apply nth_error_Some in H. lia.
Qed.

Section Fuel.
Context {X A : Type}.
Variable l : list Bar.
Variable fetch : num -> option X.
Hypothesis fetch_in_array : forall idx, index l idx = None -> fetch idx = None.
Variable body : nat -> X -> A -> A.
Variables startIndex visibleCount : num.

Lemma for_window_two_fuels (q : Q) (f1 f2 i : nat) (acc : A) :
  startIndex = Fin q -> (0 <= Qfloor q)%Z ->
  (List.length l < f1 + i)%nat -> (List.length l < f2 + i)%nat ->
  (i <= List.length l)%nat ->
  for_window fetch body startIndex visibleCount f1 i acc
  = for_window fetch body startIndex visibleCount f2 i acc.
Proof.
  intros -> Hq. revert f2 i acc.
  induction f1 as [|f1 IH]; intros f2 i acc H1 H2 Hi; [lia |].
  destruct f2 as [|f2]; [lia |].
  cbn [for_window]. destruct (nlt (of_nat i) visibleCount); trivial.
  destruct (fetch (nfloor (nadd (Fin q) (of_nat i)))) as [x|] eqn:Hx; trivial.
  assert (Hin : index l (nfloor (nadd (Fin q) (of_nat i))) <> None).
  { intro Hn. apply fetch_in_array in Hn. congruence. }
  apply index_window_bound in Hin. apply IH; lia.
Qed.

(** Whatever the window, the loop run with one more turn than there are
    bars has reached its end: more fuel changes nothing. *)
Lemma for_window_fuel (fuel : nat) (acc : A) :
  (List.length l < fuel)%nat ->
  for_window fetch body startIndex visibleCount fuel 0 acc
  = for_window fetch body startIndex visibleCount (S (List.length l)) 0 acc.
Proof.
  intro Hf. destruct fuel as [|fuel]; [lia |].
  destruct startIndex as [| | |q] eqn:Hs.
  1-3: cbn [for_window]; destruct (nlt (of_nat 0) visibleCount); trivial;
       now rewrite fetch_in_array.
  destruct (Z_lt_le_dec (Qfloor q) 0) as [Hneg | Hpos].
  - cbn [for_window]. destruct (nlt (of_nat 0) visibleCount); trivial.
    rewrite fetch_in_array; trivial.
    destruct (index l (nfloor (nadd (Fin q) (of_nat 0)))) eqn:Hi; trivial.
    assert (Hin : index l (nfloor (nadd (Fin q) (of_nat 0))) <> None)
      by congruence.
    apply index_window_bound in Hin. lia.
  - rewrite <- Hs. apply (for_window_two_fuels q); trivial; lia.
Qed.
End Fuel.

Lemma graph_fetch_in_array (l : list Bar) (idx : num) :
  index l idx = None -> graph_fetch l idx = None.
Proof. unfold graph_fetch. now intros ->. Qed.

(** The loops of [drawBars], [drawTickVolumes], [calculatePriceRange] and
    [calculateVolumeMax] end within their fuel, whatever the window. *)
Lemma for_bars_fuel {A : Type} (l : list Bar) (startIndex visibleCount : num)
    (body : nat -> Bar -> A -> A) (acc : A) (fuel : nat) :
  (List.length l < fuel)%nat ->
  for_window (index l) body startIndex visibleCount fuel 0 acc
  = for_bars l startIndex visibleCount body acc.
Proof. intro H. unfold for_bars. now apply for_window_fuel. Qed.

(** So does the loop of [drawGraph]. *)
Lemma drawGraph_loop_fuel {A : Type} (l : list Bar) (startIndex visibleCount : num)
    (body : nat -> Bar * Bar -> A -> A) (acc : A) (fuel : nat) :
  (List.length l < fuel)%nat ->
  for_window (graph_fetch l) body startIndex visibleCount fuel 0 acc
  = for_window (graph_fetch l) body startIndex visibleCount
               (S (List.length l)) 0 acc.
Proof.
  intro H. apply (for_window_fuel l); trivial. apply graph_fetch_in_array.
Qed.

(** The start of the window [render] draws is a natural number. *)
Lemma nfloor_of_nat (q : Q) :
  0 <= q -> nfloor (Fin q) = of_nat (Z.to_nat (Qfloor q)).
Proof.
  intro H. unfold nfloor, of_nat. rewrite Z2Nat.id; trivial.
  change 0%Z with (Qfloor 0). now apply Qfloor_resp_le.
Qed.

(** ** Range calculator *)

Lemma least_low_snoc (pre : list Bar) (a : Q) (x : Bar) (l : Q) :
  least_low pre a -> Low x = Fin l ->
  least_low (pre ++ [x]) (if Qle_bool a l then a else l).
Proof.
  intros [(b & Hb & Eb) Hle] El. split.
  - destruct (Qle_bool a l).
    + exists b. split; trivial. apply in_or_app. now left.
    + exists x. split; trivial. apply in_or_app. right. now left.
  - intros y Hy. apply in_app_or in Hy as [Hy | [<- | []]].
    + specialize (Hle y Hy). destruct (Low y); try discriminate; trivial.
      cbn in *. qbool; lra.
    + rewrite El. cbn. qbool; lra.
Qed.

Lemma greatest_high_snoc (pre : list Bar) (a : Q) (x : Bar) (h : Q) :
  greatest_high pre a -> High x = Fin h ->
  greatest_high (pre ++ [x]) (if Qle_bool a h then h else a).
Proof.
  intros [(b & Hb & Eb) Hle] Eh. split.
  - destruct (Qle_bool a h).
    + exists x. split; trivial. apply in_or_app. right. now left.
    + exists b. split; trivial. apply in_or_app. now left.
  - intros y Hy. apply in_app_or in Hy as [Hy | [<- | []]].
    + specialize (Hle y Hy). destruct (High y); try discriminate; trivial.
      cbn in *. qbool; lra.
    + rewrite Eh. cbn. qbool; lra.
Qed.

Lemma range_fold (rest pre : list Bar) (a b : Q) :
  least_low pre a -> greatest_high pre b -> finite_prices rest ->
  exists mn mx,
    fold_left (fun mm bar => (nmin (fst mm) (Low bar), nmax (snd mm) (High bar)))
              rest (Fin a, Fin b) = (Fin mn, Fin mx)
    /\ least_low (pre ++ rest) mn /\ greatest_high (pre ++ rest) mx.
Proof.
  revert pre a b. induction rest as [|x rest IH]; intros pre a b Ha Hb Hfin.
  - exists a, b. rewrite app_nil_r. auto.
  - destruct (Hfin x (or_introl eq_refl)) as [Hl Hh].
    destruct (Low x) as [| | |l] eqn:El; try discriminate.
    destruct (High x) as [| | |h] eqn:Eh; try discriminate.
    cbn [fold_left fst snd]. rewrite El, Eh. cbn [nmin nmax].
    replace (pre ++ x :: rest) with ((pre ++ [x]) ++ rest)
      by (now rewrite <- app_assoc).
    replace (if Qle_bool a l then Fin a else Fin l)
      with (Fin (if Qle_bool a l then a else l)) by (now destruct (Qle_bool a l)).
    replace (if Qle_bool b h then Fin h else Fin b)
      with (Fin (if Qle_bool b h then h else b)) by (now destruct (Qle_bool b h)).
    apply IH.
    + now apply least_low_snoc.
    + now apply greatest_high_snoc.
    + intros y Hy. apply Hfin. now right.
Qed.

Lemma range_of_window (w : list Bar) :
  w <> [] -> finite_prices w ->
  exists mn mx,
    fold_left (fun mm bar => (nmin (fst mm) (Low bar), nmax (snd mm) (High bar)))
              w (PInf, NInf) = (Fin mn, Fin mx)
    /\ least_low w mn /\ greatest_high w mx.
Proof.
  destruct w as [|x w]; [congruence |]. intros _ Hfin.
  destruct (Hfin x (or_introl eq_refl)) as [Hl Hh].
  destruct (Low x) as [| | |l] eqn:El; try discriminate.
  destruct (High x) as [| | |h] eqn:Eh; try discriminate.
  cbn [fold_left fst snd]. rewrite El, Eh. cbn [nmin nmax].
  apply (range_fold w [x] l h).
  - split; [exists x; split; [now left | trivial] |].
    intros y [<- | []]. rewrite El. cbn. qbool; lra.
  - split; [exists x; split; [now left | trivial] |].
    intros y [<- | []]. rewrite Eh. cbn. qbool; lra.
  - intros y Hy. apply Hfin. now right.
Qed.

(** ** The price range *)

Lemma nle_eqv_r (a b b' : num) :
  nle a b = true -> neqv b b' -> nle a b' = true.
Proof.
  destruct a as [| | |x], b as [| | |y], b' as [| | |y']; cbn; trivial;
    try contradiction.
  intros H E. apply Qle_bool_iff in H. apply Qle_bool_iff. lra.
Qed.

Lemma nle_eqv_l (a a' b : num) :
  nle a b = true -> neqv a a' -> nle a' b = true.
Proof.
  destruct a as [| | |x], a' as [| | |x'], b as [| | |y]; cbn; trivial;
    try contradiction; try discriminate.
  intros H E. apply Qle_bool_iff in H. apply Qle_bool_iff. lra.
Qed.

Lemma nle_nlt (a : num) (r x : Q) :
  nle a (Fin r) = true -> r < x -> nlt a (Fin x) = true.
Proof.
  destruct a as [| | |y]; cbn; trivial.
  intros H Hr. apply Qle_bool_iff in H. qbool. lra.
Qed.

Lemma nlt_nle (a : num) (r x : Q) :
  x < r -> nle (Fin r) a = true -> nlt (Fin x) a = true.
Proof.
  destruct a as [| | |y]; cbn; trivial.
  intros Hr H. apply Qle_bool_iff in H. qbool. lra.
Qed.

(** A rational at or below a double rounds to that double or below it. *)
Lemma round64_le_double (y x : Q) :
  is_double x -> y <= x -> nle (round64 y) (Fin x) = true.
Proof.
  intros Hd Hy. apply (nle_eqv_r _ (round64 x)); [| exact Hd].
  now apply round64_monotone.
Qed.

Lemma round64_ge_double (y x : Q) :
  is_double x -> x <= y -> nle (Fin x) (round64 y) = true.
Proof.
  intros Hd Hy. apply (nle_eqv_l (round64 x)); [| exact Hd].
  now apply round64_monotone.
Qed.

Lemma round64_nonneg (x : Q) : 0 <= x -> nle (Fin 0) (round64 x) = true.
Proof. intro H. apply (round64_monotone 0 x H). Qed.

(** The two literals of [calculatePriceRange] as doubles. *)
Lemma literal_0_05 :
  exists k, round64 0.05 = Fin k /\ 0 < k
            /\ 0.05 - 0.00000000000000001 < k < 0.05 + 0.00000000000000001.
Proof.
  eexists. split; [vm_compute; reflexivity |].
  split; [| split]; vm_compute; reflexivity.
Qed.

Lemma literal_1e_6 : exists k, round64 0.000001 = Fin k /\ 0 < k.
Proof. eexists. split; vm_compute; reflexivity. Qed.

(** With [mn <= mx] the padding is positive (or infinite). *)
Lemma padding_sign (mn mx : Q) :
  mn <= mx ->
  padding mn mx = PInf \/ exists p, padding mn mx = Fin p /\ 0 < p.
Proof.
  intro H. unfold padding, fsub, fmul. cbn [nsub rounded].
  destruct literal_0_05 as (k & -> & Hk & _).
  destruct literal_1e_6 as (e & -> & He).
  pose proof (round64_nonneg (mx - mn)) as Hd.
  pose proof (round64_not_nan (mx - mn)) as Hn.
  destruct (round64 (mx - mn)) as [| | |d]; try discriminate.
  - left. cbn. qbool; lra.
  - exfalso. assert (T : nle (Fin 0) NInf = true) by (apply Hd; lra).
    discriminate T.
  - assert (Hd' : 0 <= d).
    { assert (T : nle (Fin 0) (Fin d) = true) by (apply Hd; lra).
      now apply Qle_bool_iff in T. }
    cbn [nmul rounded].
    pose proof (round64_nonneg (d * k)) as Hp.
    pose proof (round64_not_nan (d * k)) as Hpn.
    destruct (round64 (d * k)) as [| | |p]; try discriminate.
    + now left.
    + exfalso. assert (T : nle (Fin 0) NInf = true) by (apply Hp; nra).
      discriminate T.
    + assert (Hp' : 0 <= p).
      { assert (T : nle (Fin 0) (Fin p) = true) by (apply Hp; nra).
        now apply Qle_bool_iff in T. }
      right. unfold nor, truthy.
      destruct (Qeq_bool p 0) eqn:E; cbn [negb].
      * now exists e.
      * apply Qeq_bool_false in E. exists p. split; [reflexivity | lra].
Qed.

(** Whatever the loop found, neither end of the range is [NaN]. *)
Lemma padded_range_numbers (mm : num * num) :
  let '(lo, hi) :=
    (let '(min, max) :=
       if negb (isFinite (fst mm)) || negb (isFinite (snd mm))
       then (Fin 0, Fin 1) else (fst mm, snd mm) in
     let pad := nor (fmul (fsub max min) (round64 0.05)) (round64 0.000001) in
     (fsub min pad, fadd max pad)) in
  is_nan lo = false /\ is_nan hi = false.
Proof.
  assert (H : forall mn mx,
             is_nan (fsub (Fin mn) (padding mn mx)) = false
             /\ is_nan (fadd (Fin mx) (padding mn mx)) = false).
  { intros mn mx. unfold padding, fsub, fmul. cbn [nsub rounded].
    destruct literal_0_05 as (k & -> & Hk & _).
    destruct literal_1e_6 as (e & -> & He).
    pose proof (round64_not_nan (mx - mn)) as Hn.
    destruct (round64 (mx - mn)) as [| | |d]; try discriminate.
    - cbn. qbool; try lra; now split.
    - cbn. qbool; try lra; now split.
    - cbn [nmul rounded].
      pose proof (round64_not_nan (d * k)) as Hpn.
      destruct (round64 (d * k)) as [| | |p]; try discriminate;
        [now split | now split |].
      unfold nor, truthy. destruct (Qeq_bool p 0); cbn [negb nsub nadd rounded];
        split; apply round64_not_nan. }
  destruct mm as [[| | |mn] [| | |mx]]; cbn [fst snd isFinite negb orb];
    try apply (H 0 1). apply (H mn mx).
Qed.

Lemma calculatePriceRange_empty (c : Chart) (s n : nat) :
  window (bars c) s n = [] ->
  exists lo hi,
    calculatePriceRange c (of_nat s) (of_nat n) = (Fin lo, Fin hi)
    /\ -0.05 - 0.000000000000001 < lo < -0.05 + 0.000000000000001
    /\ 1.05 - 0.000000000000001 < hi < 1.05 + 0.000000000000001.
Proof.
  unfold calculatePriceRange.
  rewrite (for_bars_fold (bars c)
             (fun bar mm => (nmin (fst mm) (Low bar), nmax (snd mm) (High bar)))).
  intros ->. eexists. eexists. split; [vm_compute; reflexivity |].
  repeat split; vm_compute; reflexivity.
Qed.

Lemma calculatePriceRange_window (c : Chart) (s n : nat) :
  window (bars c) s n <> [] -> finite_prices (window (bars c) s n) ->
  exists mn mx,
    least_low (window (bars c) s n) mn
    /\ greatest_high (window (bars c) s n) mx
    /\ calculatePriceRange c (of_nat s) (of_nat n)
       = (fsub (Fin mn) (padding mn mx), fadd (Fin mx) (padding mn mx)).
Proof.
  intros Hne Hfin. unfold calculatePriceRange.
  rewrite (for_bars_fold (bars c)
             (fun bar mm => (nmin (fst mm) (Low bar), nmax (snd mm) (High bar)))).
  destruct (range_of_window _ Hne Hfin) as (mn & mx & -> & Hmn & Hmx).
  exists mn, mx. repeat split; try apply Hmn; try apply Hmx.
Qed.

Lemma calculatePriceRange_numbers (c : Chart) (startIndex visibleCount : num) :
  is_nan (fst (calculatePriceRange c startIndex visibleCount)) = false
  /\ is_nan (snd (calculatePriceRange c startIndex visibleCount)) = false.
Proof.
  unfold calculatePriceRange.
  match goal with
  | |- context [for_bars ?l ?s ?v ?f ?a] =>
      pose proof (padded_range_numbers (for_bars l s v f a)) as H;
      destruct (for_bars l s v f a) as [mn mx]
  end.
  cbn [fst snd] in *.
  match type of H with
  | let '(_, _) := ?t in _ => destruct t as [lo hi]
  end.
  exact H.
Qed.

(** The two ends against the extrema, for doubles [mn <= mx]. *)
Lemma padded_ends (mn mx : Q) :
  mn <= mx -> is_double mn -> is_double mx ->
  nlt (Fin 0) (padding mn mx) = true
  /\ nle (fsub (Fin mn) (padding mn mx)) (Fin mn) = true
  /\ nle (Fin mx) (fadd (Fin mx) (padding mn mx)) = true
  /\ (forall r, is_double r -> r < mn ->
        nle (nsub (Fin mn) (padding mn mx)) (Fin r) = true ->
        nlt (fsub (Fin mn) (padding mn mx)) (Fin mn) = true)
  /\ (forall r, is_double r -> mx < r ->
        nle (Fin r) (nadd (Fin mx) (padding mn mx)) = true ->
        nlt (Fin mx) (fadd (Fin mx) (padding mn mx)) = true)
  /\ (mn < mx ->
      nlt (fsub (Fin mn) (padding mn mx)) (fadd (Fin mx) (padding mn mx)) = true).
Proof.
  intros Hmm Dmn Dmx. unfold fsub, fadd.
  destruct (padding_sign mn mx Hmm) as [-> | (p & -> & Hp)].
  - cbn. repeat split; trivial.
  - cbn [nsub nadd rounded].
    assert (Hlo : nle (round64 (mn - p)) (Fin mn) = true)
      by (apply round64_le_double; trivial; lra).
    assert (Hhi : nle (Fin mx) (round64 (mx + p)) = true)
      by (apply round64_ge_double; trivial; lra).
    split; [cbn; qbool; lra |]. split; [exact Hlo |]. split; [exact Hhi |].
    split; [| split].
    + intros r Dr Hr Hle. cbn in Hle. apply Qle_bool_iff in Hle.
      apply (nle_nlt _ r); [| exact Hr]. now apply round64_le_double.
    + intros r Dr Hr Hle. cbn in Hle. apply Qle_bool_iff in Hle.
      apply (nlt_nle _ r); [exact Hr |]. now apply round64_ge_double.
    + intro Hlt.
      pose proof (round64_not_nan (mn - p)) as N1.
      pose proof (round64_not_nan (mx + p)) as N2.
      destruct (round64 (mn - p)) as [| | |a], (round64 (mx + p)) as [| | |b];
        cbn in *; try discriminate; trivial.
      apply Qle_bool_iff in Hlo, Hhi. qbool. lra.
Qed.



Example calculatePriceRange_two_bars :
  let c :=
    setInitialData (new_Chart false)
      [mkBar (Fin 1) (Fin 1.5) (Fin 2) (Fin 1.25) (Fin 1.75) (Fin 10);
       mkBar (Fin 2) (Fin 1.75) (Fin 1.875) (Fin 1.5) (Fin 1.625) (Fin 12)] in
  exists lo hi,
    calculatePriceRange c (of_nat 0) (of_nat 100) = (Fin lo, Fin hi)
    /\ 1.2125 - 0.000000000000001 < lo < 1.2125 + 0.000000000000001
    /\ 2.0375 - 0.000000000000001 < hi < 2.0375 + 0.000000000000001.
Proof.
  cbv zeta. eexists. eexists. split; [vm_compute; reflexivity |].
  repeat split; vm_compute; reflexivity.
Qed.

(** ** DataLoader: the shapes of the body *)

Lemma bar_of_elem_of_bar (b : Bar) :
  match elem_of_bar b with
  | ElemObj o => bar_of_object o = b
  | ElemNull => False
  end.
Proof. now destruct b. Qed.

Lemma flat_bars_of_bars (l : list Bar) : flat_bars (map elem_of_bar l) = Some l.
Proof.
  induction l as [|b l IH]; [reflexivity |].
  cbn [map flat_bars elem_of_bar]. rewrite IH. now destruct b.
Qed.

Lemma expand_entries_of_entries (start : num) (l : list ChunkBar) :
  expand_entries start (map EntryObj l) = Ok (map (expand_entry start) l).
Proof.
  induction l as [|e l IH]; [reflexivity |].
  cbn [map expand_entries]. now rewrite IH.
Qed.

Lemma process_chunks_of_chunks (total i : nat) (chunks : list BarChunk) :
  process_chunks total i (map elem_of_chunk chunks)
  = (map (chunk_progress total) (List.seq i (List.length chunks)),
     Ok (expand_chunks chunks)).
Proof.
  revert i. induction chunks as [|chunk chunks IH]; intro i; [reflexivity |].
  cbn [map process_chunks expand_chunk elem_of_chunk oBars oChunkStart].
  rewrite expand_entries_of_entries, IH. reflexivity.
Qed.

(** On an array of chunks the loader reports 10, 50, 70, one value per
    chunk, 95 and 100, and returns the expanded bars, sorted. *)
Lemma load_chunks (statusText : string) (chunks : list BarChunk) :
  loadForexTesterChunk (Response true statusText (Some (JChunks chunks)))
  = ([(Fin 10, "Connecting to server..."%string);
      (Fin 50, "Processing data..."%string);
      (Fin 70, "Processing chunks..."%string)]
       ++ map (chunk_progress (List.length chunks))
              (List.seq 0 (List.length chunks))
       ++ [(Fin 95, "Sorting data..."%string);
           (Fin 100, "Data loaded successfully!"%string)],
     Ok (sort byTime (expand_chunks chunks))).
Proof.
  unfold JChunks. cbn [loadForexTesterChunk].
  assert (E : is_flat (map elem_of_chunk chunks) = Some false)
    by (now destruct chunks).
  rewrite E, length_map, process_chunks_of_chunks. reflexivity.
Qed.

(** On a non-empty array of bar objects it reports 10, 50, 80 and 100 and
    returns the bars, sorted. *)
Lemma load_bars (statusText : string) (b : Bar) (l : list Bar) :
  loadForexTesterChunk (Response true statusText (Some (JBars (b :: l))))
  = ([(Fin 10, "Connecting to server..."%string);
      (Fin 50, "Processing data..."%string);
      (Fin 80, "Sorting data..."%string);
      (Fin 100, "Data loaded successfully!"%string)],
     Ok (sort byTime (b :: l))).
Proof.
  unfold JBars. cbn [loadForexTesterChunk].
  assert (E : is_flat (map elem_of_bar (b :: l)) = Some true) by reflexivity.
  rewrite E, flat_bars_of_bars. reflexivity.
Qed.

Lemma load_no_bars (statusText : string) :
  loadForexTesterChunk (Response true statusText (Some (JBars [])))
  = ([(Fin 10, "Connecting to server..."%string);
      (Fin 50, "Processing data..."%string);
      (Fin 70, "Processing chunks..."%string);
      (Fin 95, "Sorting data..."%string);
      (Fin 100, "Data loaded successfully!"%string)],
     Ok []).
Proof. reflexivity. Qed.

(** ** DataLoader: malformed arrays *)

Lemma flat_bars_null (elems : list jelem) :
  match flat_bars elems with
  | None => existsb null_elem elems = true
  | Some _ => existsb null_elem elems = false
  end.
Proof.
  induction elems as [|[|o] elems IH]; cbn [flat_bars existsb null_elem orb];
    trivial.
  now destruct (flat_bars elems).
Qed.

Lemma expand_entries_null (start : num) (entries : list jentry) :
  match expand_entries start entries with
  | Throw e => e = TypeError /\ existsb null_entry entries = true
  | Ok _ => existsb null_entry entries = false
  end.
Proof.
  induction entries as [|[|e] entries IH];
    cbn [expand_entries existsb null_entry orb]; auto.
  now destruct (expand_entries start entries).
Qed.

Lemma expand_chunk_bad (chunk : jelem) :
  match expand_chunk chunk with
  | Throw e => e = TypeError /\ bad_chunk chunk = true
  | Ok _ => bad_chunk chunk = false
  end.
Proof.
  destruct chunk as [|o]; cbn [expand_chunk bad_chunk]; auto.
  destruct (oBars o) as [|entries]; auto.
  apply expand_entries_null.
Qed.

(** The loop over the chunks reports the chunks it has expanded, in
    order, and throws a [TypeError] at the first one it cannot expand. *)
Lemma process_chunks_spec (total i : nat) (chunks : list jelem) :
  exists k,
    (k <= List.length chunks)%nat
    /\ fst (process_chunks total i chunks)
       = map (chunk_progress total) (List.seq i k)
    /\ match snd (process_chunks total i chunks) with
       | Throw e => e = TypeError /\ existsb bad_chunk chunks = true
       | Ok _ => existsb bad_chunk chunks = false /\ k = List.length chunks
       end.
Proof.
  revert i. induction chunks as [|chunk chunks IH]; intro i.
  - exists 0%nat. cbn. auto.
  - cbn [process_chunks existsb].
    pose proof (expand_chunk_bad chunk) as Hc.
    destruct (expand_chunk chunk) as [pushed | e].
    + destruct (IH (S i)) as (k & Hk & Hr & Ho).
      destruct (process_chunks total (S i) chunks) as [reports outcome].
      cbn [fst snd] in *. exists (S k). rewrite Hc. cbn [orb List.seq map List.length].
      split; [lia |]. split; [now rewrite Hr |].
      destruct outcome; [split; [apply Ho | f_equal; apply Ho] | exact Ho].
    + exists 0%nat. destruct Hc as [-> ->]. cbn. split; [lia | auto].
Qed.

(** The load fails on the responses [load_fails] names, and only on
    them. *)
Lemma load_fails_spec (res : response) :
  match snd (loadForexTesterChunk res) with
  | Throw _ => load_fails res = true
  | Ok _ => load_fails res = false
  end.
Proof.
  destruct res as [|[] st [[elems|]|]]; cbn [loadForexTesterChunk snd load_fails];
    trivial.
  unfold malformed. destruct (is_flat elems) as [[|]|]; cbn [snd]; trivial.
  - pose proof (flat_bars_null elems) as H.
    now destruct (flat_bars elems).
  - destruct (process_chunks_spec (List.length elems) 0 elems) as (k & _ & _ & H).
    destruct (process_chunks (List.length elems) 0 elems) as [reports [bars|e]];
      cbn [snd] in *; tauto.
Qed.
(** ** Render passes on short windows *)

Lemma index_nil {A : Type} (i : num) : index ([] : list A) i = None.
Proof.
  destruct i as [| | |x]; trivial. unfold index.
  destruct (_ && _); trivial. now destruct (Z.to_nat (Qfloor x)).
Qed.

Lemma for_bars_nil {A : Type} (startIndex visibleCount : num)
    (body : nat -> Bar -> A -> A) (acc : A) :
  for_bars [] startIndex visibleCount body acc = acc.
Proof.
  unfold for_bars. cbn [List.length for_window].
  destruct (nlt (of_nat 0) visibleCount); trivial.
  now rewrite index_nil.
Qed.

(** [drawGraph] reads [startBar.Close] before its loop: with no bar at
    [startIndex] it throws, after [save] and before [restore]. *)
Lemma drawGraph_without_start_bar
    (left top bottom : num) (l : list Bar)
    (startIndex visibleCount minPrice maxPrice barWidth spacing : num) :
  index l (nadd startIndex (Fin 0)) = None ->
  drawGraph left top bottom l startIndex visibleCount minPrice maxPrice
            barWidth spacing = ([Save], Some TypeError).
Proof. unfold drawGraph. now intros ->. Qed.

(** C4 at its failing input.  On an empty bar array, whatever the window,
    [drawBars] and [drawTickVolumes] draw nothing and return, while
    [drawGraph] throws a [TypeError]; so does the first frame of a chart
    that has no data and is not loading. *)
Theorem drawGraph_throws_on_empty_bars (canvas : Canvas)
    (left top bottom startIndex visibleCount minPrice maxPrice : num)
    (barWidth spacing maxVolume : num) (config_showVolume : bool) :
  drawGraph left top bottom [] startIndex visibleCount minPrice maxPrice
            barWidth spacing = ([Save], Some TypeError)
  /\ drawBars left top bottom [] startIndex visibleCount minPrice maxPrice
              barWidth spacing = ([Save; Restore], None)
  /\ drawTickVolumes canvas left [] startIndex visibleCount maxVolume
                     barWidth spacing = ([Save; Restore], None)
  /\ snd (snd (frame canvas (new_Chart config_showVolume))) = Some TypeError.
Proof.
  assert (Hg : forall l t b s v mn mx w sp,
             drawGraph l t b [] s v mn mx w sp = ([Save], Some TypeError)).
  { intros. apply drawGraph_without_start_bar, index_nil. }
  repeat split.
  - apply Hg.
  - unfold drawBars. now rewrite for_bars_nil.
  - unfold drawTickVolumes. now rewrite for_bars_nil.
  - unfold frame, render.
    destruct (getVisibleRange _ _) as [vc si].
    assert (Hb : forall c, bars c = [] -> bars (render_clamp c vc) = [])
      by (intros c Hc; unfold render_clamp; now destruct (ngt _ _)).
    assert (Hl : forall c, isLoading (render_clamp c vc) = isLoading c)
      by (intros c; unfold render_clamp; now destruct (ngt _ _)).
    rewrite Hl. cbn [isLoading set_animHandle new_Chart scheduleRender animHandle].
    destruct (calculatePriceRange _ _ _) as [mn mx].
    rewrite Hb by reflexivity. rewrite Hg. reflexivity.
Qed.

Example drawGraph_beyond_last_bar :
  let l := [mkBar (Fin 1) (Fin 1) (Fin 2) (Fin 1) (Fin 2) (Fin 10);
            mkBar (Fin 2) (Fin 2) (Fin 3) (Fin 1) (Fin 1) (Fin 10)] in
  snd (drawGraph (Fin 10) (Fin 10) (Fin 310) l (Fin 2) (Fin 30)
                 (Fin 0) (Fin 4) (Fin 6) (Fin 1)) = Some TypeError
  /\ snd (drawGraph (Fin 10) (Fin 10) (Fin 310) l (Fin 0) (Fin 30)
                    (Fin 0) (Fin 4) (Fin 6) (Fin 1)) = None
  /\ List.length (fst (drawBars (Fin 10) (Fin 10) (Fin 310) l (Fin 0) (Fin 30)
                                (Fin 0) (Fin 4) (Fin 6) (Fin 1))) = 18%nat.
Proof. repeat split. Qed.

(** ** DataLoader: expansion and sort *)

Lemma sort_insert_perm (cmp : Bar -> Bar -> num) (x : Bar) (l : list Bar) :
  Permutation (sort_insert cmp x l) (x :: l).
Proof.
  induction l as [|y l IH]; cbn [sort_insert]; [reflexivity |].
  destruct (ngt (cmp x y) (Fin 0)); [| reflexivity].
  rewrite IH. apply perm_swap.
Qed.

Lemma sort_perm (cmp : Bar -> Bar -> num) (l : list Bar) :
  Permutation (sort cmp l) l.
Proof.
  induction l as [|x l IH]; cbn [sort fold_right]; [reflexivity |].
  fold (sort cmp l). rewrite sort_insert_perm. now constructor.
Qed.

Lemma byTime_order (x y : Bar) :
  is_nan (Time x) = false -> is_nan (Time y) = false ->
  if ngt (byTime x y) (Fin 0) then time_le y x else time_le x y.
Proof.
  unfold byTime, time_le.
  destruct (Time x) as [| | |a]; try discriminate;
    destruct (Time y) as [| | |b]; try discriminate;
    intros _ _; cbn; trivial; qbool; lra.
Qed.

Lemma time_le_trans (x y z : Bar) :
  time_le x y -> time_le y z -> time_le x z.
Proof.
  unfold time_le.
  destruct (Time x), (Time y), (Time z); cbn; trivial; try discriminate.
  intros ? ?. qbool; lra.
Qed.

Lemma sort_insert_sorted (x : Bar) (l : list Bar) :
  is_nan (Time x) = false ->
  Forall (fun b => is_nan (Time b) = false) l ->
  StronglySorted time_le l ->
  StronglySorted time_le (sort_insert byTime x l).
Proof.
  intros Hx Hfin Hs. induction Hs as [|y l Hs IH Hy]; cbn [sort_insert].
  - repeat constructor.
  - inversion Hfin as [|? ? Hfy Hfl]; subst.
    pose proof (byTime_order x y Hx Hfy) as Ho.
    destruct (ngt (byTime x y) (Fin 0)).
    + constructor; [now apply IH |].
      rewrite (sort_insert_perm byTime x l). now constructor.
    + constructor; [now constructor |].
      constructor; trivial.
      apply Forall_impl with (2 := Hy). intros z Hz.
      now apply time_le_trans with y.
Qed.

Lemma sort_sorted (l : list Bar) :
  Forall (fun b => is_nan (Time b) = false) l ->
  StronglySorted time_le (sort byTime l).
Proof.
  induction 1 as [|x l Hx Hl IH]; cbn [sort fold_right]; [constructor |].
  fold (sort byTime l). apply sort_insert_sorted; trivial.
  now rewrite (sort_perm byTime l).
Qed.

Lemma expand_chunks_times (chunks : list BarChunk) :
  times_are_numbers chunks = true ->
  Forall (fun b => is_nan (Time b) = false) (expand_chunks chunks).
Proof.
  unfold times_are_numbers, expand_chunks. intro H.
  apply Forall_forall. intros b Hb.
  apply in_flat_map in Hb as (chunk & Hc & Hb).
  apply in_map_iff in Hb as (entry & <- & He).
  rewrite forallb_forall in H. specialize (H chunk Hc).
  rewrite forallb_forall in H. specialize (H entry He).
  cbn [expand_entry Time]. now apply negb_true_iff in H.
Qed.

(** C6.  For a chunked payload whose times are numbers the loader returns
    the bars of all chunks: each entry of each chunk once, with
    [Time = entry time + ChunkStart], a missing price replaced by 0 and the
    tick volume as it is, in ascending order of [Time].  A chunk starting
    at 1000 with an entry at 5 gives a bar at 1005.  A body that is not an
    array makes the loader throw its format error. *)
Theorem chunked_expansion (statusText : string) (chunks : list BarChunk) :
  times_are_numbers chunks = true ->
  (exists progress loaded,
      loadForexTesterChunk (Response true statusText (Some (JChunks chunks)))
      = (progress, Ok loaded)
      /\ Permutation loaded (expand_chunks chunks)
      /\ StronglySorted time_le loaded
      /\ (forall b, In b loaded <->
            exists chunk entry,
              In chunk chunks /\ In entry (Bars chunk)
              /\ b = expand_entry (ChunkStart chunk) entry))
  /\ (forall start entry,
        let b := expand_entry start entry in
        Time b = nadd (cTime entry) start
        /\ Open b = match cOpen entry with Some x => x | None => Fin 0 end
        /\ High b = match cHigh entry with Some x => x | None => Fin 0 end
        /\ Low b = match cLow entry with Some x => x | None => Fin 0 end
        /\ Close b = match cClose entry with Some x => x | None => Fin 0 end
        /\ TickVolume b = cTickVolume entry)
  /\ (forall o h l c v,
        neqv (Time (expand_entry (Fin 1000) (mkChunkBar (Fin 5) o h l c v)))
             (Fin 1005))
  /\ (exists progress,
        loadForexTesterChunk (Response true statusText (Some JOther))
        = (progress, Throw (Error "Unexpected data format"))).
Proof.
  intro Hfin. repeat split.
  - rewrite load_chunks. eexists. eexists. split; [reflexivity |].
    split; [apply sort_perm |].
    split; [apply sort_sorted, expand_chunks_times, Hfin |].
    intro b. split.
    + intro Hb. apply (Permutation_in _ (sort_perm byTime _)) in Hb.
      apply in_flat_map in Hb as (chunk & Hc & Hb).
      apply in_map_iff in Hb as (entry & <- & He).
      now exists chunk, entry.
    + intros (chunk & entry & Hc & He & ->).
      apply (Permutation_in _ (Permutation_sym (sort_perm byTime _))).
      apply in_flat_map. exists chunk. split; trivial.
      now apply in_map.
  - eexists. reflexivity.
Qed.

Lemma chunked_expansion_witness :
  let chunks :=
    [mkBarChunk (Fin 2000) [mkChunkBar (Fin 3) (Some (Fin 1)) None None None (Fin 7)];
     mkBarChunk (Fin 1000)
       [mkChunkBar (Fin 500) None None None None (Fin 2);
        mkChunkBar (Fin 5) (Some (Fin 1)) (Some (Fin 2)) None (Some (Fin 1)) (Fin 9)]] in
  exists progress loaded,
    loadForexTesterChunk (Response true "OK" (Some (JChunks chunks)))
    = (progress, Ok loaded)
    /\ StronglySorted time_le loaded.
Proof.
  intro chunks.
  destruct (chunked_expansion "OK" chunks eq_refl)
    as ((progress & loaded & Hload & _ & Hsorted & _) & _).
  now exists progress, loaded.
Defined.

Example chunked_expansion_example :
  let chunks :=
    [mkBarChunk (Fin 2000) [mkChunkBar (Fin 3) (Some (Fin 1)) None None None (Fin 7)];
     mkBarChunk (Fin 1000)
       [mkChunkBar (Fin 500) None None None None (Fin 2);
        mkChunkBar (Fin 5) (Some (Fin 1)) (Some (Fin 2)) None (Some (Fin 1)) (Fin 9)]] in
  snd (loadForexTesterChunk (Response true "OK" (Some (JChunks chunks))))
  = Ok [mkBar (Fin (5 + 1000)) (Fin 1) (Fin 2) (Fin 0) (Fin 1) (Fin 9);
        mkBar (Fin (500 + 1000)) (Fin 0) (Fin 0) (Fin 0) (Fin 0) (Fin 2);
        mkBar (Fin (3 + 2000)) (Fin 1) (Fin 0) (Fin 0) (Fin 0) (Fin 7)].
Proof. reflexivity. Qed.

(** ** Chart: loading *)

Lemma setLoading_keeps (c : Chart) (l : bool) (p : num) (m : string) :
  bars (setLoading c l p m) = bars c
  /\ viewport (setLoading c l p m) = viewport c
  /\ isLoading (setLoading c l p m) = l.
Proof.
  unfold setLoading, scheduleRender. cbn.
  now destruct (animHandle c).
Qed.

Lemma progress_keeps (progress : list (num * string)) (c : Chart) :
  let c' := fold_left (fun c pm => setLoading c true (fst pm) (snd pm)) progress c in
  bars c' = bars c /\ viewport c' = viewport c.
Proof.
  revert c. induction progress as [|pm progress IH]; intro c; cbn; [auto |].
  destruct (IH (setLoading c true (fst pm) (snd pm))) as [-> ->].
  destruct (setLoading_keeps c true (fst pm) (snd pm)) as (-> & -> & _). auto.
Qed.

Lemma showVolume_setLoading (c : Chart) (l : bool) (p : num) (m : string) :
  showVolume (setLoading c l p m) = showVolume c.
Proof. unfold setLoading, scheduleRender. cbn. now destruct (animHandle c). Qed.

Lemma progress_keeps_showVolume (progress : list (num * string)) (c : Chart) :
  showVolume (fold_left (fun c pm => setLoading c true (fst pm) (snd pm))
                        progress c)
  = showVolume c.
Proof.
  revert c. induction progress as [|pm progress IH]; intro c; cbn; [reflexivity |].
  rewrite IH. apply showVolume_setLoading.
Qed.

Lemma animHandle_scheduleRender (c : Chart) : animHandle (scheduleRender c) = true.
Proof. unfold scheduleRender. now destruct (animHandle c) eqn:E. Qed.

Lemma animHandle_setLoading (c : Chart) (l : bool) (p : num) (m : string) :
  animHandle (setLoading c l p m) = true.
Proof. unfold setLoading. apply animHandle_scheduleRender. Qed.

(** What a frame draws depends on the bars, the viewport, the
    configuration and the loading state only. *)
Lemma render_same (canvas : Canvas) (c1 c2 : Chart) :
  bars c1 = bars c2 -> viewport c1 = viewport c2 ->
  showVolume c1 = showVolume c2 ->
  isLoading c1 = false -> isLoading c2 = false ->
  snd (render canvas c1) = snd (render canvas c2).
Proof.
  intros Hb Hv Hs H1 H2.
  destruct c1 as [b1 v1 a1 d1 x1 t1 p1 pv1 ip1 l1 lp1 lm1 tx1 s1].
  destruct c2 as [b2 v2 a2 d2 x2 t2 p2 pv2 ip2 l2 lp2 lm2 tx2 s2].
  cbn in Hb, Hv, Hs, H1, H2. subst.
  unfold render, getVisibleRange, render_clamp. cbn [viewport bars].
  destruct (ngt _ (nadd (length_num b2) (Fin 50)));
    unfold set_viewport, calculatePriceRange;
    cbn [isLoading bars viewport showVolume animHandle];
    destruct (for_bars b2 _ _ _ (PInf, NInf)) as [mn mx];
    destruct (negb (isFinite mn) || negb (isFinite mx));
    reflexivity.
Qed.

(** C8.  When the load fails (the loader throws [e]), [loadData] rethrows
    [e], leaves [isLoading = false], leaves the bars (and the viewport) as
    they were and requests a frame; on a chart that was not loading that
    frame draws what a frame drew before the load.  The load fails on a
    rejected fetch, a response that is not OK, a body that does not decode,
    a body that is not an array and a malformed array. *)
Theorem loadData_failure (c : Chart) (res : response) :
  (forall e, snd (loadForexTesterChunk res) = Throw e ->
     snd (loadData c res) = Some e
     /\ isLoading (fst (loadData c res)) = false
     /\ bars (fst (loadData c res)) = bars c
     /\ viewport (fst (loadData c res)) = viewport c
     /\ animHandle (fst (loadData c res)) = true
     /\ (isLoading c = false ->
         forall canvas,
           snd (render canvas (fst (loadData c res))) = snd (render canvas c)))
  /\ (load_fails res = true ->
      exists e, snd (loadForexTesterChunk res) = Throw e).
Proof.
  split.
  - intros e He. unfold loadData.
    destruct (loadForexTesterChunk res) as [progress outcome].
    cbn [snd] in He. subst outcome. cbn [fst snd].
    unfold setLoading_false.
    set (c1 := setLoading c true (Fin 0) "Starting data load...").
    destruct (progress_keeps progress c1) as [Hb Hv].
    pose proof (progress_keeps_showVolume progress c1) as Hs.
    destruct (setLoading_keeps c true (Fin 0) "Starting data load...")
      as (Hb1 & Hv1 & _).
    pose proof (showVolume_setLoading c true (Fin 0) "Starting data load...")
      as Hs1.
    set (c2 := fold_left (fun c pm => setLoading c true (fst pm) (snd pm))
                         progress c1) in *.
    destruct (setLoading_keeps c2 false (Fin 0) "Loading data...")
      as (Hb3 & Hv3 & Hl3).
    pose proof (showVolume_setLoading c2 false (Fin 0) "Loading data...") as Hs3.
    fold c1 in Hb1, Hv1, Hs1.
    split; [reflexivity |]. split; [exact Hl3 |].
    split; [congruence |]. split; [congruence |].
    split; [apply animHandle_setLoading |].
    intros Hl canvas. apply render_same; congruence.
  - pose proof (load_fails_spec res) as H.
    destruct (snd (loadForexTesterChunk res)) as [loaded | e].
    + intro F. congruence.
    + intros _. now exists e.
Qed.

Lemma loadData_failure_witness :
  let prior :=
    [mkBar (Fin 60) (Fin 1.5) (Fin 2) (Fin 1.25) (Fin 1.75) (Fin 10);
     mkBar (Fin 120) (Fin 1.75) (Fin 1.875) (Fin 1.5) (Fin 1.625) (Fin 12)] in
  let c := fst (frame (mkCanvas (Fin 800) (Fin 600) (Fin 800) (Fin 600) (Fin 1))
                      (setInitialData (new_Chart false) prior)) in
  let number := ElemObj (mkObject None NaN NaN NaN NaN NaN NaN NotIterable) in
  let res := Response true "OK" (Some (JArray [number; number])) in
  snd (loadData c res) = Some TypeError
  /\ isLoading (fst (loadData c res)) = false
  /\ bars (fst (loadData c res)) = prior
  /\ animHandle c = false
  /\ animHandle (fst (loadData c res)) = true
  /\ forall canvas,
       snd (render canvas (fst (loadData c res))) = snd (render canvas c).
Proof.
  intros prior c number res.
  destruct (loadData_failure c res) as [H _].
  destruct (H TypeError eq_refl) as (He & Hl & Hb & _ & Ha & Hr).
  split; [exact He |]. split; [exact Hl |]. split; [exact Hb |].
  split; [reflexivity |]. split; [exact Ha |].
  apply Hr. reflexivity.
Defined.

(** ** The invariant holds of a new chart and across loads *)

Example new_Chart_ok (config_showVolume : bool) :
  chart_ok (new_Chart config_showVolume) = true.
Proof. reflexivity. Qed.

Lemma chart_ok_setLoading (c : Chart) (l : bool) (p : num) (m : string) :
  chart_ok (setLoading c l p m) = chart_ok c.
Proof. unfold setLoading. now rewrite chart_ok_scheduleRender. Qed.

Lemma chart_ok_progress (progress : list (num * string)) (c : Chart) :
  chart_ok (fold_left (fun c pm => setLoading c true (fst pm) (snd pm)) progress c)
  = chart_ok c.
Proof.
  revert c. induction progress as [|pm progress IH]; intro c; cbn; trivial.
  now rewrite IH, chart_ok_setLoading.
Qed.

Lemma setInitialData_ok (c : Chart) (newBars : list Bar) :
  chart_ok c = true -> chart_ok (setInitialData c newBars) = true.
Proof.
  intro H. unfold setInitialData. rewrite chart_ok_scheduleRender.
  chart_ok_start H. apply chart_ok_iff. cbn. repeat split; trivial.
  apply set_offsetIndex_ok; trivial.
  destruct (visibleCount (viewport c)); try discriminate. reflexivity.
Qed.

Lemma loadData_ok (c : Chart) (res : response) :
  chart_ok c = true -> chart_ok (fst (loadData c res)) = true.
Proof.
  intro H. unfold loadData.
  destruct (loadForexTesterChunk res) as [progress [newBars | e]]; cbn [fst];
    unfold setLoading_false; rewrite chart_ok_setLoading.
  - apply setInitialData_ok.
    now rewrite chart_ok_progress, chart_ok_setLoading.
  - now rewrite chart_ok_progress, chart_ok_setLoading.
Qed.

(* ================================================================== *)
(** * Further properties of the code *)
(* ================================================================== *)

(** ** Viewport: zooming in, zoom limits, drags *)

Lemma Qdiv_le_denominator (p a b : Q) :
  0 <= p -> 0 < a -> a <= b -> p / b <= p / a.
Proof.
  intros Hp Ha Hab.
  assert (Hb : 0 < b) by lra.
  apply Qle_shift_div_l; trivial.
  assert (E : p / b * a == p * (a / b)) by (field; lra).
  rewrite E.
  assert (a / b <= 1) by (apply Qle_shift_div_r; lra).
  assert (0 <= a / b) by (apply Qle_shift_div_l; lra).
  nra.
Qed.

(** The clamped width does not go below the current one for a factor
    [>= 1], nor above it for a factor [<= 1]. *)
Lemma zoom_newBarWidth_in (v : Viewport) (f : num) (w m : Q) :
  barWidth v = Fin w -> maxBarWidth v = Fin m -> 1 <= w -> w <= m ->
  nle (Fin 1) f = true ->
  exists w', zoom_newBarWidth v f = Fin w' /\ w <= w' <= m.
Proof.
  unfold zoom_newBarWidth. intros -> -> Hw Hm Hf.
  destruct f as [| | |f]; try discriminate; num_ops; qbool;
    try (exfalso; nra); eexists; (split; [reflexivity | nra]).
Qed.

Lemma zoom_newBarWidth_out (v : Viewport) (f : num) (w m : Q) :
  barWidth v = Fin w -> maxBarWidth v = Fin m -> 1 <= w -> w <= m ->
  nle f (Fin 1) = true ->
  exists w', zoom_newBarWidth v f = Fin w' /\ 1 <= w' <= w.
Proof.
  unfold zoom_newBarWidth. intros -> -> Hw Hm Hf.
  destruct f as [| | |f]; try discriminate; num_ops; qbool;
    try (exfalso; nra); eexists; (split; [reflexivity | nra]).
Qed.

Lemma zoom_newOffset_in (v : Viewport) (p : Q) (f : num) (o w s m : Q) :
  offsetIndex v = Fin o -> barWidth v = Fin w -> spacing v = Fin s ->
  maxBarWidth v = Fin m -> 1 <= w -> w <= m -> 0 <= s ->
  0 <= p -> nle (Fin 1) f = true ->
  exists x, zoom_newOffset v (Fin p) f = Fin x /\ o <= x.
Proof.
  intros Ho Hw Hs Hm H1 H2 H3 Hp Hf.
  destruct (zoom_newBarWidth_in v f w m Hw Hm H1 H2 Hf) as (w' & E & Hw').
  unfold zoom_newOffset, index_at. rewrite E, Ho, Hw, Hs. cbn.
  qbool; try lra; cbn; eexists; (split; [reflexivity |]);
    pose proof (Qdiv_le_denominator p (w + s) (w' + s)); lra.
Qed.

(** X1.  Zooming in keeps the pivot: on a viewport within its invariant,
    for a pivot pixel [p >= 0] and a factor [f >= 1] (infinite included),
    [zoomAt] never clamps, so the logical index under [p] is the same
    afterwards; neither the offset nor the width decreases. *)
Theorem zoomAt_in_keeps_pivot (v : Viewport) (p : Q) (f : num) :
  viewport_ok v = true -> 0 <= p -> nle (Fin 1) f = true ->
  pivot_invariant v (Fin p) f
  /\ nle (offsetIndex v) (offsetIndex (zoomAt v (Fin p) f)) = true
  /\ nle (barWidth v) (barWidth (zoomAt v (Fin p) f)) = true.
Proof.
  intros Hok Hp Hf.
  destruct (viewport_ok_inv v Hok) as (o & w & s & m & Ho & Hw & Hs & Hm & I).
  destruct I as (I0 & I1 & I2 & I3).
  destruct (zoom_newOffset_in v p f o w s m) as (x & Ex & Hx); trivial.
  destruct (zoom_newBarWidth_in v f w m Hw Hm I1 I2 Hf) as (w' & Ew & Hw').
  split; [| split].
  - apply zoomAt_pivot; trivial. right. rewrite Ex. cbn.
    apply Qle_bool_iff. lra.
  - rewrite zoomAt_offsetIndex, Ex, Ho.
    destruct (zoom_noop v f); cbn; qbool; cbn; qbool; lra.
  - rewrite zoomAt_barWidth, Ew, Hw.
    destruct (zoom_noop v f); cbn; qbool; lra.
Qed.

Lemma zoomAt_in_keeps_pivot_witness :
  pivot_invariant (new_Viewport (Fin 200)) (Fin 100) (Fin 1.02).
Proof.
  apply (zoomAt_in_keeps_pivot (new_Viewport (Fin 200)) 100 (Fin 1.02));
    [reflexivity | discriminate | reflexivity].
Defined.

(** X2.  At its limits the zoom is stable: with [barWidth = maxBarWidth] a
    factor [>= 1], and with [barWidth = 1] a factor [<= 1], leave the whole
    viewport as it is, whatever the pivot. *)
Theorem zoomAt_at_limit (v : Viewport) (p f : num) :
  width_in_range v = true ->
  (neqv (barWidth v) (maxBarWidth v) -> nle (Fin 1) f = true ->
   zoomAt v p f = v)
  /\ (neqv (barWidth v) (Fin 1) -> nle f (Fin 1) = true ->
      zoomAt v p f = v).
Proof.
  unfold width_in_range. intro Hr.
  destruct (barWidth v) as [| | |w] eqn:Hw; try discriminate.
  destruct (maxBarWidth v) as [| | |m] eqn:Hm; try discriminate.
  apply andb_true_iff in Hr as [H1 H2].
  apply Qle_bool_iff in H1, H2. cbn [neqv].
  split; intros He Hf; unfold zoomAt.
  - destruct (zoom_newBarWidth_in v f w m Hw Hm H1 H2 Hf) as (w' & -> & Hw').
    rewrite Hw.
    assert (T : nlt (nabs (nsub (Fin w') (Fin w))) (Fin 0.01) = true)
      by (cbn; qbool; cbn; qbool; lra).
    now rewrite T.
  - destruct (zoom_newBarWidth_out v f w m Hw Hm H1 H2 Hf) as (w' & -> & Hw').
    rewrite Hw.
    assert (T : nlt (nabs (nsub (Fin w') (Fin w))) (Fin 0.01) = true)
      by (cbn; qbool; cbn; qbool; lra).
    now rewrite T.
Qed.

Lemma zoomAt_at_limit_witness :
  zoomAt (set_barWidth (new_Viewport (Fin 200)) (Fin 20)) (Fin 100) (Fin 1.02)
  = set_barWidth (new_Viewport (Fin 200)) (Fin 20).
Proof.
  destruct (zoomAt_at_limit (set_barWidth (new_Viewport (Fin 200)) (Fin 20))
              (Fin 100) (Fin 1.02) eq_refl) as [H _].
  apply H; reflexivity.
Defined.

(** X3.  A drag moves the content with the pointer: on a viewport within
    its invariant, after [panBy(d)] the logical index under pixel [p + d]
    is the one that was under [p], as long as the offset is not clamped at
    0; when it is clamped the index under [p + d] is the larger one. *)
Theorem panBy_follows_pointer (v : Viewport) (p d : Q) :
  viewport_ok v = true ->
  (nle (Fin 0) (pan_target v (Fin d)) = true ->
   neqv (index_at (panBy v (Fin d)) (Fin (p + d))) (index_at v (Fin p)))
  /\ nle (index_at v (Fin p)) (index_at (panBy v (Fin d)) (Fin (p + d))) = true.
Proof.
  intro Hok.
  destruct (viewport_ok_inv v Hok) as (o & w & s & m & Ho & Hw & Hs & Hm & I).
  unfold index_at, pan_target.
  rewrite panBy_offsetIndex. unfold pan_target.
  cbn [panBy barWidth spacing]. rewrite Ho, Hw, Hs. cbn.
  qbool; try lra; cbn; split; qbool; cbn; qbool; try lra.
  all: try (intros _; field; lra).
  all: assert (Ed : (p + d) / (w + s) == p / (w + s) + d * 1 / (w + s))
         by (field; lra); lra.
Qed.

Lemma panBy_follows_pointer_witness :
  neqv (index_at (panBy (set_offsetIndex (new_Viewport (Fin 200)) (Fin 30)) (Fin 70))
                 (Fin (100 + 70)))
       (index_at (set_offsetIndex (new_Viewport (Fin 200)) (Fin 30)) (Fin 100)).
Proof.
  destruct (panBy_follows_pointer
              (set_offsetIndex (new_Viewport (Fin 200)) (Fin 30)) 100 70 eq_refl)
    as [H _].
  apply H. reflexivity.
Defined.

(** X4.  Pans add up: on a viewport within its invariant, [panBy(d1)]
    followed by [panBy(d2)] leaves the offset of [panBy(d1 + d2)] whenever
    the first pan is not clamped at 0 or the second goes to the right
    ([d2 >= 0]). *)
Theorem panBy_compose (v : Viewport) (d1 d2 : Q) :
  viewport_ok v = true ->
  nle (Fin 0) (pan_target v (Fin d1)) = true \/ 0 <= d2 ->
  neqv (offsetIndex (panBy (panBy v (Fin d1)) (Fin d2)))
       (offsetIndex (panBy v (Fin (d1 + d2)))).
Proof.
  intros Hok H.
  destruct (viewport_ok_inv v Hok) as (o & w & s & m & Ho & Hw & Hs & Hm & I).
  revert H. rewrite !panBy_offsetIndex. unfold pan_target.
  cbn [panBy barWidth spacing offsetIndex]. rewrite Ho, Hw, Hs. cbn.
  assert (Ed : (d1 + d2) * 1 / (w + s) == d1 * 1 / (w + s) + d2 * 1 / (w + s))
    by (field; lra).
  assert (E2 : 0 <= d2 -> 0 <= d2 * 1 / (w + s)).
  { intro. apply Qle_shift_div_l; lra. }
  qbool; try lra; cbn; qbool; cbn; qbool; try lra;
    intros [Hc | Hc]; try discriminate; try lra; specialize (E2 Hc); lra.
Qed.

Lemma panBy_compose_witness :
  neqv (offsetIndex (panBy (panBy (new_Viewport (Fin 200)) (Fin (-70))) (Fin 35)))
       (offsetIndex (panBy (new_Viewport (Fin 200)) (Fin (-70 + 35)))).
Proof.
  apply (panBy_compose (new_Viewport (Fin 200)) (-70) 35 eq_refl).
  left. reflexivity.
Defined.

(** ** Chart: what the listeners keep *)

Lemma same_data_refl (c : Chart) : same_data c c.
Proof. repeat split. Qed.

Lemma same_data_trans (c1 c2 c3 : Chart) :
  same_data c1 c2 -> same_data c2 c3 -> same_data c1 c3.
Proof.
  unfold same_data. intros (A1 & A2 & A3 & A4 & A5 & A6 & A7 & A8)
                           (B1 & B2 & B3 & B4 & B5 & B6 & B7 & B8).
  repeat split; congruence.
Qed.

Lemma same_data_scheduleRender (c : Chart) : same_data c (scheduleRender c).
Proof. unfold scheduleRender. destruct (animHandle c); repeat split. Qed.

Lemma same_data_panBy (c : Chart) (d : num) :
  same_data c (set_viewport c (panBy (viewport c) d)).
Proof. repeat split. Qed.

Lemma same_data_zoomAt (c : Chart) (p f : num) :
  same_data c (set_viewport c (zoomAt (viewport c) p f)).
Proof.
  unfold same_data. cbn.
  rewrite zoomAt_spacing, zoomAt_maxBarWidth, zoomAt_visibleCount.
  repeat split.
Qed.

Lemma same_data_updateMomentum (now : num) (c : Chart) :
  same_data c (fst (updateMomentum now c)).
Proof.
  unfold updateMomentum.
  destruct (negb (isPanning c)); [apply same_data_refl |].
  destruct (ngt _ _); cbn [fst]; [| repeat split].
  eapply same_data_trans; [| apply same_data_scheduleRender]. repeat split.
Qed.

Lemma same_data_render_clamp (c : Chart) (vc : num) :
  same_data c (render_clamp c vc).
Proof. unfold render_clamp. destruct (ngt _ _); repeat split. Qed.

Lemma same_data_handle (c : Chart) (e : event) : same_data c (handle c e).
Proof.
  destruct e; cbn [handle].
  - unfold on_wheel.
    eapply same_data_trans; [| apply same_data_scheduleRender].
    apply same_data_zoomAt.
  - repeat split.
  - unfold on_mousemove.
    destruct (negb (dragging c)); [apply same_data_refl |].
    destruct (nlt _ mouseMoveThrottle); [apply same_data_refl |].
    eapply same_data_trans; [| apply same_data_scheduleRender].
    destruct (ngt _ (Fin 0)); repeat split.
  - unfold on_mouseup.
    eapply same_data_trans; [| apply same_data_updateMomentum]. repeat split.
  - unfold on_dblclick.
    eapply same_data_trans; [| apply same_data_scheduleRender]. repeat split.
  - repeat split.
  - unfold on_touchmove.
    destruct (nlt _ mouseMoveThrottle); [apply same_data_refl |].
    eapply same_data_trans; [| apply same_data_scheduleRender].
    destruct (ngt _ (Fin 0)); repeat split.
  - unfold on_touchend.
    eapply same_data_trans; [| apply same_data_updateMomentum]. repeat split.
  - apply same_data_updateMomentum.
  - unfold frame. rewrite fst_render.
    eapply same_data_trans; [| apply same_data_render_clamp]. repeat split.
Qed.

(** X5.  No listener and no frame touches the data: after any run of
    events the bar array, the loading state, the configuration and the
    viewport's spacing, width limit and [visibleCount] field are what they
    were. *)
Theorem events_keep_data (es : list event) (c : Chart) :
  same_data c (handle_all es c).
Proof.
  revert c. induction es as [|e es IH]; intro c; [apply same_data_refl |].
  cbn. eapply same_data_trans; [apply same_data_handle | apply IH].
Qed.

Lemma viewport_scheduleRender (c : Chart) : viewport (scheduleRender c) = viewport c.
Proof. unfold scheduleRender. now destruct (animHandle c). Qed.

Lemma updateMomentum_redraw (now : num) (c : Chart) :
  viewport (fst (updateMomentum now c)) <> viewport c ->
  animHandle (fst (updateMomentum now c)) = true.
Proof.
  unfold updateMomentum.
  destruct (negb (isPanning c)); [now intros [] |].
  destruct (ngt _ _); cbn [fst]; [intros _; apply animHandle_scheduleRender |].
  now intros [].
Qed.

(** X6.  No change of the viewport goes unrendered: whenever an input
    event (wheel, mouse, touch, double click, momentum callback) leaves a
    viewport different from the one it found, a frame is requested. *)
Theorem viewport_change_requests_frame (c : Chart) (e : event) :
  is_input e = true ->
  viewport (handle c e) <> viewport c ->
  animHandle (handle c e) = true.
Proof.
  destruct e; cbn [is_input handle]; intros He Hv; try discriminate.
  - apply animHandle_scheduleRender.
  - now destruct Hv.
  - revert Hv. unfold on_mousemove.
    destruct (negb (dragging c)); [now intros [] |].
    destruct (nlt _ mouseMoveThrottle); [now intros [] |].
    intros _. apply animHandle_scheduleRender.
  - now apply updateMomentum_redraw.
  - apply animHandle_scheduleRender.
  - now destruct Hv.
  - revert Hv. unfold on_touchmove.
    destruct (nlt _ mouseMoveThrottle); [now intros [] |].
    intros _. apply animHandle_scheduleRender.
  - now apply updateMomentum_redraw.
  - now apply updateMomentum_redraw.
Qed.

Lemma viewport_change_requests_frame_witness :
  animHandle (handle (set_animHandle (new_Chart false) false)
                     (Wheel (Fin 100) (Fin 0) (Fin (-1)))) = true.
Proof.
  apply viewport_change_requests_frame; [reflexivity |].
  intro H. discriminate H.
Defined.

(** ** Chart: momentum is cancelled, frames settle *)

Lemma updateMomentum_idle (now : num) (c : Chart) :
  isPanning c = false -> updateMomentum now c = (c, false).
Proof. unfold updateMomentum. now intros ->. Qed.

Lemma cancelled_not_panning (c : Chart) (e : event) :
  cancels_momentum e = true ->
  isPanning (handle c e) = false /\ panVelocity (handle c e) = Fin 0.
Proof.
  destruct e; try discriminate; intros _; cbn [handle]; [now split | | now split].
  unfold on_dblclick, scheduleRender. cbn. now destruct (animHandle c).
Qed.

(** X7.  A new drag and a double click cancel the momentum: after a mouse
    down, a touch start or a double click the velocity is 0 and panning is
    off, and the momentum callbacks still due do nothing, they change no
    field and request no further run. *)
Theorem momentum_cancelled (c : Chart) (e : event) (nows : list num) :
  cancels_momentum e = true ->
  panVelocity (handle c e) = Fin 0
  /\ (forall now, updateMomentum now (handle c e) = (handle c e, false))
  /\ handle_all (map MomentumFrame nows) (handle c e) = handle c e.
Proof.
  intro He. destruct (cancelled_not_panning c e He) as [Hp Hv].
  split; [exact Hv | split].
  - intro now. now apply updateMomentum_idle.
  - induction nows as [|now nows IH]; [reflexivity |].
    cbn [map handle_all fold_left handle].
    rewrite (updateMomentum_idle now _ Hp). exact IH.
Qed.

Lemma momentum_cancelled_witness :
  let c := set_panVelocity (set_isPanning (new_Chart false) true) (Fin 30) in
  handle_all (map MomentumFrame [Fin 16; Fin 32]) (handle c (MouseDown (Fin 5) (Fin 8)))
  = handle c (MouseDown (Fin 5) (Fin 8)).
Proof.
  intro c.
  destruct (momentum_cancelled c (MouseDown (Fin 5) (Fin 8)) [Fin 16; Fin 32] eq_refl)
    as (_ & _ & H).
  exact H.
Defined.

Lemma render_clamp_twice (c : Chart) (vc : num) :
  render_clamp (render_clamp c vc) vc = render_clamp c vc.
Proof.
  destruct (ngt (nadd (offsetIndex (viewport c)) vc)
                (nadd (length_num (bars c)) (Fin 50))) eqn:E.
  - assert (H : render_clamp c vc
                = set_viewport c
                    (set_offsetIndex (viewport c)
                       (nmax (Fin 0)
                          (nadd (nsub (length_num (bars c)) vc) (Fin 50)))))
      by (unfold render_clamp; now rewrite E).
    rewrite H. unfold render_clamp.
    cbn [bars viewport set_viewport set_offsetIndex offsetIndex].
    match goal with |- (if ?t then _ else _) = _ => destruct t end; reflexivity.
  - assert (H : render_clamp c vc = c) by (unfold render_clamp; now rewrite E).
    now rewrite !H.
Qed.

(** X8.  Frames settle: a second frame on the same canvas leaves the chart
    exactly as the first one did (the clamp of [render] moves the offset
    once), and no frame leaves a frame requested. *)
Theorem frame_settles (canvas : Canvas) (c : Chart) :
  fst (frame canvas (fst (frame canvas c))) = fst (frame canvas c)
  /\ animHandle (fst (frame canvas c)) = false.
Proof.
  unfold frame. rewrite !fst_render.
  assert (Ha : forall c0 vc, animHandle c0 = false ->
                 set_animHandle (render_clamp c0 vc) false = render_clamp c0 vc).
  { intros c0 vc H. unfold render_clamp. destruct (ngt _ _).
    - destruct c0; cbn in *; now subst.
    - destruct c0; cbn in *; now subst. }
  rewrite !Ha by reflexivity. rewrite getVisibleRange_render_clamp.
  split; [apply render_clamp_twice |].
  unfold render_clamp. now destruct (ngt _ _).
Qed.

(** ** Chart: when a frame throws *)

Lemma snd_and_then (d1 d2 : draw) :
  snd (d1 ;; d2) = match snd d1 with Some e => Some e | None => snd d2 end.
Proof. destruct d1 as [cs [e|]]; reflexivity. Qed.

Lemma snd_withSaveRestore (fn : draw) : snd (withSaveRestore fn) = snd fn.
Proof.
  unfold withSaveRestore. rewrite !snd_and_then. cbn.
  now destruct (snd fn).
Qed.

Lemma snd_drawGraph (left top bottom : num) (l : list Bar)
    (startIndex visibleCount minPrice maxPrice barWidth spacing : num) :
  snd (drawGraph left top bottom l startIndex visibleCount minPrice maxPrice
                 barWidth spacing)
  = match index l (nadd startIndex (Fin 0)) with
    | Some _ => None
    | None => Some TypeError
    end.
Proof.
  unfold drawGraph. rewrite snd_withSaveRestore.
  destruct (index l (nadd startIndex (Fin 0))); [| reflexivity].
  now rewrite !snd_and_then.
Qed.

(** What a frame throws, if anything. *)
Lemma frame_outcome (canvas : Canvas) (c : Chart) :
  snd (snd (frame canvas c))
  = if isLoading c then None
    else match index (bars c) (nadd (nfloor (offsetIndex (viewport c))) (Fin 0)) with
         | Some _ => None
         | None => Some TypeError
         end.
Proof.
  unfold frame, render.
  destruct (getVisibleRange canvas (set_animHandle c false)) as [vc si] eqn:Hr.
  assert (Hsi : si = nfloor (offsetIndex (viewport c))).
  { unfold getVisibleRange in Hr. now inversion Hr. }
  destruct (same_data_render_clamp (set_animHandle c false) vc)
    as (Hb & Hl & _).
  cbn [bars isLoading set_animHandle] in Hb, Hl.
  rewrite Hl. destruct (isLoading c).
  - cbn [snd]. rewrite !snd_and_then. reflexivity.
  - destruct (calculatePriceRange _ _ _) as [mn mx]. cbn [snd].
    rewrite !snd_and_then. cbn [clear drawBackground emit snd].
    rewrite snd_drawGraph, Hb, Hsi.
    destruct (index (bars c) _); [| reflexivity].
    unfold drawBars, drawTickVolumes, drawPriceScale, drawVolumeScale,
      drawDateLabels.
    rewrite !snd_withSaveRestore. cbn.
    now destruct (showVolume (render_clamp (set_animHandle c false) vc));
      rewrite ?snd_withSaveRestore.
Qed.

(** X9.  A frame throws exactly when the chart is not loading and the
    bar array has no element at [Math.floor(offsetIndex)], the start index
    read before the clamp: the value thrown is then the [TypeError] of
    [drawGraph]; while loading, or with a bar at the start index, the frame
    completes. *)
Theorem frame_throws_iff (canvas : Canvas) (c : Chart) :
  snd (snd (frame canvas c))
  = if isLoading c then None
    else match index (bars c) (nadd (nfloor (offsetIndex (viewport c))) (Fin 0)) with
         | Some _ => None
         | None => Some TypeError
         end.
Proof. apply frame_outcome. Qed.

(** ** Renderer: what the bar passes draw *)

Section WindowTable.
Context {X A : Type}.
Variable fetch : num -> option X.
Variable s : nat.
(** What the loop reads at counter [i], as a list. *)
Variable xs : list X.
Hypothesis fetch_table :
  forall i, fetch (nfloor (nadd (of_nat s) (of_nat i))) = nth_error xs i.
Variable body : nat -> X -> A -> A.
Variable n : nat.

(** The loop is a fold over the entries it reads, each with its counter. *)
Lemma for_window_table (fuel i : nat) (acc : A) :
  (List.length xs - i < fuel)%nat ->
  for_window fetch body (of_nat s) (of_nat n) fuel i acc
  = fold_left (fun a kx => body (fst kx) (snd kx) a)
              (combine (List.seq i (n - i)) (skipn i xs)) acc.
Proof.
  revert i acc. induction fuel as [|fuel IH]; intros i acc Hf; [lia |].
  cbn [for_window]. rewrite nlt_of_nat, fetch_table.
  destruct (i <? n)%nat eqn:E.
  - apply Nat.ltb_lt in E.
    destruct (nth_error xs i) as [x|] eqn:Hx.
    + rewrite (skipn_nth_error_Some _ _ _ Hx).
      replace (n - i)%nat with (S (n - S i)) by lia.
      cbn [List.seq combine fold_left fst snd].
      apply IH.
      assert (i < List.length xs)%nat by (apply nth_error_Some; congruence).
      lia.
    + rewrite (skipn_nth_error_None _ _ Hx).
      now rewrite combine_nil.
  - apply Nat.ltb_ge in E. replace (n - i)%nat with 0%nat by lia. reflexivity.
Qed.
End WindowTable.

Lemma fold_left_app_flat_map {X : Type} (f : X -> list cmd) (xs : list X)
    (acc : list cmd) :
  fold_left (fun a x => a ++ f x) xs acc = acc ++ flat_map f xs.
Proof.
  revert acc. induction xs as [|x xs IH]; intro acc; cbn.
  - now rewrite app_nil_r.
  - now rewrite IH, app_assoc.
Qed.

(** The bars a pass walks, each with its position in the window. *)
Lemma for_bars_numbered (l : list Bar) (s n : nat) (f : nat -> Bar -> list cmd) :
  for_bars l (of_nat s) (of_nat n) (fun i bar acc => acc ++ f i bar) []
  = flat_map (fun kb => f (fst kb) (snd kb))
             (combine (List.seq 0 n) (skipn s l)).
Proof.
  unfold for_bars.
  rewrite (for_window_table (index l) s (skipn s l)).
  - rewrite Nat.sub_0_r. cbn [skipn].
    now rewrite (fold_left_app_flat_map (fun kb => f (fst kb) (snd kb))).
  - intro i. rewrite index_of_nat. symmetry. apply nth_error_skipn.
  - rewrite length_skipn. lia.
Qed.

Lemma numbered_snd {X : Type} (xs : list X) (i n : nat) :
  map snd (combine (List.seq i n) xs) = firstn n xs.
Proof.
  revert i xs. induction n as [|n IH]; intros i xs; [reflexivity |].
  destruct xs as [|x xs]; [reflexivity |]. cbn. now rewrite IH.
Qed.

Lemma numbered_fst {X : Type} (xs : list X) (i n : nat) :
  map fst (combine (List.seq i n) xs) = List.seq i (Nat.min n (List.length xs)).
Proof.
  revert i xs. induction n as [|n IH]; intros i xs; [reflexivity |].
  destruct xs as [|x xs]; [reflexivity |]. cbn. now rewrite IH.
Qed.

Lemma length_window (l : list Bar) (s n : nat) :
  List.length (window l s n) = Nat.min n (List.length l - s).
Proof. unfold window. now rewrite length_firstn, length_skipn. Qed.

Lemma length_flat_map_const {X : Type} (f : X -> list cmd) (k : nat) (xs : list X) :
  (forall x, List.length (f x) = k) ->
  List.length (flat_map f xs) = (k * List.length xs)%nat.
Proof.
  intro H. induction xs as [|x xs IH]; cbn; [lia |].
  rewrite length_app, H, IH. lia.
Qed.


Lemma index_nat_eq {A : Type} (l : list A) (q : Q) (k : nat) :
  q == inject_Z (Z.of_nat k) -> index l (Fin q) = nth_error l k.
Proof.
  intro E. unfold index.
  rewrite (Qfloor_comp _ _ E), Qfloor_Z.
  assert (T : Qeq_bool (inject_Z (Z.of_nat k)) q = true)
    by (apply Qeq_bool_iff; now symmetry).
  rewrite T. cbn [andb].
  destruct (0 <=? Z.of_nat k)%Z eqn:Hz; [| apply Z.leb_gt in Hz; lia].
  now rewrite Nat2Z.id.
Qed.

Lemma nth_error_combine {X Y : Type} (a : list X) (b : list Y) (i : nat) :
  nth_error (combine a b) i
  = match nth_error a i, nth_error b i with
    | Some x, Some y => Some (x, y)
    | _, _ => None
    end.
Proof.
  revert a b. induction i as [|i IH]; intros [|x a] [|y b]; cbn; trivial.
  now destruct (nth_error a i).
Qed.

(** What the loop of [drawGraph] reads at counter [i]: the bars at
    [s + i] and [s + i + 1], when both exist. *)
Lemma graph_fetch_table (l : list Bar) (s i : nat) :
  graph_fetch l (nfloor (nadd (of_nat s) (of_nat i)))
  = nth_error (combine (skipn s l) (skipn (S s) l)) i.
Proof.
  unfold graph_fetch. rewrite index_of_nat.
  assert (E : index l (nadd (nfloor (nadd (of_nat s) (of_nat i))) (Fin 1))
              = nth_error l (S (s + i))).
  { unfold of_nat, nadd, nfloor. apply index_nat_eq.
    rewrite <- inject_Z_plus, Qfloor_Z.
    change 1 with (inject_Z 1). rewrite <- inject_Z_plus.
    apply inject_Z_injective. lia. }
  rewrite E, nth_error_combine, !nth_error_skipn.
  now replace (S s + i)%nat with (S (s + i)) by lia.
Qed.

Lemma fold_left_ext {X A : Type} (f g : A -> X -> A) (xs : list X) (acc : A) :
  (forall a x, f a x = g a x) -> fold_left f xs acc = fold_left g xs acc.
Proof.
  intro H. revert acc. induction xs as [|x xs IH]; intro acc; cbn; trivial.
  now rewrite H, IH.
Qed.



(** ** Volume maximum *)

Lemma greatest_of_snoc (f : Bar -> num) (pre : list Bar) (a : Q) (x : Bar) (h : Q) :
  greatest_of f pre a -> f x = Fin h ->
  greatest_of f (pre ++ [x]) (if Qle_bool a h then h else a).
Proof.
  intros [(b & Hb & Eb) Hle] Eh. split.
  - destruct (Qle_bool a h).
    + exists x. split; trivial. apply in_or_app. right. now left.
    + exists b. split; trivial. apply in_or_app. now left.
  - intros y Hy. apply in_app_or in Hy as [Hy | [<- | []]].
    + specialize (Hle y Hy). destruct (f y); try discriminate; trivial.
      cbn in *. qbool; lra.
    + rewrite Eh. cbn. qbool; lra.
Qed.

Lemma max_fold (f : Bar -> num) (rest pre : list Bar) (a : Q) :
  greatest_of f pre a ->
  (forall b, In b rest -> isFinite (f b) = true) ->
  exists mx,
    fold_left (fun m bar => nmax m (f bar)) rest (Fin a) = Fin mx
    /\ greatest_of f (pre ++ rest) mx.
Proof.
  revert pre a. induction rest as [|x rest IH]; intros pre a Ha Hfin.
  - exists a. rewrite app_nil_r. auto.
  - pose proof (Hfin x (or_introl eq_refl)) as Hx.
    destruct (f x) as [| | |h] eqn:Eh; try discriminate.
    cbn [fold_left]. rewrite Eh. cbn [nmax].
    replace (pre ++ x :: rest) with ((pre ++ [x]) ++ rest)
      by (now rewrite <- app_assoc).
    replace (if Qle_bool a h then Fin h else Fin a)
      with (Fin (if Qle_bool a h then h else a)) by (now destruct (Qle_bool a h)).
    apply IH.
    + now apply greatest_of_snoc.
    + intros y Hy. apply Hfin. now right.
Qed.

Lemma max_of_window (f : Bar -> num) (w : list Bar) :
  w <> [] -> (forall b, In b w -> isFinite (f b) = true) ->
  exists mx,
    fold_left (fun m bar => nmax m (f bar)) w NInf = Fin mx
    /\ greatest_of f w mx.
Proof.
  destruct w as [|x w]; [congruence |]. intros _ Hfin.
  pose proof (Hfin x (or_introl eq_refl)) as Hx.
  destruct (f x) as [| | |h] eqn:Eh; try discriminate.
  cbn [fold_left]. rewrite Eh. cbn [nmax].
  apply (max_fold f w [x] h).
  - split; [exists x; split; [now left | trivial] |].
    intros y [<- | []]. rewrite Eh. cbn. qbool; lra.
  - intros y Hy. apply Hfin. now right.
Qed.

Lemma padded_volume_nonzero (mx0 : num) :
  exists m,
    (let max := if negb (isFinite mx0) then Fin 1 else mx0 in
     let pad := nor (nmul max (Fin 0.05)) (Fin 0.000001) in
     nadd max pad) = Fin m
    /\ ~ m == 0.
Proof.
  destruct mx0 as [| | |mx]; cbn [isFinite negb].
  1-3: eexists; split; [reflexivity | intro H; discriminate H].
  cbn [nmul]. unfold nor, truthy.
  destruct (Qeq_bool (mx * 0.05) 0) eqn:E; cbn [negb nadd];
    eexists; (split; [reflexivity |]).
  - apply Qeq_bool_iff in E. lra.
  - apply Qeq_bool_false in E. lra.
Qed.

(** X12.  The volume maximum is safe to divide by: on every window of
    every bar array [calculateVolumeMax] is finite and not zero.  On an
    empty window it is 1.05; on a non-empty window of finite, non-negative
    tick volumes it is the greatest volume [mx] plus 5% (plus [1e-6] when
    [mx = 0]), strictly above every volume of the window, so that every
    height [v / maxVolume * 50] drawn by [drawTickVolumes] lies in
    [[0, 50)]. *)
Theorem calculateVolumeMax_post (c : Chart) (s n : nat) :
  (forall startIndex visibleCount : num,
      exists m, calculateVolumeMax c startIndex visibleCount = Fin m /\ ~ m == 0)
  /\ (window (bars c) s n = [] ->
      exists m, calculateVolumeMax c (of_nat s) (of_nat n) = Fin m /\ m == 1.05)
  /\ (window (bars c) s n <> [] -> volumes_ok (window (bars c) s n) ->
      exists mx,
        greatest_of TickVolume (window (bars c) s n) mx
        /\ calculateVolumeMax c (of_nat s) (of_nat n)
           = Fin (mx + volume_padding mx)
        /\ mx < mx + volume_padding mx
        /\ forall b t, In b (window (bars c) s n) -> TickVolume b = Fin t ->
             0 <= t / (mx + volume_padding mx) * 50 < 50).
Proof.
  split; [| split].
  - intros startIndex visibleCount. unfold calculateVolumeMax.
    apply padded_volume_nonzero.
  - unfold calculateVolumeMax.
    rewrite (for_bars_fold (bars c) (fun bar m => nmax m (TickVolume bar))).
    intros ->. cbn. eexists. split; reflexivity.
  - intros Hne Hvol. unfold calculateVolumeMax.
    rewrite (for_bars_fold (bars c) (fun bar m => nmax m (TickVolume bar))).
    destruct (max_of_window TickVolume _ Hne) as (mx & -> & Hmx).
    { intros b Hb. destruct (Hvol b Hb) as (t & -> & _). reflexivity. }
    exists mx. split; [exact Hmx |].
    assert (H0 : 0 <= mx).
    { destruct Hmx as [(b & Hb & Eb) _]. destruct (Hvol b Hb) as (t & Et & Ht).
      rewrite Et in Eb. inversion Eb; subst. exact Ht. }
    assert (Hp : 0 < volume_padding mx) by (unfold volume_padding; qbool; lra).
    split; [| split; [lra |]].
    + cbn. unfold volume_padding, nor, truthy.
      now destruct (Qeq_bool (mx * 0.05) 0).
    + intros b t Hb Et. destruct (Hvol b Hb) as (t' & Et' & Ht).
      rewrite Et in Et'. inversion Et'; subst t'.
      destruct Hmx as [_ Hle]. specialize (Hle b Hb). rewrite Et in Hle.
      cbn in Hle. apply Qle_bool_iff in Hle.
      set (M := mx + volume_padding mx) in *.
      assert (HM : 0 < M) by (subst M; lra).
      assert (Hq : 0 <= t / M) by (apply Qle_shift_div_l; lra).
      assert (Hq1 : t / M < 1) by (apply Qlt_shift_div_r; subst M; lra).
      lra.
Qed.

Lemma calculateVolumeMax_post_witness :
  let c :=
    setInitialData (new_Chart true)
      [mkBar (Fin 1) (Fin 1.10) (Fin 1.30) (Fin 1.05) (Fin 1.20) (Fin 10);
       mkBar (Fin 2) (Fin 1.20) (Fin 1.25) (Fin 1.15) (Fin 1.18) (Fin 12)] in
  exists mx, calculateVolumeMax c (of_nat 0) (of_nat 100)
             = Fin (mx + volume_padding mx)
             /\ mx < mx + volume_padding mx.
Proof.
  intro c. destruct (calculateVolumeMax_post c 0 100) as (_ & _ & H).
  destruct H as (mx & _ & Heq & Hlt & _).
  - discriminate.
  - intros b [<- | [<- | []]]; eexists; (split; [reflexivity | discriminate]).
  - now exists mx.
Defined.

(** ** Price to pixel *)

Lemma priceToY_finite (top bottom mn mx p : Q) :
  mn < mx ->
  priceToY (Fin top) (Fin bottom) (Fin mn) (Fin mx) (Fin p)
  = Fin (top + (mx - p) / (mx - mn) * (bottom - top)).
Proof. intro H. unfold priceToY. cbn. qbool; lra. Qed.

(** X13.  Candles stay inside the plot: for a plot with [top < bottom] and
    a non-empty window of bars whose prices are finite doubles and in which
    some bar has [Low <= High], whenever the range that
    [calculatePriceRange] returns is finite with [minPrice < maxPrice],
    [priceToY] maps its upper end to [top] and its lower end to [bottom],
    and every [High] and [Low] of the window between them: the high of a
    bar is not drawn above [top], its low not below [bottom], and the high
    not below the low when [Low <= High]. *)
Theorem candles_inside_plot (c : Chart) (s n : nat) (top bottom lo hi : Q) :
  top < bottom ->
  finite_prices (window (bars c) s n) ->
  double_prices (window (bars c) s n) ->
  (exists b0, In b0 (window (bars c) s n) /\ nle (Low b0) (High b0) = true) ->
  calculatePriceRange c (of_nat s) (of_nat n) = (Fin lo, Fin hi) ->
  lo < hi ->
  neqv (priceToY (Fin top) (Fin bottom) (Fin lo) (Fin hi) (Fin hi)) (Fin top)
  /\ neqv (priceToY (Fin top) (Fin bottom) (Fin lo) (Fin hi) (Fin lo)) (Fin bottom)
  /\ forall b, In b (window (bars c) s n) ->
       exists yh yl,
         priceToY (Fin top) (Fin bottom) (Fin lo) (Fin hi) (High b) = Fin yh
         /\ priceToY (Fin top) (Fin bottom) (Fin lo) (Fin hi) (Low b) = Fin yl
         /\ top <= yh /\ yl <= bottom
         /\ (nle (Low b) (High b) = true -> yh <= yl).
Proof.
  intros Htb Hfin Hdbl (b0 & Hb0 & Hlh) Hrange Hlh'.
  assert (Hne : window (bars c) s n <> []) by (intro E; now rewrite E in Hb0).
  destruct (calculatePriceRange_window c s n Hne Hfin)
    as (mn & mx & Hmn & Hmx & Heq).
  assert (Hmm : mn <= mx).
  { destruct Hmn as [_ Hmn], Hmx as [_ Hmx].
    specialize (Hmn b0 Hb0). specialize (Hmx b0 Hb0).
    destruct (Low b0), (High b0); try discriminate. cbn in *. qbool; lra. }
  assert (Dmn : is_double mn).
  { destruct Hmn as [(b & Hb & Eb) _]. apply (Hdbl b mn Hb). now left. }
  assert (Dmx : is_double mx).
  { destruct Hmx as [(b & Hb & Eb) _]. apply (Hdbl b mx Hb). now right. }
  destruct (padded_ends mn mx Hmm Dmn Dmx) as (_ & Hlo & Hhi & _).
  rewrite Hrange in Heq. injection Heq as Elo Ehi.
  rewrite <- Elo in Hlo. rewrite <- Ehi in Hhi.
  cbn in Hlo, Hhi. apply Qle_bool_iff in Hlo, Hhi.
  assert (Hd : 0 < hi - lo) by lra.
  split; [| split].
  - rewrite priceToY_finite by trivial. cbn. field. lra.
  - rewrite priceToY_finite by trivial. cbn. field. lra.
  - intros b Hb. destruct (Hfin b Hb) as [Fl Fh].
    destruct Hmn as [_ Hmn], Hmx as [_ Hmx].
    specialize (Hmn b Hb). specialize (Hmx b Hb).
    destruct (Low b) as [| | |l]; try discriminate.
    destruct (High b) as [| | |h]; try discriminate.
    cbn in Hmn, Hmx. apply Qle_bool_iff in Hmn, Hmx.
    rewrite !priceToY_finite by trivial.
    eexists. eexists. split; [reflexivity |]. split; [reflexivity |].
    assert (Qh : 0 <= (hi - h) / (hi - lo))
      by (apply Qle_shift_div_l; lra).
    assert (Ql : (hi - l) / (hi - lo) <= 1)
      by (apply Qle_shift_div_r; lra).
    split; [nra | split; [nra |]].
    cbn. intro Hle. apply Qle_bool_iff in Hle.
    assert (Qm : (hi - h) / (hi - lo) <= (hi - l) / (hi - lo)).
    { unfold Qdiv. apply Qmult_le_compat_r; [lra |].
      apply Qlt_le_weak, Qinv_lt_0_compat. lra. }
    nra.
Qed.

Lemma candles_inside_plot_witness :
  let c :=
    setInitialData (new_Chart false)
      [mkBar (Fin 1) (Fin 1.5) (Fin 2) (Fin 1.25) (Fin 1.75) (Fin 10);
       mkBar (Fin 2) (Fin 1.75) (Fin 1.875) (Fin 1.5) (Fin 1.625) (Fin 12)] in
  exists lo hi,
    calculatePriceRange c (of_nat 0) (of_nat 100) = (Fin lo, Fin hi)
    /\ lo < hi
    /\ neqv (priceToY (Fin 10) (Fin 310) (Fin lo) (Fin hi) (Fin hi)) (Fin 10)
    /\ neqv (priceToY (Fin 10) (Fin 310) (Fin lo) (Fin hi) (Fin lo)) (Fin 310).
Proof.
  intro c.
  assert (H : exists lo hi,
             calculatePriceRange c (of_nat 0) (of_nat 100) = (Fin lo, Fin hi)
             /\ lo < hi)
    by (eexists; eexists; split; vm_compute; reflexivity).
  destruct H as (lo & hi & Hrange & Hlt).
  exists lo, hi. split; [exact Hrange |]. split; [exact Hlt |].
  assert (Htb : 10 < 310) by reflexivity.
  refine (let H := candles_inside_plot c 0 100 10 310 lo hi Htb _ _ _ Hrange Hlt
          in conj (proj1 H) (proj1 (proj2 H))).
  - intros b [<- | [<- | []]]; split; reflexivity.
  - intros b x [<- | [<- | []]] [E | E]; injection E as <-;
      vm_compute; reflexivity.
  - eexists. split; [left; reflexivity | reflexivity].
Defined.

(** ** The visible range *)

Lemma floor_bounds (x : Q) :
  0 <= x ->
  inject_Z (Z.of_nat (Z.to_nat (Qfloor x))) <= x
  /\ x < inject_Z (Z.of_nat (S (Z.to_nat (Qfloor x)))).
Proof.
  intro H.
  assert (Hz : (0 <= Qfloor x)%Z)
    by (change 0%Z with (Qfloor 0); now apply Qfloor_resp_le).
  rewrite Nat2Z.inj_succ, Z2Nat.id by trivial.
  split; [apply Qfloor_le | apply Qlt_floor].
Qed.

(** X14.  The visible window fits the canvas: on a viewport within its
    invariant and a canvas of finite width [q >= 0] ([clientWidth], or
    [width] when that is 0), [getVisibleRange] returns natural numbers
    [(k, i)] with [k * (barWidth + spacing) <= q < (k + 1) * (barWidth +
    spacing)] and [i <= offsetIndex < i + 1]. *)
Theorem visible_range_fits (canvas : Canvas) (c : Chart) (q : Q) :
  viewport_ok (viewport c) = true ->
  nor (clientWidth canvas) (width canvas) = Fin q -> 0 <= q ->
  exists k i : nat,
    getVisibleRange canvas c = (of_nat k, of_nat i)
    /\ nle (nmul (of_nat k) (nadd (barWidth (viewport c)) (spacing (viewport c))))
           (Fin q) = true
    /\ nlt (Fin q)
           (nmul (of_nat (S k))
                 (nadd (barWidth (viewport c)) (spacing (viewport c)))) = true
    /\ nle (of_nat i) (offsetIndex (viewport c)) = true
    /\ nlt (offsetIndex (viewport c)) (of_nat (S i)) = true.
Proof.
  intros Hok Hq Hq0.
  destruct (viewport_ok_inv _ Hok) as (o & w & s & m & Ho & Hw & Hs & Hm & I).
  destruct I as (I0 & I1 & I2 & I3).
  assert (Hspan : 0 < w + s) by lra.
  assert (Hx : 0 <= q / (w + s)) by (apply Qle_shift_div_l; lra).
  exists (Z.to_nat (Qfloor (q / (w + s)))), (Z.to_nat (Qfloor o)).
  destruct (floor_bounds _ Hx) as [Hk1 Hk2].
  destruct (floor_bounds _ I0) as [Hi1 Hi2].
  split; [| split; [| split; [| split]]].
  - unfold getVisibleRange. rewrite Hq, Hw, Hs, Ho. cbn [nadd ndiv].
    assert (E : Qeq_bool (w + s) 0 = false) by (apply Qeq_bool_false; lra).
    rewrite E. now rewrite !nfloor_of_nat.
  - rewrite Hw, Hs. unfold of_nat. cbn [nmul nadd nle nlt]. apply Qle_bool_iff.
    assert (Eq : q / (w + s) * (w + s) == q) by (field; lra).
    nra.
  - rewrite Hw, Hs. unfold of_nat. cbn [nmul nadd nle nlt]. unfold Qlt_bool.
    apply negb_true_iff, Qle_bool_false.
    assert (Eq : q / (w + s) * (w + s) == q) by (field; lra).
    nra.
  - rewrite Ho. unfold of_nat. cbn [nmul nadd nle nlt]. now apply Qle_bool_iff.
  - rewrite Ho. unfold of_nat. cbn [nmul nadd nle nlt]. unfold Qlt_bool.
    now apply negb_true_iff, Qle_bool_false.
Qed.

Lemma visible_range_fits_witness :
  exists k i : nat,
    getVisibleRange (mkCanvas (Fin 700) (Fin 400) (Fin 1400) (Fin 800) (Fin 2))
                    (new_Chart false) = (of_nat k, of_nat i).
Proof.
  destruct (visible_range_fits
              (mkCanvas (Fin 700) (Fin 400) (Fin 1400) (Fin 800) (Fin 2))
              (new_Chart false) 700 eq_refl eq_refl) as (k & i & H & _).
  - discriminate.
  - now exists k, i.
Defined.

(** ** DataLoader: the flat format and the progress reports *)

Lemma sort_insert_head (x : Bar) (l : list Bar) :
  Forall (time_le x) l -> sort_insert byTime x l = x :: l.
Proof.
  intro H. destruct l as [|y l]; [reflexivity |].
  inversion H as [|? ? Hxy _]; subst. cbn [sort_insert].
  unfold time_le in Hxy. unfold byTime.
  destruct (Time x), (Time y); try discriminate; cbn; trivial.
  cbn in Hxy. qbool; lra.
Qed.

Lemma sort_of_sorted (l : list Bar) :
  StronglySorted time_le l -> sort byTime l = l.
Proof.
  induction 1 as [|x l Hs IH Hx]; [reflexivity |].
  cbn [sort fold_right]. fold (sort byTime l). rewrite IH.
  now apply sort_insert_head.
Qed.

(** X15.  The flat format: for a non-empty array of bar objects whose
    times are numbers the loader returns the same bars sorted ascending by
    [Time]; an array that is sorted already comes back unchanged (bars of
    equal time keep their order), so loading what was loaded is the
    identity; the empty array gives the empty array. *)
Theorem flat_payload (statusText : string) (b : Bar) (l : list Bar) :
  Forall (fun x => is_nan (Time x) = false) (b :: l) ->
  (exists progress loaded,
      loadForexTesterChunk (Response true statusText (Some (JBars (b :: l))))
      = (progress, Ok loaded)
      /\ Permutation loaded (b :: l)
      /\ StronglySorted time_le loaded
      /\ snd (loadForexTesterChunk (Response true statusText (Some (JBars loaded))))
         = Ok loaded)
  /\ (StronglySorted time_le (b :: l) ->
      snd (loadForexTesterChunk (Response true statusText (Some (JBars (b :: l)))))
      = Ok (b :: l))
  /\ snd (loadForexTesterChunk (Response true statusText (Some (JBars []))))
     = Ok [].
Proof.
  intro Hn. split; [| split; [| reflexivity]].
  - rewrite load_bars. eexists. eexists. split; [reflexivity |].
    pose proof (sort_sorted (b :: l) Hn) as Hs.
    split; [apply sort_perm | split; [exact Hs |]].
    destruct (sort byTime (b :: l)) as [|x xs] eqn:E; [reflexivity |].
    rewrite load_bars. cbn [snd]. now rewrite (sort_of_sorted _ Hs).
  - intro Hs. rewrite load_bars. cbn [snd]. now rewrite (sort_of_sorted _ Hs).
Qed.

Lemma flat_payload_witness :
  snd (loadForexTesterChunk
         (Response true "OK"
            (Some (JBars [mkBar (Fin 1) (Fin 1) (Fin 2) (Fin 1) (Fin 2) (Fin 10);
                          mkBar (Fin 1) (Fin 2) (Fin 3) (Fin 1) (Fin 1) (Fin 11);
                          mkBar (Fin 4) (Fin 2) (Fin 3) (Fin 1) (Fin 1) (Fin 12)]))))
  = Ok [mkBar (Fin 1) (Fin 1) (Fin 2) (Fin 1) (Fin 2) (Fin 10);
        mkBar (Fin 1) (Fin 2) (Fin 3) (Fin 1) (Fin 1) (Fin 11);
        mkBar (Fin 4) (Fin 2) (Fin 3) (Fin 1) (Fin 1) (Fin 12)].
Proof.
  apply flat_payload.
  - repeat constructor.
  - repeat constructor.
Defined.

Lemma chunk_progress_value (total i : nat) :
  (i < total)%nat ->
  exists q, fst (chunk_progress total i) = Fin q
            /\ q == 70 + inject_Z (Z.of_nat i) / inject_Z (Z.of_nat total) * 20
            /\ 70 <= q < 90.
Proof.
  intro H. unfold chunk_progress, of_nat. cbn [fst ndiv nmul nadd].
  assert (Ht : 0 < inject_Z (Z.of_nat total))
    by (change 0 with (inject_Z 0); rewrite <- Zlt_Qlt; lia).
  assert (Hi : 0 <= inject_Z (Z.of_nat i))
    by (change 0 with (inject_Z 0); rewrite <- Zle_Qle; lia).
  assert (Hit : inject_Z (Z.of_nat i) < inject_Z (Z.of_nat total))
    by (rewrite <- Zlt_Qlt; lia).
  assert (E : Qeq_bool (inject_Z (Z.of_nat total)) 0 = false)
    by (apply Qeq_bool_false; lra).
  rewrite E. eexists. split; [reflexivity |]. split; [reflexivity |].
  assert (0 <= inject_Z (Z.of_nat i) / inject_Z (Z.of_nat total))
    by (apply Qle_shift_div_l; lra).
  assert (inject_Z (Z.of_nat i) / inject_Z (Z.of_nat total) < 1)
    by (apply Qlt_shift_div_r; lra).
  lra.
Qed.

Lemma chunk_progress_mono (total i j : nat) :
  (i <= j)%nat -> (j < total)%nat ->
  num_le (fst (chunk_progress total i)) (fst (chunk_progress total j)).
Proof.
  intros Hij Hj.
  destruct (chunk_progress_value total i) as (a & -> & Ea & _); [lia |].
  destruct (chunk_progress_value total j) as (b & -> & Eb & _); [lia |].
  unfold num_le. cbn. apply Qle_bool_iff. rewrite Ea, Eb.
  assert (Ht : 0 < inject_Z (Z.of_nat total))
    by (change 0 with (inject_Z 0); rewrite <- Zlt_Qlt; lia).
  assert (Hle : inject_Z (Z.of_nat i) <= inject_Z (Z.of_nat j))
    by (rewrite <- Zle_Qle; lia).
  assert (inject_Z (Z.of_nat i) / inject_Z (Z.of_nat total)
          <= inject_Z (Z.of_nat j) / inject_Z (Z.of_nat total)).
  { unfold Qdiv. apply Qmult_le_compat_r; trivial.
    apply Qlt_le_weak, Qinv_lt_0_compat, Ht. }
  lra.
Qed.

(** The reports of the chunks [a .. a + n - 1]: ascending, within
    [[70, 90)]. *)
Lemma chunk_reports_sorted (total a n : nat) :
  (a + n <= total)%nat ->
  StronglySorted num_le (map fst (map (chunk_progress total) (List.seq a n)))
  /\ Forall (fun p => num_le (Fin 70) p /\ num_le p (Fin 90))
            (map fst (map (chunk_progress total) (List.seq a n))).
Proof.
  revert a. induction n as [|n IH]; intros a H; cbn [List.seq map].
  - split; constructor.
  - destruct (IH (S a)) as [Hs Hf]; [lia |].
    destruct (chunk_progress_value total a) as (q & Eq & _ & Hq); [lia |].
    split.
    + constructor; trivial.
      rewrite map_map. apply Forall_forall. intros p Hp.
      apply in_map_iff in Hp as (j & <- & Hj). apply in_seq in Hj.
      apply chunk_progress_mono; lia.
    + constructor; trivial. rewrite Eq. unfold num_le. cbn.
      split; apply Qle_bool_iff; lra.
Qed.

Lemma sorted_app (l1 l2 : list num) :
  StronglySorted num_le l1 -> StronglySorted num_le l2 ->
  (forall x y, In x l1 -> In y l2 -> num_le x y) ->
  StronglySorted num_le (l1 ++ l2).
Proof.
  intros H1 H2 H. induction H1 as [|x l1 Hs IH Hx]; [exact H2 |].
  cbn. constructor.
  - apply IH. intros a b Ha Hb. apply H; trivial. now right.
  - apply Forall_app. split; trivial.
    apply Forall_forall. intros y Hy. apply H; trivial. now left.
Qed.

(** The values reported on the chunked branch: 10, 50, 70, the reports of
    the first [k] chunks and, when the loop completes, 95 and 100. *)
Lemma chunk_branch_values (n k : nat) (tail : list num) :
  (k <= n)%nat -> tail = [] \/ tail = [Fin 95; Fin 100] ->
  StronglySorted num_le
    (Fin 10 :: Fin 50 :: Fin 70
       :: map fst (map (chunk_progress n) (List.seq 0 k)) ++ tail)
  /\ Forall (fun p => num_le (Fin 10) p /\ num_le p (Fin 100))
       (Fin 10 :: Fin 50 :: Fin 70
          :: map fst (map (chunk_progress n) (List.seq 0 k)) ++ tail)
  /\ (tail = [] ->
      Forall (fun p => num_le p (Fin 90))
        (Fin 10 :: Fin 50 :: Fin 70
           :: map fst (map (chunk_progress n) (List.seq 0 k)) ++ tail)).
Proof.
  intros Hk Htail.
  pose proof (chunk_reports_sorted n 0 k Hk) as [Hs Hf].
  set (mid := map fst (map (chunk_progress n) (List.seq 0 k))) in *.
  assert (Hmid : forall p, In p mid -> num_le (Fin 70) p /\ num_le p (Fin 90))
    by (now apply Forall_forall).
  assert (Hhead : forall a b, a <= b -> num_le (Fin a) (Fin b))
    by (intros a b Hab; unfold num_le; cbn; now apply Qle_bool_iff).
  assert (Hup : forall p b, In p mid -> 90 <= b -> num_le p (Fin b)).
  { intros p b Hp Hb. destruct (Hmid p Hp) as [_ H90].
    unfold num_le in *. destruct p; cbn in *; trivial; try discriminate.
    qbool; lra. }
  assert (Hlow : forall p a, In p mid -> a <= 70 -> num_le (Fin a) p).
  { intros p a Hp Ha. destruct (Hmid p Hp) as [H70 _].
    unfold num_le in *. destruct p; cbn in *; trivial; try discriminate.
    qbool; lra. }
  assert (Htl : forall a, a <= 70 -> Forall (num_le (Fin a)) (mid ++ tail)).
  { intros a Ha. apply Forall_app. split.
    - apply Forall_forall. intros p Hp. now apply Hlow.
    - destruct Htail as [-> | ->]; repeat constructor; apply Hhead; lra. }
  split; [| split].
  - constructor; [constructor; [constructor |] |].
    + apply sorted_app; trivial.
      * destruct Htail as [-> | ->]; repeat constructor.
      * intros x y Hx Hy. destruct Htail as [-> | ->]; [destruct Hy |].
        destruct Hy as [<- | [<- | []]]; apply Hup; trivial; lra.
    + apply Htl. lra.
    + constructor; [apply Hhead; lra | apply Htl; lra].
    + constructor; [apply Hhead; lra |].
      constructor; [apply Hhead; lra | apply Htl; lra].
  - repeat (constructor; [split; apply Hhead; lra |]).
    apply Forall_app. split.
    + apply Forall_forall. intros p Hp.
      split; [apply Hlow | apply Hup]; trivial; lra.
    + destruct Htail as [-> | ->]; repeat constructor; apply Hhead; lra.
  - intros ->. rewrite app_nil_r.
    repeat (constructor; [apply Hhead; lra |]).
    apply Forall_forall. intros p Hp. apply Hup; trivial; lra.
Qed.

(** The branches that report a fixed list of values. *)
Ltac fixed_progress :=
  cbn [fst snd map] in *;
  split; [repeat constructor |
  split; [repeat constructor |
  split; [reflexivity |
  split; [intro; first [reflexivity | congruence] |
  split; [intro; first [congruence | repeat constructor] |
          let H := fresh "H" in
          intros ? H; first [discriminate H | congruence | repeat constructor]]]]]].

(** X16.  Progress never goes back: whatever the response, the values the
    loader passes to [onProgress] are ascending and lie in [[10, 100]],
    and the first one is 10; when the load succeeds the last value is 100;
    when it fails none is above 90, and none is above 50 unless the body
    is an array, which then is a malformed one. *)
Theorem progress_ascending (res : response) :
  StronglySorted num_le (progress_values res)
  /\ Forall (fun p => num_le (Fin 10) p /\ num_le p (Fin 100)) (progress_values res)
  /\ hd_error (progress_values res) = Some (Fin 10)
  /\ (load_fails res = false -> last (progress_values res) NaN = Fin 100)
  /\ (load_fails res = true ->
      Forall (fun p => num_le p (Fin 90)) (progress_values res))
  /\ (load_fails res = true -> array_body res = false ->
      Forall (fun p => num_le p (Fin 50)) (progress_values res)).
Proof.
  pose proof (load_fails_spec res) as Hspec.
  unfold progress_values.
  destruct res as [|[] st [[elems|]|]];
    cbn [loadForexTesterChunk] in *; try fixed_progress.
  destruct (is_flat elems) as [[|]|].
  - destruct (flat_bars elems) as [loaded|]; fixed_progress.
  - destruct (process_chunks_spec (List.length elems) 0 elems)
      as (k & Hk & Hr & Ho).
    destruct (process_chunks (List.length elems) 0 elems) as [reports outcome].
    cbn [fst snd] in Hr, Ho. subst reports.
    destruct outcome as [loaded | e]; cbn [fst snd] in *.
    + destruct (chunk_branch_values (List.length elems) k [Fin 95; Fin 100] Hk
                  (or_intror eq_refl)) as (Hs & Hb & _).
      rewrite !map_app. cbn [map fst app].
      split; [exact Hs |]. split; [exact Hb |]. split; [reflexivity |].
      split; [| split; [intro H; congruence | intros _ H; discriminate H]].
      intros _.
      match goal with
      | |- last (?a :: ?b :: ?c :: ?mid ++ [?x; ?y]) _ = _ =>
          replace (a :: b :: c :: mid ++ [x; y])
            with ((a :: b :: c :: mid ++ [x]) ++ [y])
            by (cbn; now rewrite <- app_assoc)
      end.
      apply last_last.
    + destruct Ho as [-> _].
      destruct (chunk_branch_values (List.length elems) k [] Hk
                  (or_introl eq_refl)) as (Hs & Hb & H90).
      rewrite !map_app. cbn [map fst app].
      rewrite app_nil_r in Hs, Hb. specialize (H90 eq_refl).
      rewrite app_nil_r in H90.
      split; [exact Hs |]. split; [exact Hb |]. split; [reflexivity |].
      split; [intro H; congruence |]. split; [intros _; exact H90 |].
      intros _ H. discriminate H.
  - fixed_progress.
Qed.

(** ** Chart: a load that succeeds *)

Lemma progress_keeps_all (progress : list (num * string)) (c : Chart) :
  let c' := fold_left (fun c pm => setLoading c true (fst pm) (snd pm)) progress c in
  bars c' = bars c /\ viewport c' = viewport c.
Proof. apply progress_keeps. Qed.

Lemma first_bar_in_view (l : list Bar) (vc : num) :
  l <> [] -> nle (Fin 1) vc = true ->
  index l (nadd (nfloor (nmax (Fin 0) (nsub (length_num l) vc))) (Fin 0)) <> None.
Proof.
  intros Hl Hvc.
  assert (Hlen : (0 < List.length l)%nat) by (destruct l; [congruence | cbn; lia]).
  assert (Hlq : 1 <= inject_Z (Z.of_nat (List.length l)))
    by (change 1 with (inject_Z 1); rewrite <- Zle_Qle; lia).
  assert (H : exists o, nmax (Fin 0) (nsub (length_num l) vc) = Fin o
                        /\ 0 <= o <= inject_Z (Z.of_nat (List.length l)) - 1).
  { unfold length_num, of_nat.
    destruct vc as [| | |v]; try discriminate; cbn in *.
    - eexists. split; [reflexivity | lra].
    - qbool; eexists; (split; [reflexivity | lra]). }
  destruct H as (o & -> & Ho0 & Ho1).
  cbn [nfloor nadd].
  assert (Hz : (0 <= Qfloor o)%Z)
    by (change 0%Z with (Qfloor 0); now apply Qfloor_resp_le).
  rewrite (index_nat_eq l _ (Z.to_nat (Qfloor o))).
  - apply nth_error_Some.
    assert (Hf : inject_Z (Qfloor o) <= inject_Z (Z.of_nat (List.length l)) - 1)
      by (pose proof (Qfloor_le o); lra).
    assert (Hf' : inject_Z (Qfloor o) < inject_Z (Z.of_nat (List.length l)))
      by lra.
    rewrite <- Zlt_Qlt in Hf'. lia.
  - rewrite Z2Nat.id by trivial. ring.
Qed.



(** ** Momentum: how far the view glides *)

Lemma glide_refl (v o D : Q) : glide v v o o D.
Proof.
  unfold glide. split; intro.
  - split; [lra |]. split; ring_simplify; lra.
  - split; [lra |]. ring_simplify. lra.
Qed.

Lemma glide_trans (v0 v1 v2 o0 o1 o2 D : Q) :
  glide v0 v1 o0 o1 D -> glide v1 v2 o1 o2 D -> glide v0 v2 o0 o2 D.
Proof.
  unfold glide. intros [Ha Hb] [Hc Hd]. split; intro H0.
  - destruct (Ha H0) as [[? ?] [? ?]].
    destruct Hc as [[? ?] [? ?]]; [lra |].
    split; [lra |]. split; ring_simplify; ring_simplify in H2;
      ring_simplify in H3; ring_simplify in H6; ring_simplify in H7; lra.
  - destruct (Hb H0) as [[? ?] He].
    destruct Hd as [[? ?] Hf]; [lra |].
    split; [lra |]. ring_simplify. ring_simplify in He. ring_simplify in Hf.
    lra.
Qed.

Lemma glide_distance (a b w s : Q) :
  (a - b) * (0.03 * (w + s)) == 0.03 * (a * (w + s) - b * (w + s)).
Proof. ring. Qed.

Lemma panBy_offset_cases (v : Viewport) (o w s d : Q) :
  offsetIndex v = Fin o -> barWidth v = Fin w -> spacing v = Fin s ->
  0 < w + s ->
  exists o',
    offsetIndex (panBy v (Fin d)) = Fin o'
    /\ ((0 <= o * (w + s) - d /\ o' * (w + s) == o * (w + s) - d)
        \/ (o * (w + s) - d < 0 /\ o' == 0)).
Proof.
  intros Ho Hw Hs HD. rewrite panBy_offsetIndex. unfold pan_target.
  rewrite Ho, Hw, Hs. cbn.
  assert (Hq : d * 1 / (w + s) * (w + s) == d) by (field; lra).
  qbool; try lra; cbn; qbool; eexists; (split; [reflexivity |]).
  all: set (x := d * 1 / (w + s)) in *.
  all: first
    [ solve [left; split; [nra | ring_simplify; ring_simplify in Hq; lra]]
    | solve [right; split; [nra | reflexivity]] ].
Qed.

(** One run of [updateMomentum] on a viewport within its invariant. *)
Lemma updateMomentum_glide (now : num) (c : Chart) (v : Q) :
  viewport_ok (viewport c) = true -> panVelocity c = Fin v ->
  exists o w s o' v',
    offsetIndex (viewport c) = Fin o
    /\ barWidth (viewport c) = Fin w
    /\ spacing (viewport c) = Fin s
    /\ offsetIndex (viewport (fst (updateMomentum now c))) = Fin o'
    /\ barWidth (viewport (fst (updateMomentum now c))) = Fin w
    /\ spacing (viewport (fst (updateMomentum now c))) = Fin s
    /\ panVelocity (fst (updateMomentum now c)) = Fin v'
    /\ viewport_ok (viewport (fst (updateMomentum now c))) = true
    /\ isPanning (fst (updateMomentum now c)) = isPanning c
    /\ glide v v' o o' (w + s).
Proof.
  intros Hok Hv.
  destruct (viewport_ok_inv _ Hok) as (o & w & s & m & Ho & Hw & Hs & Hm & I).
  exists o, w, s.
  destruct (isPanning c) eqn:Hp.
  - destruct (moving (panVelocity c)) eqn:Hmv.
    + destruct (updateMomentum_moving now c Hp Hmv)
        as (c' & -> & Hp' & Hv' & Hvp & _).
      cbn [fst]. rewrite Hvp, Hv', Hp', Hv.
      assert (Hok' : viewport_ok (panBy (viewport c) (Fin v)) = true)
        by now apply panBy_ok.
      assert (HD : 0 < w + s) by lra.
      destruct (panBy_offset_cases (viewport c) o w s v Ho Hw Hs HD)
        as (o' & Ho' & Hcase).
      exists o', (v * 0.97).
      repeat (split; [assumption || reflexivity |]).
      unfold glide.
      destruct Hcase as [[Hc He] | [Hc He]]; split; intro H0;
        (split; [lra |]).
      * rewrite (glide_distance o o' w s), He. split; lra.
      * rewrite (glide_distance o' o w s), He. lra.
      * rewrite (glide_distance o o' w s), He. split; nra.
      * nra.
    + rewrite (updateMomentum_rest now c Hp Hmv). cbn.
      exists o, v. repeat (split; [assumption || reflexivity |]).
      apply glide_refl.
  - rewrite (updateMomentum_idle now c Hp). cbn [fst].
    exists o, v. rewrite Hp. repeat (split; [assumption || reflexivity |]).
    apply glide_refl.
Qed.

Lemma after_runs_glide (clock : nat -> num) (c : Chart) (v0 : Q) (n : nat) :
  viewport_ok (viewport c) = true -> panVelocity c = Fin v0 ->
  exists o0 w s on vn,
    offsetIndex (viewport c) = Fin o0
    /\ barWidth (viewport c) = Fin w
    /\ spacing (viewport c) = Fin s
    /\ offsetIndex (viewport (after_runs clock n c)) = Fin on
    /\ barWidth (viewport (after_runs clock n c)) = Fin w
    /\ spacing (viewport (after_runs clock n c)) = Fin s
    /\ panVelocity (after_runs clock n c) = Fin vn
    /\ viewport_ok (viewport (after_runs clock n c)) = true
    /\ glide v0 vn o0 on (w + s).
Proof.
  intros Hok Hv. induction n as [|n IH].
  - destruct (viewport_ok_inv _ Hok) as (o & w & s & m & Ho & Hw & Hs & _).
    exists o, w, s, o, v0. cbn [after_runs].
    repeat (split; [assumption |]). apply glide_refl.
  - destruct IH as (o0 & w & s & on & vn & Ho & Hw & Hs & Hon & Hwn & Hsn &
                    Hvn & Hokn & Hg).
    destruct (updateMomentum_glide (clock n) _ vn Hokn Hvn)
      as (o1 & w1 & s1 & o' & v' & Ho1 & Hw1 & Hs1 & Ho' & Hw' & Hs' & Hv' &
          Hok' & _ & Hg').
    rewrite Hon in Ho1. rewrite Hwn in Hw1. rewrite Hsn in Hs1.
    injection Ho1 as <-. injection Hw1 as <-. injection Hs1 as <-.
    exists o0, w, s, o', v'. cbn [after_runs].
    repeat (split; [assumption |]). exact (glide_trans _ _ _ _ _ _ _ Hg Hg').
Qed.

(** X18.  How far the momentum carries the view.  From a viewport within
    its invariant and a finite release velocity [v0], after any number of
    momentum runs the bar width and spacing are as they were, the velocity
    [vn] lies between 0 and [v0], and the offset has moved against the sign
    of [v0]: away from the first bar ([v0 <= 0]) by exactly
    [(vn - v0) / (0.03 * (barWidth + spacing))] bars, towards it
    ([v0 >= 0]) by at most [(v0 - vn) / (0.03 * (barWidth + spacing))]
    bars, never below 0.  So a release at [v0] moves the view by at most
    [|v0| / 0.03] pixels in all. *)
Theorem momentum_glide (clock : nat -> num) (c : Chart) (v0 : Q) (n : nat) :
  viewport_ok (viewport c) = true -> panVelocity c = Fin v0 ->
  exists o0 w s on vn,
    offsetIndex (viewport c) = Fin o0
    /\ barWidth (viewport c) = Fin w
    /\ spacing (viewport c) = Fin s
    /\ offsetIndex (viewport (after_runs clock n c)) = Fin on
    /\ barWidth (viewport (after_runs clock n c)) = Fin w
    /\ spacing (viewport (after_runs clock n c)) = Fin s
    /\ panVelocity (after_runs clock n c) = Fin vn
    /\ 0 <= on
    /\ glide v0 vn o0 on (w + s)
    /\ nle (nabs (Fin ((on - o0) * (0.03 * (w + s))))) (nabs (Fin v0)) = true.
Proof.
  intros Hok Hv.
  destruct (after_runs_glide clock c v0 n Hok Hv)
    as (o0 & w & s & on & vn & Ho & Hw & Hs & Hon & Hwn & Hsn & Hvn & Hokn & Hg).
  exists o0, w, s, on, vn. repeat (split; [assumption |]).
  destruct (viewport_ok_inv _ Hokn) as (o' & _ & _ & _ & Ho' & _ & _ & _ & I & _).
  rewrite Hon in Ho'. injection Ho' as E.
  split; [now rewrite E |]. split; [exact Hg |].
  destruct Hg as [Ha Hb].
  assert (Ed : (o0 - on) * (0.03 * (w + s)) == - ((on - o0) * (0.03 * (w + s))))
    by ring.
  destruct (Qlt_le_dec v0 0) as [Hneg | Hpos].
  - destruct Hb as [[? ?] He]; [lra |].
    cbn. qbool; cbn; qbool; lra.
  - destruct (Ha Hpos) as [[? ?] [? ?]].
    cbn. qbool; cbn; qbool; lra.
Qed.

Lemma momentum_glide_witness :
  let c := set_panVelocity (set_isPanning (new_Chart false) true) (Fin (-2)) in
  exists o0 w s on vn,
    offsetIndex (viewport c) = Fin o0
    /\ barWidth (viewport c) = Fin w
    /\ spacing (viewport c) = Fin s
    /\ offsetIndex (viewport (after_runs (fun _ => Fin 0) 3 c)) = Fin on
    /\ barWidth (viewport (after_runs (fun _ => Fin 0) 3 c)) = Fin w
    /\ spacing (viewport (after_runs (fun _ => Fin 0) 3 c)) = Fin s
    /\ panVelocity (after_runs (fun _ => Fin 0) 3 c) = Fin vn
    /\ 0 <= on
    /\ glide (-2) vn o0 on (w + s)
    /\ nle (nabs (Fin ((on - o0) * (0.03 * (w + s))))) (nabs (Fin (-2))) = true.
Proof.
  intro c.
  exact (momentum_glide (fun _ => Fin 0) c (-2) 3 eq_refl eq_refl).
Defined.

(** ** Renderer: the price scale *)

Lemma priceScale_line_value (top bottom mn mx : Q) (i : nat) :
  priceScale_line (Fin top) (Fin bottom) (Fin mn) (Fin mx) i
  = (Fin (top + inject_Z (Z.of_nat i) / 10 * (bottom - top)),
     Fin (mx - inject_Z (Z.of_nat i) / 10 * (mx - mn))).
Proof. reflexivity. Qed.

Lemma priceToY_value (top bottom mn mx p : Q) :
  ~ mn == mx ->
  priceToY (Fin top) (Fin bottom) (Fin mn) (Fin mx) (Fin p)
  = Fin (top + (mx - p) / (mx - mn) * (bottom - top)).
Proof. intro H. unfold priceToY. cbn. qbool; lra. Qed.



(** ** Chart and renderer: the progress bar *)

Lemma loadingProgress_setLoading (c : Chart) (loading : bool) (progress : num)
    (message : string) :
  loadingProgress (setLoading c loading progress message)
  = nmax (Fin 0) (nmin (Fin 100) progress).
Proof. unfold setLoading, scheduleRender. cbn. now destruct (animHandle c). Qed.

(** X20.  The progress bar stays on its track.  Whatever progress is passed
    to [setLoading], NaN apart, the stored [loadingProgress] is a finite
    value of [[0, 100]], equal to the argument when that is already in
    range; the [fillWidth] that [drawLoadingIndicator] computes from it is
    2.6 pixels per percent, between 0 and the track width [pb.w = 260], and
    the fill is drawn ([fillWidth > 0]) exactly when the progress is above
    0. *)
Theorem loading_bar_within_track (c : Chart) (loading : bool) (progress : num)
    (message : string) :
  is_nan progress = false ->
  exists q f,
    loadingProgress (setLoading c loading progress message) = Fin q
    /\ 0 <= q <= 100
    /\ (nle (Fin 0) progress = true -> nle progress (Fin 100) = true ->
        neqv (Fin q) progress)
    /\ loading_fillWidth (Fin q) = Fin f
    /\ f == 2.6 * q
    /\ nle (Fin 0) (Fin f) = true
    /\ nle (Fin f) loading_trackWidth = true
    /\ (ngt (Fin f) (Fin 0) = true <-> 0 < q).
Proof.
  intro Hn. rewrite loadingProgress_setLoading.
  assert (H : exists q, nmax (Fin 0) (nmin (Fin 100) progress) = Fin q
                        /\ 0 <= q <= 100
                        /\ (nle (Fin 0) progress = true ->
                            nle progress (Fin 100) = true ->
                            neqv (Fin q) progress)).
  { destruct progress as [| | |p]; try discriminate; cbn.
    - exists 100. repeat split; try lra; discriminate.
    - exists 0. repeat split; try lra; discriminate.
    - qbool; cbn; qbool; eexists; (split; [reflexivity |]);
        (split; [lra |]); intros; cbn; qbool; lra. }
  destruct H as (q & -> & Hq & Hsame).
  exists q. eexists. split; [reflexivity |]. split; [exact Hq |].
  split; [exact Hsame |]. split; [reflexivity |].
  assert (Hf : (300 - 40) * q / 100 == 2.6 * q) by (field; lra).
  split; [exact Hf |].
  unfold loading_trackWidth, ngt. cbn.
  split; [| split; [| split]]; qbool; try lra.
  all: intro; qbool; lra.
Qed.

Lemma loading_bar_within_track_witness :
  exists q f,
    loadingProgress (setLoading (new_Chart false) true (Fin 250) "Loading")
    = Fin q
    /\ 0 <= q <= 100
    /\ loading_fillWidth (Fin q) = Fin f
    /\ nle (Fin f) loading_trackWidth = true.
Proof.
  destruct (loading_bar_within_track (new_Chart false) true (Fin 250) "Loading"
              eq_refl)
    as (q & f & H1 & H2 & _ & H3 & _ & _ & H4 & _).
  now exists q, f.
Defined.

(** ** Renderer: the date labels *)

Lemma labelEvery_value (vc : Q) :
  exists l, labelEvery (Fin vc) = Fin l /\ 1 <= l.
Proof.
  unfold labelEvery.
  change (ndiv (Fin vc) (Fin 5)) with (Fin (vc / 5)).
  cbn [nfloor nmax].
  destruct (Qle_bool 1 (inject_Z (Qfloor (vc / 5)))) eqn:E.
  - eexists. split; [reflexivity | now apply Qle_bool_iff].
  - exists 1. split; [reflexivity | lra].
Qed.

Lemma half_value (l : Q) : l / 2 == 0.5 * l.
Proof. field. Qed.

Lemma ndiv_finite (a b : Q) : ~ b == 0 -> ndiv (Fin a) (Fin b) = Fin (a / b).
Proof. intro H. cbn. qbool. Qed.

(** One turn of the loop of [drawDateLabels] at a position below the
    bound. *)
Lemma dateLabels_from_step (fuel : nat) (times : num -> num)
    (left width start vc l i : Q) :
  labelEvery (Fin vc) = Fin l -> 0 < i -> i < vc - l / 2 -> 0 < l ->
  dateLabels_from (S fuel) times (Fin left) (Fin width) (Fin start) (Fin vc)
    (Fin i)
  = let t := times (Fin (inject_Z (Qfloor (start + i)))) in
    let rest :=
      dateLabels_from fuel times (Fin left) (Fin width) (Fin start) (Fin vc)
        (Fin (i + l)) in
    if truthy t then (Fin (left + i * width / vc), t) :: rest else rest.
Proof.
  intros Hl Hi Hlt Hl0. pose proof (half_value l) as Hh.
  cbn [dateLabels_from]. rewrite Hl.
  rewrite (ndiv_finite l 2) by lra.
  cbn [nsub nadd nmul nfloor nlt].
  rewrite (ndiv_finite (i * width) vc) by (intro Hz; lra).
  destruct (Qlt_bool i (vc - l / 2)) eqn:E; [reflexivity |].
  qbool. lra.
Qed.

Lemma dateLabels_from_stop (fuel : nat) (times : num -> num)
    (left width start vc l i : Q) :
  labelEvery (Fin vc) = Fin l -> vc - l / 2 <= i ->
  dateLabels_from fuel times (Fin left) (Fin width) (Fin start) (Fin vc) (Fin i)
  = [].
Proof.
  intros Hl Hge. pose proof (half_value l) as Hh.
  destruct fuel; [reflexivity |].
  cbn [dateLabels_from]. rewrite Hl.
  rewrite (ndiv_finite l 2) by lra.
  cbn [nsub nadd nmul nfloor nlt].
  destruct (Qlt_bool i (vc - l / 2)) eqn:E; [| reflexivity].
  qbool. lra.
Qed.

Lemma inject_S (n : nat) :
  inject_Z (Z.of_nat (S n)) == inject_Z (Z.of_nat n) + 1.
Proof. rewrite Nat2Z.inj_succ, <- Z.add_1_r, inject_Z_plus. reflexivity. Qed.

(** The loop of [drawDateLabels] ends: any two fuels above
    [visibleCount - i] give the same labels. *)
Lemma dateLabels_from_fuel (times : num -> num) (left width start vc l : Q) :
  labelEvery (Fin vc) = Fin l -> 1 <= l ->
  forall fuel1 fuel2 i,
    0 < i ->
    vc - i < inject_Z (Z.of_nat fuel1) -> vc - i < inject_Z (Z.of_nat fuel2) ->
    dateLabels_from fuel1 times (Fin left) (Fin width) (Fin start) (Fin vc) (Fin i)
    = dateLabels_from fuel2 times (Fin left) (Fin width) (Fin start) (Fin vc)
        (Fin i).
Proof.
  intros Hl Hl1. pose proof (half_value l) as Hh.
  induction fuel1 as [|fuel1 IH]; intros fuel2 i Hi H1 H2.
  - change (inject_Z (Z.of_nat 0)) with 0 in H1.
    now rewrite !(dateLabels_from_stop _ _ _ _ _ _ l) by (trivial; lra).
  - destruct (Qlt_le_dec i (vc - l / 2)) as [Hlt | Hge].
    + destruct fuel2 as [|fuel2].
      * change (inject_Z (Z.of_nat 0)) with 0 in H2. lra.
      * rewrite inject_S in H1, H2.
        rewrite !(dateLabels_from_step _ _ _ _ _ _ l) by (trivial; lra).
        cbv zeta. rewrite (IH fuel2 (i + l)) by lra. reflexivity.
    + now rewrite !(dateLabels_from_stop _ _ _ _ _ _ l) by trivial.
Qed.

(** What the loop of [drawDateLabels] draws: every label stands at a
    position [j] of the loop, below the bound, and shows a truthy time. *)
Lemma dateLabels_from_spec (times : num -> num) (left width start vc l : Q) :
  labelEvery (Fin vc) = Fin l -> 1 <= l ->
  forall fuel i,
    0 < i ->
    Forall (fun xt =>
              exists j,
                0 < j /\ j < vc - l / 2
                /\ xt = (Fin (left + j * width / vc),
                         times (Fin (inject_Z (Qfloor (start + j)))))
                /\ truthy (snd xt) = true)
           (dateLabels_from fuel times (Fin left) (Fin width) (Fin start)
              (Fin vc) (Fin i)).
Proof.
  intros Hl Hl1. pose proof (half_value l) as Hh.
  induction fuel as [|fuel IH]; intros i Hi; [constructor |].
  destruct (Qlt_le_dec i (vc - l / 2)) as [Hlt | Hge].
  - rewrite (dateLabels_from_step _ _ _ _ _ _ l) by (trivial; lra).
    cbv zeta.
    destruct (truthy (times (Fin (inject_Z (Qfloor (start + i)))))) eqn:Ht.
    + constructor; [| apply IH; lra].
      exists i. repeat split; trivial.
    + apply IH. lra.
  - rewrite (dateLabels_from_stop _ _ _ _ _ _ l) by trivial. constructor.
Qed.

Lemma indicesToTimes_truthy (c : Chart) (z : Z) :
  truthy (indicesToTimes c (Fin (inject_Z z))) = true ->
  exists bar,
    index (bars c) (Fin (inject_Z z)) = Some bar
    /\ indicesToTimes c (Fin (inject_Z z)) = Time bar.
Proof.
  unfold indicesToTimes. cbn [nfloor]. rewrite Qfloor_Z.
  destruct (index (bars c) (Fin (inject_Z z))) as [bar|]; [| discriminate].
  intros _. now exists bar.
Qed.

(** X21.  The date labels stay inside the plot.  For a plot of positive
    width and a finite window, the loop of [drawDateLabels] ends (every
    fuel above [visibleCount] gives the same labels), and every label it
    draws stands strictly between [left] and [left + width], at a position
    [i] with [0 < i < visibleCount], and shows the time of the bar that
    exists at index [Math.floor(visibleStart + i)], a time that is neither
    0 nor NaN; positions without a bar are skipped. *)
Theorem date_labels_inside_plot (c : Chart) (left width start vc : Q)
    (fuel : nat) :
  0 < width -> vc < inject_Z (Z.of_nat fuel) ->
  (forall fuel', vc < inject_Z (Z.of_nat fuel') ->
     dateLabels fuel' (indicesToTimes c) (Fin left) (Fin width) (Fin start)
       (Fin vc)
     = dateLabels fuel (indicesToTimes c) (Fin left) (Fin width) (Fin start)
         (Fin vc))
  /\ Forall (fun xt =>
               exists x i bar,
                 xt = (Fin x, Time bar)
                 /\ left < x < left + width
                 /\ 0 < i < vc
                 /\ index (bars c) (nfloor (Fin (start + i))) = Some bar
                 /\ truthy (Time bar) = true)
            (dateLabels fuel (indicesToTimes c) (Fin left) (Fin width)
               (Fin start) (Fin vc)).
Proof.
  intros Hw Hf.
  destruct (labelEvery_value vc) as (l & Hl & Hl1).
  pose proof (half_value l) as Hh.
  unfold dateLabels. rewrite Hl, (ndiv_finite l 2) by lra.
  split.
  - intros fuel' Hf'.
    apply (dateLabels_from_fuel _ _ _ _ _ l); trivial; lra.
  - eapply Forall_impl;
      [| apply (dateLabels_from_spec _ _ _ _ _ l); trivial; lra].
    intros [x t] (j & Hj0 & Hj1 & Heq & Ht).
    injection Heq as -> ->. cbn [snd] in Ht.
    destruct (indicesToTimes_truthy c _ Ht) as (bar & Hb & Htime).
    exists (left + j * width / vc), j, bar.
    rewrite Htime in Ht |- *.
    assert (Hvc : 0 < vc) by lra.
    assert (Hlo : 0 < j * width / vc)
      by (apply Qlt_shift_div_l; [exact Hvc | nra]).
    assert (Hhi : j * width / vc < width)
      by (apply Qlt_shift_div_r; [exact Hvc | nra]).
    repeat split; trivial; lra.
Qed.

Lemma date_labels_inside_plot_witness :
  let c :=
    set_bars (new_Chart false)
      [mkBar (Fin 60) (Fin 1) (Fin 2) (Fin 1) (Fin 2) (Fin 5);
       mkBar (Fin 120) (Fin 2) (Fin 3) (Fin 1) (Fin 2) (Fin 7)] in
  Forall (fun xt =>
            exists x i bar,
              xt = (Fin x, Time bar)
              /\ 10 < x < 10 + 100
              /\ 0 < i < 2
              /\ index (bars c) (nfloor (Fin (0 + i))) = Some bar
              /\ truthy (Time bar) = true)
         (dateLabels 3 (indicesToTimes c) (Fin 10) (Fin 100) (Fin 0) (Fin 2)).
Proof.
  intro c.
  assert (H1 : 0 < 100) by reflexivity.
  assert (H2 : 2 < inject_Z (Z.of_nat 3)) by reflexivity.
  exact (proj2 (date_labels_inside_plot c 10 100 0 2 3 H1 H2)).
Defined.

(** ** Renderer: the body of a candle *)

Lemma priceToY_antitone (top bottom lo hi p q : Q) :
  top < bottom -> lo < hi -> p <= q ->
  top + (hi - q) / (hi - lo) * (bottom - top)
  <= top + (hi - p) / (hi - lo) * (bottom - top).
Proof.
  intros Htb Hlh Hpq.
  assert (Ea : (hi - q) / (hi - lo) * (hi - lo) == hi - q) by (field; lra).
  assert (Eb : (hi - p) / (hi - lo) * (hi - lo) == hi - p) by (field; lra).
  set (a := (hi - q) / (hi - lo)) in *. set (b := (hi - p) / (hi - lo)) in *.
  assert (Hab : a <= b) by nra.
  nra.
Qed.

(** X22.  The body of a candle.  On a plot with [top < bottom] and a price
    range with [minPrice < maxPrice], the rectangle [drawBars] fills for a
    bar with finite open and close is at least 1 pixel high, so a bar that
    opens and closes at the same price is still drawn; its upper edge is
    the height of the greater of open and close (prices grow upwards,
    pixels downwards), and when it is more than 1 pixel high its lower edge
    is the height of the smaller one; it is filled in the bull colour
    exactly when [Close >= Open]. *)
Theorem candle_body (left top bottom lo hi w s o c : Q) (i : nat) (bar : Bar) :
  top < bottom -> lo < hi -> Open bar = Fin o -> Close bar = Fin c ->
  exists y h,
    last (drawBars_body (Fin left) (Fin top) (Fin bottom) (Fin lo) (Fin hi)
            (Fin w) (Fin s) i bar) Save
    = FillRect (nadd (Fin left) (nmul (of_nat i) (nadd (Fin w) (Fin s))))
               (Fin y) (Fin w) (Fin h)
    /\ 1 <= h
    /\ neqv (priceToY (Fin top) (Fin bottom) (Fin lo) (Fin hi)
               (nmax (Open bar) (Close bar)))
            (Fin y)
    /\ (1 < h ->
        neqv (priceToY (Fin top) (Fin bottom) (Fin lo) (Fin hi)
                (nmin (Open bar) (Close bar)))
             (Fin (y + h)))
    /\ In (SetFillStyle (if nle (Open bar) (Close bar)
                         then COLORS.bull else COLORS.bear))
          (drawBars_body (Fin left) (Fin top) (Fin bottom) (Fin lo) (Fin hi)
             (Fin w) (Fin s) i bar).
Proof.
  intros Htb Hlh Ho Hc. unfold drawBars_body. rewrite Ho, Hc.
  rewrite !priceToY_finite by trivial.
  cbn [last nge nle nmax nmin nsub].
  assert (Hy : (o <= c ->
                top + (hi - c) / (hi - lo) * (bottom - top)
                <= top + (hi - o) / (hi - lo) * (bottom - top))
               /\ (c <= o ->
                   top + (hi - o) / (hi - lo) * (bottom - top)
                   <= top + (hi - c) / (hi - lo) * (bottom - top)))
    by (split; apply priceToY_antitone; trivial).
  destruct Hy as [Hy1 Hy2].
  set (yo := top + (hi - o) / (hi - lo) * (bottom - top)) in *.
  set (yc := top + (hi - c) / (hi - lo) * (bottom - top)) in *.
  destruct (Qle_bool o c) eqn:Hoc;
    rewrite !priceToY_finite by trivial; fold yo yc;
    destruct (Qle_bool yo yc) eqn:E1; cbn [nsub nadd nneg];
    match goal with
    | |- context [Qle_bool 1 ?d] => destruct (Qle_bool 1 d) eqn:E2
    end;
    eexists; eexists; (split; [reflexivity |]); qbool;
    (split; [lra |]); (split; [cbn; lra |]); (split; [cbn; lra |]);
    cbn; tauto.
Qed.

Lemma candle_body_witness :
  exists y h,
    last (drawBars_body (Fin 10) (Fin 10) (Fin 310) (Fin 1) (Fin 2) (Fin 6)
            (Fin 1) 3 (mkBar (Fin 60) (Fin 1.5) (Fin 1.5) (Fin 1.5) (Fin 1.5)
                         (Fin 4))) Save
    = FillRect (nadd (Fin 10) (nmul (of_nat 3) (nadd (Fin 6) (Fin 1))))
               (Fin y) (Fin 6) (Fin h)
    /\ 1 <= h.
Proof.
  assert (H1 : 10 < 310) by reflexivity.
  assert (H2 : 1 < 2) by reflexivity.
  destruct (candle_body 10 10 310 1 2 6 1 1.5 1.5 3
              (mkBar (Fin 60) (Fin 1.5) (Fin 1.5) (Fin 1.5) (Fin 1.5) (Fin 4))
              H1 H2 eq_refl eq_refl)
    as (y & h & Hr & Hh & _).
  now exists y, h.
Defined.

(** ** Interaction: one tick of the wheel *)

(** X23.  One tick of the wheel.  On a viewport within its invariant a
    wheel event with [deltaY > 0] zooms out and any other one ([deltaY] 0,
    negative or NaN) zooms in, by 2% of the bar width: the new width is
    [0.98 * barWidth] or [1.02 * barWidth] when that is within
    [[1, maxBarWidth]]; otherwise it is the limit, unless the width is
    already within 0.01 of the limit, in which case the tick leaves it
    where it is.  The bars are untouched and a frame is requested. *)
Theorem wheel_zoom_step (c : Chart) (clientX rectLeft deltaY : num) :
  viewport_ok (viewport c) = true ->
  exists w m w',
    barWidth (viewport c) = Fin w
    /\ maxBarWidth (viewport c) = Fin m
    /\ barWidth (viewport (on_wheel c clientX rectLeft deltaY)) = Fin w'
    /\ (ngt deltaY (Fin 0) = true ->
        (1 <= 0.98 * w -> w' == 0.98 * w)
        /\ (0.98 * w < 1 -> 1.01 <= w -> w' == 1)
        /\ (w < 1.01 -> w' == w))
    /\ (ngt deltaY (Fin 0) = false ->
        (1.02 * w <= m -> w' == 1.02 * w)
        /\ (m < 1.02 * w -> w <= m - 0.01 -> w' == m)
        /\ (m - 0.01 < w -> w' == w))
    /\ bars (on_wheel c clientX rectLeft deltaY) = bars c
    /\ animHandle (on_wheel c clientX rectLeft deltaY) = true.
Proof.
  intro Hok.
  destruct (viewport_ok_inv _ Hok) as (o & w & s & m & Ho & Hw & Hs & Hm & I).
  exists w, m. unfold on_wheel.
  rewrite viewport_scheduleRender, animHandle_scheduleRender.
  cbn [viewport set_viewport].
  rewrite zoomAt_barWidth. unfold zoom_noop, zoom_newBarWidth.
  rewrite Hw, Hm.
  assert (Hb : forall c', bars (scheduleRender c') = bars c')
    by (intro c'; unfold scheduleRender; now destruct (animHandle c')).
  rewrite Hb. cbn [bars set_viewport].
  destruct (ngt deltaY (Fin 0)); do 4 (cbn; qbool);
    eexists; (repeat (split; [reflexivity |]));
    (split; [intro Hd; try discriminate; repeat split; intros; lra |]);
    (split; [intro Hd; try discriminate; repeat split; intros; lra |]);
    split; reflexivity.
Qed.

Lemma wheel_zoom_step_witness :
  exists w m w',
    barWidth (viewport (new_Chart false)) = Fin w
    /\ maxBarWidth (viewport (new_Chart false)) = Fin m
    /\ barWidth (viewport (on_wheel (new_Chart false) (Fin 100) (Fin 0) (Fin 3)))
       = Fin w'
    /\ w' == 0.98 * w.
Proof.
  destruct (wheel_zoom_step (new_Chart false) (Fin 100) (Fin 0) (Fin 3) eq_refl)
    as (w & m & w' & Hw & Hm & Hw' & Hout & _).
  exists w, m, w'. repeat (split; [assumption |]).
  destruct (Hout eq_refl) as [H _]. apply H.
  cbn in Hw. injection Hw as <-. lra.
Defined.
